(** * The concurrent in-memory store of baileys-api (src/store/memory-store.js)

    A shallow embedding of [ConcurrentStore], the properties its
    specification states about it, and further properties of the code:
    of its queries, its bulk loops, its persistence and its history sync.

    Conventions of the embedding
    - A JavaScript [Map] is an insertion-ordered association list with unique
      keys ([JsMap]): [set] on a present key overwrites the value in place,
      [set] on an absent key appends, [delete] removes.  Iteration order is
      the list order, which is what [Array.from(map.entries())] observes.
    - Chat, contact and group-metadata objects are JavaScript objects used as
      records with arbitrary fields: finite maps from field names to
      primitive values.  Chat objects are mutated in place by
      [Object.assign], so the chats map holds references into a heap.
      Contacts, group metadata and stored messages are only ever replaced by
      fresh objects, never mutated, so they are held by value.
    - Numbers are integers ([Z]); [Date.now()] is the argument [now].
    - An [async] method that never suspends is a state transformer.  The
      file system and the polling lock are modelled explicitly. *)

From Stdlib Require Import ZArith String List Lia DecimalString.
From stdpp Require Import base decidable option list sorting gmap strings.

Local Open Scope string_scope.
Local Open Scope list_scope.
Local Open Scope nat_scope.

(** ** JavaScript values *)

Inductive val :=
  | VNull
  | VBool (b : bool)
  | VNum (n : Z)
  | VStr (s : string).

#[global] Instance val_eq_dec : EqDecision val.
Proof. solve_decision. Defined.

(** A JavaScript object used as a record. *)
Abbreviation obj := (gmap string val).

(** The result of reading a property: [None] is [undefined]. *)
Abbreviation key := (option val).

(** [{...a, ...b}] and [Object.assign(a, b)]: the fields of [b] win. *)
Definition spread (a b : obj) : obj := b ∪ a.

(** Truthiness of a property read. *)
Definition truthy (v : key) : bool :=
  match v with
  | None | Some VNull | Some (VBool false) | Some (VNum 0) | Some (VStr "") => false
  | Some _ => true
  end.

(** [v || 0] *)
Definition or_zero (v : key) : val :=
  match v with
  | Some x => if truthy v then x else VNum 0
  | None => VNum 0
  end.

(** ** Insertion-ordered maps *)

Module JsMap.
Section ops.
Context {K V : Type} `{EqDecision K}.

Fixpoint get (k : K) (m : list (K * V)) : option V :=
  match m with
  | [] => None
  | (k', v) :: m' => if decide (k = k') then Some v else get k m'
  end.

Definition has (k : K) (m : list (K * V)) : bool :=
  match get k m with Some _ => true | None => false end.

Fixpoint set (k : K) (v : V) (m : list (K * V)) : list (K * V) :=
  match m with
  | [] => [(k, v)]
  | (k', v') :: m' =>
      if decide (k = k') then (k, v) :: m' else (k', v') :: set k v m'
  end.

Fixpoint delete (k : K) (m : list (K * V)) : list (K * V) :=
  match m with
  | [] => []
  | (k', v') :: m' =>
      if decide (k = k') then delete k m' else (k', v') :: delete k m'
  end.

Definition size (m : list (K * V)) : nat := length m.

Definition keys (m : list (K * V)) : list K := m.*1.

Definition values (m : list (K * V)) : list V := m.*2.

(** [new Map(entries)] *)
Definition of_entries (l : list (K * V)) : list (K * V) :=
  foldl (λ m e, set e.1 e.2 m) [] l.

(** The keys of a [Map] are unique. *)
Definition wf (m : list (K * V)) : Prop := NoDup (keys m).
End ops.
End JsMap.

Abbreviation jsmap K V := (list (K * V)).

(** ** [Array.prototype.sort] with a comparator

    The sort is stable; with a comparator that is a total preorder its result
    is the unique stable ordering, computed here by insertion. *)

Section sort.
Context {A : Type} (cmp : A → A → Z).

Fixpoint insert_sorted (x : A) (l : list A) : list A :=
  match l with
  | [] => [x]
  | y :: l' => if (cmp x y <=? 0)%Z then x :: l else y :: insert_sorted x l'
  end.

Definition js_sort (l : list A) : list A := foldr insert_sorted [] l.
End sort.

(** ** Messages *)

Record message_key := MessageKey {
  remoteJid : string;
  key_id : string
}.

(** The fields of a transport message the store reads; [content] stands for
    the rest of the payload.  [fromMe] and [historySyncNotification] are the
    truthiness of [message.fromMe] and of
    [message?.message?.protocolMessage?.historySyncNotification]. *)
Record WAMessage := Message {
  msg_key : message_key;
  messageTimestamp : option Z;
  fromMe : bool;
  historySyncNotification : bool;
  content : string
}.

(** [{...message, timestamp: Date.now(), indexed: true}] *)
Record stored_message := Stored {
  message : WAMessage;
  timestamp : Z;
  indexed : bool
}.

#[global] Instance message_key_eq_dec : EqDecision message_key.
Proof. solve_decision. Defined.
#[global] Instance WAMessage_eq_dec : EqDecision WAMessage.
Proof. solve_decision. Defined.
#[global] Instance stored_message_eq_dec : EqDecision stored_message.
Proof. solve_decision. Defined.

(** [a.messageTimestamp || 0] *)
Definition timestamp_or_zero (a : stored_message) : Z :=
  match messageTimestamp (message a) with
  | Some t => t
  | None => 0%Z
  end.

(** The sort key of an entry of a chat's message map. *)
Definition entry_timestamp (e : string * stored_message) : Z :=
  timestamp_or_zero e.2.

(** [([, a], [, b]) => (a.messageTimestamp || 0) - (b.messageTimestamp || 0)] *)
Definition by_messageTimestamp (a b : string * stored_message) : Z :=
  (entry_timestamp a - entry_timestamp b)%Z.

(** The cap enforcement shared by [addMessage] and [processChatMessages]:
<<
  if (chatMessages.size > maxMessagesPerChat) {
    const sortedMessages = Array.from(chatMessages.entries()).sort(...);
    const toDelete = sortedMessages.slice(0, chatMessages.size - maxMessagesPerChat);
    toDelete.forEach(([id]) => chatMessages.delete(id));
  }
>> *)
Definition sortedMessages (chatMessages : jsmap string stored_message)
  : list (string * stored_message) :=
  js_sort by_messageTimestamp chatMessages.

Definition toDelete (maxMessagesPerChat : Z)
    (chatMessages : jsmap string stored_message) : list (string * stored_message) :=
  take (Z.to_nat (Z.of_nat (JsMap.size chatMessages) - maxMessagesPerChat))
       (sortedMessages chatMessages).

Definition applyLimit (maxMessagesPerChat : Z)
    (chatMessages : jsmap string stored_message) : jsmap string stored_message :=
  if (maxMessagesPerChat <? Z.of_nat (JsMap.size chatMessages))%Z then
    foldl (λ m e, JsMap.delete e.1 m) chatMessages
          (toDelete maxMessagesPerChat chatMessages)
  else chatMessages.

(** ** The store object *)

(** A reference to a chat object. *)
Abbreviation loc := nat.

Record config := Config {
  maxMessagesPerChat : Z;
  autoSaveInterval : Z;
  batchSize : Z;
  storeFile : string;
  preserveDataDuringSync : bool;
  backupBeforeSync : bool;
  incrementalSave : bool
}.

(** [this.backupData] *)
Record backup := Backup {
  backup_chats : jsmap key loc;
  backup_messages : jsmap string (jsmap string stored_message);
  backup_contacts : jsmap string obj;
  backup_groupMetadata : jsmap key obj
}.

(** [this.stats] *)
Record metrics := Metrics {
  totalMessages : Z;
  totalChats : Z;
  totalContacts : Z;
  lastSave : option Z;
  operations : Z
}.

Inductive error :=
  | Error (reason : string)
  | SystemError (syscall : string)
  | SyntaxError.

(** What [this.emit] publishes. *)
Inductive notification :=
  | store_saved (file : string)
  | store_loaded (file : string) (size : nat)
  | store_error (e : error)
  | store_chat_upserted (chat : obj)
  | store_chat_updated (update : obj)
  | store_message_added (jid : string) (m : WAMessage)
  | store_group_updated (update : obj)
  | store_history_processed (nchats ncontacts nmessages : nat)
      (processingTime : Z) (isLatest : bool) (syncType progress : Z).

Record store := Store {
  cfg : config;
  (* the objects the chats map refers to *)
  heap : list obj;
  chats : jsmap key loc;
  messages : jsmap string (jsmap string stored_message);
  contacts : jsmap string obj;
  groupMetadata : jsmap key obj;
  isProcessingHistory : bool;
  syncStartTime : option Z;
  hasInitialData : bool;
  backupData : backup;
  writeLocks : jsmap string bool;
  pendingWrites : list string;
  isWriting : bool;
  lastSuccessfulSave : option Z;
  stats : metrics;
  (* the notifications emitted so far, oldest first *)
  emitted : list notification
}.

(** The [options] argument of the constructor: every option may be absent. *)
Record options := Options {
  opt_maxMessagesPerChat : option Z;
  opt_autoSaveInterval : option Z;
  opt_batchSize : option Z;
  opt_storeFile : option string;
  opt_preserveDataDuringSync : option bool;
  opt_backupBeforeSync : option bool;
  opt_incrementalSave : option bool
}.

(** [this.config = { maxMessagesPerChat: options.maxMessagesPerChat || 5000,
    ..., ...options }]: the trailing spread makes every option that is present
    win over its computed default.  [cwd_file] is
    [path.resolve(process.cwd(), 'baileys_store.json')]. *)
Definition resolve_config (cwd_file : string) (o : options) : config :=
  {| maxMessagesPerChat := default 5000%Z (opt_maxMessagesPerChat o);
     autoSaveInterval := default 60000%Z (opt_autoSaveInterval o);
     batchSize := default 500%Z (opt_batchSize o);
     storeFile := default cwd_file (opt_storeFile o);
     preserveDataDuringSync := default true (opt_preserveDataDuringSync o);
     backupBeforeSync := default true (opt_backupBeforeSync o);
     incrementalSave := default true (opt_incrementalSave o) |}.

Definition no_options : options :=
  Options None None None None None None None.

(** [new ConcurrentStore(options)], after the configuration is resolved. *)
Definition new_store (c : config) : store :=
  {| cfg := c; heap := []; chats := []; messages := []; contacts := [];
     groupMetadata := [];
     isProcessingHistory := false; syncStartTime := None;
     hasInitialData := false;
     backupData := Backup [] [] [] [];
     writeLocks := []; pendingWrites := []; isWriting := false;
     lastSuccessfulSave := None;
     stats := Metrics 0 0 0 None 0;
     emitted := [] |}.

Definition makeInMemoryStore (cwd_file : string) (o : options) : store :=
  new_store (resolve_config cwd_file o).

(** Field updates. *)
Definition with_heap (h : list obj) (s : store) : store :=
  Store (cfg s) h (chats s) (messages s) (contacts s) (groupMetadata s)
    (isProcessingHistory s) (syncStartTime s) (hasInitialData s) (backupData s)
    (writeLocks s) (pendingWrites s) (isWriting s) (lastSuccessfulSave s)
    (stats s) (emitted s).
Definition with_chats (c : jsmap key loc) (s : store) : store :=
  Store (cfg s) (heap s) c (messages s) (contacts s) (groupMetadata s)
    (isProcessingHistory s) (syncStartTime s) (hasInitialData s) (backupData s)
    (writeLocks s) (pendingWrites s) (isWriting s) (lastSuccessfulSave s)
    (stats s) (emitted s).
Definition with_messages (m : jsmap string (jsmap string stored_message))
    (s : store) : store :=
  Store (cfg s) (heap s) (chats s) m (contacts s) (groupMetadata s)
    (isProcessingHistory s) (syncStartTime s) (hasInitialData s) (backupData s)
    (writeLocks s) (pendingWrites s) (isWriting s) (lastSuccessfulSave s)
    (stats s) (emitted s).
Definition with_contacts (c : jsmap string obj) (s : store) : store :=
  Store (cfg s) (heap s) (chats s) (messages s) c (groupMetadata s)
    (isProcessingHistory s) (syncStartTime s) (hasInitialData s) (backupData s)
    (writeLocks s) (pendingWrites s) (isWriting s) (lastSuccessfulSave s)
    (stats s) (emitted s).
Definition with_groupMetadata (g : jsmap key obj) (s : store) : store :=
  Store (cfg s) (heap s) (chats s) (messages s) (contacts s) g
    (isProcessingHistory s) (syncStartTime s) (hasInitialData s) (backupData s)
    (writeLocks s) (pendingWrites s) (isWriting s) (lastSuccessfulSave s)
    (stats s) (emitted s).
Definition with_sync (processing : bool) (start : option Z) (s : store) : store :=
  Store (cfg s) (heap s) (chats s) (messages s) (contacts s) (groupMetadata s)
    processing start (hasInitialData s) (backupData s)
    (writeLocks s) (pendingWrites s) (isWriting s) (lastSuccessfulSave s)
    (stats s) (emitted s).
Definition with_hasInitialData (b : bool) (s : store) : store :=
  Store (cfg s) (heap s) (chats s) (messages s) (contacts s) (groupMetadata s)
    (isProcessingHistory s) (syncStartTime s) b (backupData s)
    (writeLocks s) (pendingWrites s) (isWriting s) (lastSuccessfulSave s)
    (stats s) (emitted s).
Definition with_backupData (b : backup) (s : store) : store :=
  Store (cfg s) (heap s) (chats s) (messages s) (contacts s) (groupMetadata s)
    (isProcessingHistory s) (syncStartTime s) (hasInitialData s) b
    (writeLocks s) (pendingWrites s) (isWriting s) (lastSuccessfulSave s)
    (stats s) (emitted s).
Definition with_writeLocks (l : jsmap string bool) (s : store) : store :=
  Store (cfg s) (heap s) (chats s) (messages s) (contacts s) (groupMetadata s)
    (isProcessingHistory s) (syncStartTime s) (hasInitialData s) (backupData s)
    l (pendingWrites s) (isWriting s) (lastSuccessfulSave s)
    (stats s) (emitted s).
Definition with_pendingWrites (p : list string) (s : store) : store :=
  Store (cfg s) (heap s) (chats s) (messages s) (contacts s) (groupMetadata s)
    (isProcessingHistory s) (syncStartTime s) (hasInitialData s) (backupData s)
    (writeLocks s) p (isWriting s) (lastSuccessfulSave s)
    (stats s) (emitted s).
Definition with_isWriting (b : bool) (s : store) : store :=
  Store (cfg s) (heap s) (chats s) (messages s) (contacts s) (groupMetadata s)
    (isProcessingHistory s) (syncStartTime s) (hasInitialData s) (backupData s)
    (writeLocks s) (pendingWrites s) b (lastSuccessfulSave s)
    (stats s) (emitted s).
Definition with_lastSuccessfulSave (t : option Z) (s : store) : store :=
  Store (cfg s) (heap s) (chats s) (messages s) (contacts s) (groupMetadata s)
    (isProcessingHistory s) (syncStartTime s) (hasInitialData s) (backupData s)
    (writeLocks s) (pendingWrites s) (isWriting s) t
    (stats s) (emitted s).
Definition with_stats (m : metrics) (s : store) : store :=
  Store (cfg s) (heap s) (chats s) (messages s) (contacts s) (groupMetadata s)
    (isProcessingHistory s) (syncStartTime s) (hasInitialData s) (backupData s)
    (writeLocks s) (pendingWrites s) (isWriting s) (lastSuccessfulSave s)
    m (emitted s).
Definition emit (n : notification) (s : store) : store :=
  Store (cfg s) (heap s) (chats s) (messages s) (contacts s) (groupMetadata s)
    (isProcessingHistory s) (syncStartTime s) (hasInitialData s) (backupData s)
    (writeLocks s) (pendingWrites s) (isWriting s) (lastSuccessfulSave s)
    (stats s) (emitted s ++ [n])%list.

(** Reading a chat object through its reference. *)
Definition deref (h : list obj) (l : loc) : obj := default ∅ (h !! l).

(** The chats map as a reader sees it: ids with the objects they refer to. *)
Definition chat_entries (s : store) : jsmap key obj :=
  (λ e : key * loc, (e.1, deref (heap s) e.2)) <$> chats s.

(** The messages of one chat ([undefined] read as no messages). *)
Definition chat_messages (jid : string) (s : store) : jsmap string stored_message :=
  default [] (JsMap.get jid (messages s)).

(** ** The file system

    [files] maps a path to the bytes stored there.  [faults] is the fault
    plan: each file-system call consumes one entry, and an exhausted plan
    means no further fault.  A failing [writeFile] may leave a prefix of the
    data behind; every other call either takes effect or does nothing, and
    [rename] in particular is atomic.  [immediates] holds the
    [setImmediate(() => this.writeToFile(nextFile))] callbacks not yet run. *)

Inductive fault :=
  | Works
  | Fails (partial : option nat).

Record node := Node {
  files : gmap string string;
  faults : list fault;
  immediates : list string
}.

Definition with_files (f : gmap string string) (n : node) : node :=
  Node f (faults n) (immediates n).

Definition next_fault (n : node) : fault * node :=
  match faults n with
  | [] => (Works, n)
  | f :: rest => (f, Node (files n) rest (immediates n))
  end.

Definition setImmediate (file : string) (n : node) : node :=
  Node (files n) (faults n) (immediates n ++ [file])%list.

Definition fs_writeFile (path data : string) (n : node) : (error + unit) * node :=
  let '(f, n) := next_fault n in
  match f with
  | Works => (inr (), with_files (<[path := data]> (files n)) n)
  | Fails None => (inl (SystemError "open"), n)
  | Fails (Some written) =>
      (inl (SystemError "write"),
       with_files (<[path := String.substring 0 written data]> (files n)) n)
  end.

Definition fs_stat (path : string) (n : node) : (error + nat) * node :=
  let '(f, n) := next_fault n in
  match f, files n !! path with
  | Works, Some bytes => (inr (String.length bytes), n)
  | _, _ => (inl (SystemError "stat"), n)
  end.

Definition fs_rename (src dst : string) (n : node) : (error + unit) * node :=
  let '(f, n) := next_fault n in
  match f, files n !! src with
  | Works, Some bytes =>
      (inr (), with_files (<[dst := bytes]> (delete src (files n))) n)
  | _, _ => (inl (SystemError "rename"), n)
  end.

Definition fs_unlink (path : string) (n : node) : (error + unit) * node :=
  let '(f, n) := next_fault n in
  match f, files n !! path with
  | Works, Some _ => (inr (), with_files (delete path (files n)) n)
  | _, _ => (inl (SystemError "unlink"), n)
  end.

Definition fs_readFile (path : string) (n : node) : (error + string) * node :=
  let '(f, n) := next_fault n in
  match f, files n !! path with
  | Works, Some bytes => (inr bytes, n)
  | _, _ => (inl (SystemError "read"), n)
  end.

(** ** Snapshots *)

(** The document [serializeStoreData] builds. *)
Record snapshot := Snapshot {
  version : string;
  snapshot_timestamp : Z;
  snapshot_chats : list (key * obj);
  snapshot_messages : list (string * list (string * stored_message));
  snapshot_contacts : list (string * obj);
  snapshot_groupMetadata : list (key * obj);
  snapshot_stats : metrics
}.

Definition serializeStoreData (now : Z) (s : store) : snapshot :=
  {| version := "2.0";
     snapshot_timestamp := now;
     snapshot_chats := chat_entries s;
     snapshot_messages := messages s;
     snapshot_contacts := contacts s;
     snapshot_groupMetadata := groupMetadata s;
     snapshot_stats := stats s |}.

(** A parsed JSON document. *)
#[local] Unset Elimination Schemes.
Inductive json :=
  | JNull
  | JBool (b : bool)
  | JNum (n : Z)
  | JStr (s : string)
  | JArr (items : list json)
  | JObj (fields : list (string * json)).
#[local] Set Elimination Schemes.

(** [data.name] *)
Definition prop (data : json) (name : string) : option json :=
  match data with
  | JObj fields => JsMap.get name fields
  | _ => None
  end.

Definition json_truthy (data : json) : bool :=
  match data with
  | JNull | JBool false | JNum 0 | JStr "" => false
  | _ => true
  end.

(** [typeof x === 'object'] on a property read *)
Definition typeof_object (x : option json) : bool :=
  match x with
  | Some JNull | Some (JArr _) | Some (JObj _) => true
  | _ => false
  end.

Definition isArray (x : option json) : bool :=
  match x with
  | Some (JArr _) => true
  | _ => false
  end.

Definition validateStoreData (data : json) : bool :=
  json_truthy data
  && typeof_object (Some data)
  && (isArray (prop data "chats") || typeof_object (prop data "chats"))
  && typeof_object (prop data "messages")
  && typeof_object (prop data "contacts").

(** ** The write lock *)

(** [while (this.writeLocks.has(key)) await sleep(10); this.writeLocks.set(key, true)].
    [polls] bounds the number of sleeps; the result is [None] when the lock
    is still held after that many.  Nothing else runs while the caller
    sleeps here, so the lock table is the same at every poll. *)
Fixpoint acquireWriteLock (polls : nat) (k : string) (s : store) : option store :=
  if JsMap.has k (writeLocks s) then
    match polls with
    | 0 => None
    | S polls' => acquireWriteLock polls' k s
    end
  else Some (with_writeLocks (JsMap.set k true (writeLocks s)) s).

Definition releaseWriteLock (k : string) (s : store) : store :=
  with_writeLocks (JsMap.delete k (writeLocks s)) s.

(** ** Events and calls *)

(** The payload of [messaging-history.set], absent fields defaulted. *)
Record historyData := History {
  newChats : list obj;
  newContacts : list obj;
  newMessages : list WAMessage;
  isLatest : bool;
  syncType : Z;
  progress : Z
}.

(** A message insertion: a call of [addMessage] or of [processChatMessages],
    with the clock reading at the call. *)
Inductive insertion :=
  | AddMessage (now : Z) (jid : string) (message : WAMessage)
  | ProcessChatMessages (now : Z) (jid : string) (chatMessages : list WAMessage).

(** A mutation of the live store between a backup and its restoration. *)
Inductive mutation :=
  | UpsertChat (now : Z) (chat : obj)
  | UpdateChat (now : Z) (update : obj)
  | AddMessageTo (now : Z) (jid : string) (message : WAMessage)
  | UpsertContacts (now : Z) (contacts : list obj)
  | MergeHistory (now : Z) (h : historyData).

(** ** Store operations *)

(** [batch = list.slice(i, i + batchSize)] for [i = 0, batchSize, ...]: the
    chunks the bulk loops walk through.  [fuel] bounds the number of
    iterations; the loops run at most [length l] times. *)
Fixpoint slices {A} (fuel batch : nat) (l : list A) : list (list A) :=
  match fuel with
  | 0 => []
  | S fuel' =>
      match l with
      | [] => []
      | _ => take batch l :: slices fuel' batch (drop batch l)
      end
  end.

(** [batchSize = Math.min(limit, list.length)] *)
Definition in_batches {A} (limit : nat) (l : list A) : list (list A) :=
  slices (length l) (Nat.min limit (length l)) l.

(** [Array.prototype.slice(start, end)]: a negative index counts from the
    end of the array, and both are clamped to its bounds. *)
Definition js_slice {A} (start stop : Z) (l : list A) : list A :=
  let len := Z.of_nat (length l) in
  let k := if (start <? 0)%Z then Z.max (len + start) 0 else Z.min start len in
  let final := if (stop <? 0)%Z then Z.max (len + stop) 0 else Z.min stop len in
  take (Z.to_nat (final - k)) (drop (Z.to_nat k) l).

(** The [options] argument of [loadMessages]: every option may be absent. *)
Record loadOptions := LoadOptions {
  opt_limit : option Z;
  opt_offset : option Z;
  opt_before : option Z;
  opt_after : option Z;
  opt_sortOrder : option string
}.

Section concurrent_store.

(** [jidNormalizedUser] of the transport library, applied to whatever the
    [id] property holds. *)
Variable jidNormalizedUser : key → string.

(** [ToNumber(s) > 0] and [String(n)] of the language. *)
Variable string_gt_zero : string → bool.
Variable number_to_string : Z → string.

(** [JSON.stringify(data, null, 2)] and [JSON.parse(raw)] ([None]: a
    [SyntaxError]); [blank raw] is [!raw.trim()]. *)
Variable JSON_stringify : snapshot → string.
Variable JSON_parse : string → option json.
Variable blank : string → bool.

(** [loadStoreData] reads the untyped document into the maps; it may throw
    part-way.  Its result is the store it leaves behind and the error it
    threw, if any. *)
Variable loadStoreData : json → store → store * option error.

(** [v > 0] *)
Definition gt_zero (v : key) : bool :=
  match v with
  | None | Some VNull => false
  | Some (VBool b) => b
  | Some (VNum n) => (0 <? n)%Z
  | Some (VStr s) => string_gt_zero s
  end.

Definition to_string (v : val) : string :=
  match v with
  | VNull => "null"
  | VBool true => "true"
  | VBool false => "false"
  | VNum n => number_to_string n
  | VStr s => s
  end.

(** [a + b]: numeric addition unless one operand is a string. *)
Definition js_add (a b : val) : val :=
  match a, b with
  | VStr _, _ | _, VStr _ => VStr (to_string a ++ to_string b)%string
  | _, _ =>
      let num v := match v with
                   | VNum n => n
                   | VBool true => 1%Z
                   | _ => 0%Z
                   end in
      VNum (num a + num b)
  end.

Definition jid_of (s : string) : string := jidNormalizedUser (Some (VStr s)).

(** *** Derived counters *)

Definition hasValidData (s : store) : bool :=
  (0 <? JsMap.size (chats s))%nat || (0 <? JsMap.size (messages s))%nat
  || (0 <? JsMap.size (contacts s))%nat.

Definition updateStats (s : store) : store :=
  with_stats
    {| totalChats := Z.of_nat (JsMap.size (chats s));
       totalContacts := Z.of_nat (JsMap.size (contacts s));
       totalMessages :=
         foldl (λ total chatMsgs, (total + Z.of_nat (JsMap.size chatMsgs))%Z)
               0%Z (JsMap.values (messages s));
       lastSave := lastSave (stats s);
       operations := operations (stats s) |} s.

(** *** Messages *)

(** The in-place update of the message map of [jid], which exists. *)
Definition set_chat_messages (jid : string)
    (m : jsmap string stored_message) (s : store) : store :=
  with_messages (JsMap.set jid m (messages s)) s.

(** [if (!this.messages.has(jid)) this.messages.set(jid, new Map())] *)
Definition ensure_chat (jid : string) (s : store) : store :=
  if JsMap.has jid (messages s) then s
  else with_messages (JsMap.set jid [] (messages s)) s.

Definition addMessage (now : Z) (jid : string) (message : WAMessage)
    (s : store) : store :=
  if fromMe message && historySyncNotification message then s
  else
    let normalizedJid := jid_of jid in
    let s := ensure_chat normalizedJid s in
    let chatMessages := chat_messages normalizedJid s in
    let chatMessages :=
      JsMap.set (key_id (msg_key message)) (Stored message now true)
                chatMessages in
    let chatMessages :=
      applyLimit (maxMessagesPerChat (cfg s)) chatMessages in
    let s := set_chat_messages normalizedJid chatMessages s in
    let s :=
      with_stats
        {| totalMessages := (totalMessages (stats s) + 1)%Z;
           totalChats := totalChats (stats s);
           totalContacts := totalContacts (stats s);
           lastSave := lastSave (stats s);
           operations := (operations (stats s) + 1)%Z |} s in
    if isProcessingHistory s then s
    else emit (store_message_added normalizedJid message) s.

(** The insertion loop of [processChatMessages]: ids already present are
    left alone. *)
Definition insert_new (now : Z) (existingMessages : jsmap string stored_message)
    (msg : WAMessage) : jsmap string stored_message :=
  if JsMap.has (key_id (msg_key msg)) existingMessages then existingMessages
  else JsMap.set (key_id (msg_key msg)) (Stored msg now true) existingMessages.

Definition processChatMessages (now : Z) (jid : string)
    (chatMessages : list WAMessage) (s : store) : store :=
  let s := ensure_chat jid s in
  let existingMessages := chat_messages jid s in
  let existingMessages := foldl (insert_new now) existingMessages chatMessages in
  let existingMessages :=
    applyLimit (maxMessagesPerChat (cfg s)) existingMessages in
  set_chat_messages jid existingMessages s.

(** The grouping loop of [processMessagesOptimized]. *)
Definition group_by_chat (newMessages : list WAMessage)
  : jsmap string (list WAMessage) :=
  foldl (λ messagesByChat msg,
           let jid := jid_of (remoteJid (msg_key msg)) in
           let messagesByChat :=
             if JsMap.has jid messagesByChat then messagesByChat
             else JsMap.set jid [] messagesByChat in
           JsMap.set jid (default [] (JsMap.get jid messagesByChat) ++ [msg])%list
                     messagesByChat)
        [] newMessages.

Definition processMessagesOptimized (now : Z) (newMessages : list WAMessage)
    (s : store) : store :=
  foldl (λ s e, processChatMessages now e.1 e.2 s) s
        (group_by_chat newMessages).

(** *** Chats *)

(** [this.chats.set(id, {...})] with a fresh object. *)
Definition new_chat (id : key) (o : obj) (s : store) : store :=
  with_chats (JsMap.set id (length (heap s)) (chats s))
             (with_heap (heap s ++ [o])%list s).

(** [Object.assign(existing, o)] on the object behind a reference. *)
Definition assign (l : loc) (o : obj) (s : store) : store :=
  with_heap (<[l := spread (deref (heap s) l) o]> (heap s)) s.

(** The body of the inner loop of [processChatsOptimized]. *)
Definition add_chat (now : Z) (s : store) (chat : obj) : store :=
  if JsMap.has (chat !! "id") (chats s) then s
  else new_chat (chat !! "id") (<["syncedAt" := VNum now]> chat) s.

Definition processChatsOptimized (now : Z) (newChats : list obj)
    (s : store) : store :=
  foldl (λ s batch, foldl (add_chat now) s batch) s (in_batches 1000 newChats).

Definition upsertChat (now : Z) (chat : obj) (s : store) : store :=
  let s :=
    match JsMap.get (chat !! "id") (chats s) with
    | Some existing =>
        assign existing (<["lastUpdated" := VNum now]> chat) s
    | None =>
        let s := new_chat (chat !! "id")
                   (<["lastUpdated" := VNum now]>
                      (<["createdAt" := VNum now]> chat)) s in
        with_stats
          {| totalMessages := totalMessages (stats s);
             totalChats := (totalChats (stats s) + 1)%Z;
             totalContacts := totalContacts (stats s);
             lastSave := lastSave (stats s);
             operations := operations (stats s) |} s
    end in
  if isProcessingHistory s then s else emit (store_chat_upserted chat) s.

(** [if (update.unreadCount > 0)
       update.unreadCount = (existing.unreadCount || 0) + update.unreadCount] *)
Definition add_unread (existing update : obj) : obj :=
  match update !! "unreadCount" with
  | Some n =>
      if gt_zero (Some n)
      then <["unreadCount" := js_add (or_zero (existing !! "unreadCount")) n]> update
      else update
  | None => update
  end.

Definition updateChat (now : Z) (update : obj) (s : store) : store :=
  match JsMap.get (update !! "id") (chats s) with
  | Some existing =>
      let update := add_unread (deref (heap s) existing) update in
      let s := assign existing (<["lastUpdated" := VNum now]> update) s in
      emit (store_chat_updated update) s
  | None => s
  end.

(** *** Contacts and group metadata *)

(** The body of the inner loop of [processContactsOptimized]. *)
Definition add_contact (now : Z) (s : store) (contact : obj) : store :=
  let jid := jidNormalizedUser (contact !! "id") in
  with_contacts
    (JsMap.set jid (<["lastUpdated" := VNum now]> contact) (contacts s)) s.

Definition processContactsOptimized (now : Z) (newContacts : list obj)
    (s : store) : store :=
  foldl (λ s batch, foldl (add_contact now) s batch) s
        (in_batches 2000 newContacts).

Definition processContactsUpsert (now : Z) (newContacts : list obj)
    (s : store) : store :=
  foldl (λ s contact,
           let jid := jidNormalizedUser (contact !! "id") in
           let existing := JsMap.get jid (contacts s) in
           with_contacts
             (JsMap.set jid
                (<["lastUpdated" := VNum now]>
                   (spread (default ∅ existing) contact))
                (contacts s)) s)
        s newContacts.

Definition updateGroupMetadata (now : Z) (update : obj) (s : store) : store :=
  let existing := JsMap.get (update !! "id") (groupMetadata s) in
  let s :=
    with_groupMetadata
      (JsMap.set (update !! "id")
         (<["lastUpdated" := VNum now]> (spread (default ∅ existing) update))
         (groupMetadata s)) s in
  if isProcessingHistory s then s else emit (store_group_updated update) s.

(** [toNumber] of the transport library on a number: [t || 0]. *)
Definition toNumber (t : option Z) : Z := default 0%Z t.

(** [processBatch]: every [addMessage] runs to completion when the batch is
    mapped; the continuations after [await this.addMessage] run afterwards,
    in order. *)
Definition processBatch (now : Z) (batch : list (string * WAMessage))
    (type : string) (s : store) : store :=
  let s := foldl (λ s e, addMessage now e.1 e.2 s) s batch in
  foldl (λ s e,
           if bool_decide (type = "notify")
              && negb (JsMap.has (Some (VStr e.1)) (chats s))
           then upsertChat now
                  {[ "id" := VStr e.1;
                     "conversationTimestamp" :=
                       VNum (toNumber (messageTimestamp e.2));
                     "unreadCount" := VNum 1 ]} s
           else s)
        s batch.

(** *** The in-memory backup *)

Definition hasBackupData (s : store) : bool :=
  (0 <? JsMap.size (backup_chats (backupData s)))%nat
  || (0 <? JsMap.size (backup_messages (backupData s)))%nat
  || (0 <? JsMap.size (backup_contacts (backupData s)))%nat.

(** The in-memory part of [createBackup]. [new Map(this.chats)] copies the
    entries of the map: the copy refers to the same chat objects. *)
Definition backup_in_memory (s : store) : store :=
  with_backupData
    {| backup_chats := JsMap.of_entries (chats s);
       backup_messages :=
         foldl (λ b e, JsMap.set e.1 (JsMap.of_entries e.2) b) [] (messages s);
       backup_contacts := JsMap.of_entries (contacts s);
       backup_groupMetadata := JsMap.of_entries (groupMetadata s) |} s.

Definition restoreFromBackup (s : store) : store :=
  if negb (preserveDataDuringSync (cfg s)) || negb (hasBackupData s) then s
  else
    let s := with_chats (JsMap.of_entries (backup_chats (backupData s))) s in
    let s := with_contacts (JsMap.of_entries (backup_contacts (backupData s))) s in
    let s := with_groupMetadata
               (JsMap.of_entries (backup_groupMetadata (backupData s))) s in
    let s := with_messages [] s in
    let s := foldl (λ s e,
                      with_messages
                        (JsMap.set e.1 (JsMap.of_entries e.2) (messages s)) s)
                   s (backup_messages (backupData s)) in
    updateStats s.

Definition clearBackup (s : store) : store :=
  with_backupData (Backup [] [] [] []) s.

(** *** Persistence *)

Definition tempFile (now : Z) (file : string) : string :=
  (file ++ ".tmp." ++ number_to_string now)%string.

Definition backupFile (file : string) : string := (file ++ ".backup")%string.

(** The [try] block of [writeToFileInternal]. *)
Definition write_verify_rename (now : Z) (file : string) (data : snapshot)
    (n : node) : (error + unit) * node :=
  let '(r, n) := fs_writeFile (tempFile now file) (JSON_stringify data) n in
  match r with
  | inl e => (inl e, n)
  | inr _ =>
      let '(r, n) := fs_stat (tempFile now file) n in
      match r with
      | inl e => (inl e, n)
      | inr size =>
          if (size <? 10)%nat
          then (inl (Error "Generated file is too small, likely empty"), n)
          else fs_rename (tempFile now file) file n
      end
  end.

Definition writeToFileInternal (now : Z) (file : string) (data : snapshot)
    (n : node) : (error + unit) * node :=
  let '(r, n) := write_verify_rename now file data n in
  match r with
  | inr _ => (inr (), n)
  | inl e =>
      let '(_, n) := fs_unlink (tempFile now file) n in
      (inl e, n)
  end.

Definition createBackup (now : Z) (sn : store * node) : store * node :=
  let '(s, n) := sn in
  if negb (preserveDataDuringSync (cfg s)) then (s, n)
  else
    let s := backup_in_memory s in
    if backupBeforeSync (cfg s) then
      let '(_, n) :=
        writeToFileInternal now (backupFile (storeFile (cfg s)))
                            (serializeStoreData now s) n in
      (s, n)
    else (s, n).

(** *** The write serializer *)

Inductive admission := Queued | Skipped | Issued.

(** [this.pendingWrites.add(file)] on a [Set]. *)
Definition set_add (file : string) (pending : list string) : list string :=
  if bool_decide (file ∈ pending) then pending else (pending ++ [file])%list.

(** [writeToFile] up to and including [this.isWriting = true]. *)
Definition writeToFile_enter (file : string) (s : store) : admission * store :=
  if isWriting s
  then (Queued, with_pendingWrites (set_add file (pendingWrites s)) s)
  else if negb (hasValidData s) then (Skipped, s)
  else (Issued, with_isWriting true s).

(** The rest of the [try] block with its [catch]. *)
Definition writeToFile_body (polls : nat) (now : Z) (file : string)
    (sn : store * node) : option (store * node) :=
  let '(s, n) := sn in
  match acquireWriteLock polls "file" s with
  | None => None
  | Some s =>
      let data := serializeStoreData now s in
      let '(r, n) := writeToFileInternal now file data n in
      match r with
      | inr _ =>
          let s :=
            with_stats
              {| totalMessages := totalMessages (stats s);
                 totalChats := totalChats (stats s);
                 totalContacts := totalContacts (stats s);
                 lastSave := Some now;
                 operations := operations (stats s) |} s in
          let s := with_lastSuccessfulSave (Some now) s in
          Some (emit (store_saved file) s, n)
      | inl e => Some (emit (store_error e) s, n)
      end
  end.

(** The [finally] block. *)
Definition writeToFile_finally (sn : store * node) : store * node :=
  let '(s, n) := sn in
  let s := with_isWriting false s in
  let s := releaseWriteLock "file" s in
  match pendingWrites s with
  | [] => (s, n)
  | nextFile :: rest => (with_pendingWrites rest s, setImmediate nextFile n)
  end.

(** A call of [writeToFile] that is not interleaved with anything else. *)
Definition writeToFile (polls : nat) (now : Z) (file : string)
    (sn : store * node) : option (store * node) :=
  let '(s, n) := sn in
  match writeToFile_enter file s with
  | (Issued, s) =>
      match writeToFile_body polls now file (s, n) with
      | Some sn => Some (writeToFile_finally sn)
      | None => None
      end
  | (_, s) => Some (s, n)
  end.

(** *** Loading *)

(** [calls] bounds the nesting of [readFromFile] inside itself. *)
Fixpoint readFromFile (calls polls : nat) (now : Z) (file : string)
    (sn : store * node) : option (store * node) :=
  match calls with
  | 0 => None
  | S calls' =>
      let '(s, n) := sn in
      match acquireWriteLock polls "file" s with
      | None => None
      | Some s =>
          let finally (sn : store * node) :=
            Some (releaseWriteLock "file" sn.1, sn.2) in
          let '(fileStats, n) := fs_stat file n in
          match fileStats with
          | inl _ => finally (s, n)
          | inr size =>
              if (size <? 10)%nat then
                let '(backupStats, n) := fs_stat (backupFile file) n in
                match backupStats with
                | inr backupSize =>
                    if (10 <? backupSize)%nat then
                      match readFromFile calls' polls now (backupFile file) (s, n) with
                      | Some sn => finally sn
                      | None => None
                      end
                    else finally (s, n)
                | inl _ => finally (s, n)
                end
              else
                let '(raw, n) := fs_readFile file n in
                match raw with
                | inl e => finally (emit (store_error e) s, n)
                | inr raw =>
                    if blank raw then finally (s, n)
                    else
                      match JSON_parse raw with
                      | None => finally (emit (store_error SyntaxError) s, n)
                      | Some data =>
                          if negb (validateStoreData data)
                          then finally
                                 (emit (store_error
                                          (Error "Invalid store data structure")) s, n)
                          else
                            match loadStoreData data s with
                            | (s, Some e) => finally (emit (store_error e) s, n)
                            | (s, None) =>
                                let s :=
                                  with_stats
                                    {| totalMessages := totalMessages (stats s);
                                       totalChats := totalChats (stats s);
                                       totalContacts := totalContacts (stats s);
                                       lastSave := Some now;
                                       operations := operations (stats s) |} s in
                                let s := with_hasInitialData true s in
                                finally (emit (store_loaded file size) s, n)
                            end
                      end
                end
          end
      end
  end.


(** *** The sync controller *)

Definition finalizeSyncProcess (polls : nat) (now : Z) (sn : store * node)
  : option (store * node) :=
  let '(s, n) := sn in
  let finally (sn : store * node) := Some (with_sync false None sn.1, sn.2) in
  if hasValidData s then
    match writeToFile polls now (storeFile (cfg s)) (s, n) with
    | Some (s, n) => finally (clearBackup s, n)
    | None => None
    end
  else if hasBackupData s then
    let s := restoreFromBackup s in
    match writeToFile polls now (storeFile (cfg s)) (s, n) with
    | Some (s, n) => finally (clearBackup s, n)
    | None => None
    end
  else finally (clearBackup s, n).

(** The [if (!this.isProcessingHistory)] block. *)
Definition mark_sync_start (now : Z) (sn : store * node) : store * node :=
  let '(s, n) := sn in
  if isProcessingHistory s then (s, n)
  else
    let s := with_sync true (Some now) s in
    let s := with_hasInitialData (hasValidData s) s in
    if hasInitialData s then createBackup now (s, n) else (s, n).

(** The clearing decision and the three bulk loops.  The loops work on
    different maps, so the order in which they take turns does not show. *)
Definition merge_history (now : Z) (h : historyData) (s : store) : store :=
  let s :=
    if isLatest h
       && ((10 <? length (newChats h))%nat || (100 <? length (newMessages h))%nat)
    then with_messages [] (with_chats [] s)
    else s in
  let s :=
    if (0 <? length (newChats h))%nat
    then processChatsOptimized now (newChats h) s else s in
  let s :=
    if (0 <? length (newContacts h))%nat
    then processContactsOptimized now (newContacts h) s else s in
  let s :=
    if (0 <? length (newMessages h))%nat
    then processMessagesOptimized now (newMessages h) s else s in
  updateStats s.

(** [processHistorySet]. [now] is the clock when the batch arrives and
    [finished] the clock once it is merged; [listener_error] is the
    exception a subscriber of [store.history-processed] throws, if one does:
    [emit] runs subscribers synchronously, inside the [try]. *)
Definition processHistorySet (polls : nat) (now finished : Z)
    (listener_error : option error) (h : historyData) (sn : store * node)
  : option (store * node) :=
  if bool_decide (syncType h = 6%Z) then Some sn
  else
    let '(s, n) := mark_sync_start now sn in
    let s := merge_history now h s in
    let processingTime := (finished - default 0 (syncStartTime s))%Z in
    let saved :=
      if incrementalSave (cfg s) && hasValidData s && (5000 <? processingTime)%Z
      then writeToFile polls finished (storeFile (cfg s)) (s, n)
      else Some (s, n) in
    match saved with
    | None => None
    | Some (s, n) =>
        let s :=
          emit (store_history_processed
                  (length (newChats h)) (length (newContacts h))
                  (length (newMessages h)) processingTime
                  (isLatest h) (syncType h) (progress h)) s in
        let s :=
          match listener_error with
          | Some e =>
              let s := if hasInitialData s then restoreFromBackup s else s in
              emit (store_error e) s
          | None => s
          end in
        if isLatest h || (100 <=? progress h)%Z
        then finalizeSyncProcess polls finished (s, n)
        else Some (s, n)
    end.

(** *** The event binder *)

Inductive event :=
  | messages_upsert (batch : list WAMessage) (type : string)
  | messaging_history_set (h : historyData) (finished : Z)
      (listener_error : option error)
  | chats_upsert (chats : list obj)
  | chats_update (updates : list obj)
  | chats_set (chats : list obj)
  | chats_delete (deletions : list key)
  | contacts_upsert (contacts : list obj)
  | groups_update (updates : list obj).

(** [this.messages.delete(chatId)]: the keys of the messages map are
    strings. *)
Definition delete_messages_of (chatId : key)
    (m : jsmap string (jsmap string stored_message)) :=
  match chatId with
  | Some (VStr jid) => JsMap.delete jid m
  | _ => m
  end.

(** The handlers [bind] subscribes, one per event. *)
Definition handle (polls : nat) (now : Z) (ev : event) (sn : store * node)
  : option (store * node) :=
  let '(s, n) := sn in
  match ev with
  | messages_upsert batch type =>
      if isProcessingHistory s && (100 <? length batch)%nat then Some (s, n)
      else
        Some (processBatch now
                ((λ msg, (jid_of (remoteJid (msg_key msg)), msg)) <$> batch)
                type s, n)
  | messaging_history_set h finished listener_error =>
      processHistorySet polls now finished listener_error h (s, n)
  | chats_upsert chats =>
      if isProcessingHistory s then Some (s, n)
      else Some (foldl (λ s chat, upsertChat now chat s) s chats, n)
  | chats_update updates =>
      Some (foldl (λ s update, updateChat now update s) s updates, n)
  | chats_set chats =>
      Some (foldl (λ s chat, upsertChat now chat s) s chats, n)
  | chats_delete deletions =>
      let s :=
        foldl (λ s chatId,
                 with_messages (delete_messages_of chatId (messages s))
                               (with_chats (JsMap.delete chatId (chats s)) s))
              s deletions in
      Some (updateStats s, n)
  | contacts_upsert contacts => Some (processContactsUpsert now contacts s, n)
  | groups_update updates =>
      Some (foldl (λ s update, updateGroupMetadata now update s) s updates, n)
  end.

(** *** Auto-save *)

(** [smartAutoSave], the callback of the auto-save timer. *)
Definition smartAutoSave (polls : nat) (now : Z) (sn : store * node)
  : option (store * node) :=
  let '(s, n) := sn in
  if isProcessingHistory s
     && match syncStartTime s with
        | Some start => negb (start =? 0)%Z && (now - start <? 30000)%Z
        | None => false
        end
  then Some (s, n)
  else if hasValidData s then writeToFile polls now (storeFile (cfg s)) (s, n)
  else Some (s, n).

(** *** Queries *)

(** [(a, b) => (b.messageTimestamp || 0) - (a.messageTimestamp || 0)] *)
Definition newest_first (a b : stored_message) : Z :=
  (timestamp_or_zero b - timestamp_or_zero a)%Z.

Definition oldest_first (a b : stored_message) : Z :=
  (timestamp_or_zero a - timestamp_or_zero b)%Z.

Definition getLastMessage (jid : string) (s : store) : option stored_message :=
  let normalizedJid := jid_of jid in
  match JsMap.get normalizedJid (messages s) with
  | None => None
  | Some chatMessages =>
      if (JsMap.size chatMessages =? 0)%nat then None
      else head (js_sort newest_first (JsMap.values chatMessages))
  end.

(** [if (bound) msgsArray = msgsArray.filter(keep)]: a bound of 0 is falsy
    and filters nothing. *)
Definition filter_if (bound : option Z) (keep : Z → stored_message → bool)
    (msgsArray : list stored_message) : list stored_message :=
  match bound with
  | Some b =>
      if (b =? 0)%Z then msgsArray else filter (λ msg, keep b msg = true) msgsArray
  | None => msgsArray
  end.

(** [loadMessages(jid, messageId, options)]; an absent or empty [messageId]
    is falsy. *)
Definition loadMessages (jid : string) (messageId : option string)
    (o : loadOptions) (s : store) : list stored_message :=
  let limit := default 50%Z (opt_limit o) in
  let offset := default 0%Z (opt_offset o) in
  let sortOrder := default "desc" (opt_sortOrder o) in
  let normalizedJid := jid_of jid in
  match JsMap.get normalizedJid (messages s) with
  | None => []
  | Some chatMessages =>
      let listing :=
        let msgsArray := JsMap.values chatMessages in
        let msgsArray :=
          filter_if (opt_before o)
            (λ before msg, (timestamp_or_zero msg <? before)%Z) msgsArray in
        let msgsArray :=
          filter_if (opt_after o)
            (λ after msg, (after <? timestamp_or_zero msg)%Z) msgsArray in
        let msgsArray :=
          js_sort (if bool_decide (sortOrder = "desc")
                   then newest_first else oldest_first) msgsArray in
        js_slice offset (offset + limit) msgsArray in
      match messageId with
      | Some id =>
          if bool_decide (id = "") then listing
          else match JsMap.get id chatMessages with
               | Some message => [message]
               | None => []
               end
      | None => listing
      end
  end.

(** *** Sequences of calls *)

Definition insert (op : insertion) (s : store) : store :=
  match op with
  | AddMessage now jid message => addMessage now jid message s
  | ProcessChatMessages now jid chatMessages =>
      processChatMessages now jid chatMessages s
  end.

Definition run (ops : list insertion) (s : store) : store :=
  foldl (λ s op, insert op s) s ops.

(** The chat an insertion goes to. *)
Definition chat_of (op : insertion) : string :=
  match op with
  | AddMessage _ jid _ => jid_of jid
  | ProcessChatMessages _ jid _ => jid
  end.

(** [addMessage] returns early on the history-sync protocol message. *)
Definition ignored (op : insertion) : bool :=
  match op with
  | AddMessage _ _ message => fromMe message && historySyncNotification message
  | ProcessChatMessages _ _ _ => false
  end.

(** The entries of the chat once the insertion has written its messages and
    before the cap is enforced. *)
Definition written (op : insertion) (chatMessages : jsmap string stored_message)
  : jsmap string stored_message :=
  match op with
  | AddMessage now _ message =>
      JsMap.set (key_id (msg_key message)) (Stored message now true) chatMessages
  | ProcessChatMessages now _ msgs => foldl (insert_new now) chatMessages msgs
  end.

(** The entries an insertion brings. *)
Definition entries_of (op : insertion) : jsmap string stored_message :=
  match op with
  | AddMessage now _ message =>
      [(key_id (msg_key message), Stored message now true)]
  | ProcessChatMessages now _ msgs =>
      (λ msg, (key_id (msg_key msg), Stored msg now true)) <$> msgs
  end.

(** Every entry a sequence of insertions brings to a chat, in the order of
    arrival. *)
Definition ever_written (ops : list insertion) (jid : string)
  : jsmap string stored_message :=
  ops ≫= λ op,
    if decide (chat_of op = jid)
    then if ignored op then [] else entries_of op
    else [].

(** The chats a batch of messages goes to. *)
Definition jids_of (l : list WAMessage) : list string :=
  (λ msg, jid_of (remoteJid (msg_key msg))) <$> l.

(** [msg] is the first message of the batch [l] that goes to the chat [jid]
    under the id [k]. *)
Definition first_for (jid k : string) (l : list WAMessage) (msg : WAMessage)
  : Prop :=
  ∃ l1 l2,
    l = l1 ++ msg :: l2
    ∧ jid_of (remoteJid (msg_key msg)) = jid
    ∧ key_id (msg_key msg) = k
    ∧ Forall (λ other,
                jid_of (remoteJid (msg_key other)) = jid →
                key_id (msg_key other) ≠ k) l1.

(** The clearing decision of [processHistorySet], and its effect. *)
Definition clears (h : historyData) : bool :=
  isLatest h
  && ((10 <? length (newChats h)) || (100 <? length (newMessages h))).

Definition cleared (h : historyData) (s : store) : store :=
  if clears h then with_messages [] (with_chats [] s) else s.

Definition mutate (m : mutation) (s : store) : store :=
  match m with
  | UpsertChat now chat => upsertChat now chat s
  | UpdateChat now update => updateChat now update s
  | AddMessageTo now jid message => addMessage now jid message s
  | UpsertContacts now contacts => processContactsUpsert now contacts s
  | MergeHistory now h => merge_history now h s
  end.

End concurrent_store.

(** ** Loading a document

    [loadStoreData] takes whatever [JSON.parse] gave and looks at its shape;
    the embedding gives it the parts it reads, typed. *)

(** The index a property name stands for, if it is an array index: the
    canonical numeral of an integer below 2^32 - 1. *)
Definition array_index (name : string) : option N :=
  match NilZero.uint_of_string name with
  | Some d =>
      let i := N.of_uint d in
      if bool_decide (NilZero.string_of_uint (N.to_uint i) = name)
         && (i <? 4294967295)%N
      then Some i else None
  | None => None
  end.

(** [Object.entries(o)] of an object whose properties were created in the
    order [fields]: array indices first, ascending, then the other names in
    the order of creation. *)
Definition Object_entries {V} (fields : list (string * V)) : list (string * V) :=
  (js_sort (λ a b : N * (string * V), Z.of_N a.1 - Z.of_N b.1)%Z
           (omap (λ e, (λ i, (i, e)) <$> array_index e.1) fields)).*2
  ++ filter (λ e, array_index e.1 = None) fields.

(** The parts of a parsed document that [loadStoreData] reads, by the shape
    it finds them in.
    - [doc_chats]: the pairs of [data.chats] when it is an array;
    - [doc_messages]: the properties of [data.messages || {}], each an array
      of pairs;
    - [doc_contacts]: the pairs of [data.contacts] when it is an array
      ([inl]), the properties of [data.contacts || {}] otherwise ([inr]);
    - [doc_groupMetadata]: the pairs of [data.groupMetadata] when it is
      truthy. *)
Record document := Document {
  doc_chats : option (list (key * obj));
  doc_messages : list (string * list (string * stored_message));
  doc_contacts : list (string * obj) + list (string * obj);
  doc_groupMetadata : option (list (key * obj))
}.

Definition loadStoreData (data : document) (s : store) : store :=
  let s :=
    match doc_chats data with
    | Some pairs => foldl (λ s e, new_chat e.1 e.2 s) s pairs
    | None => s
    end in
  let s :=
    foldl (λ s e,
             with_messages (JsMap.set e.1 (JsMap.of_entries e.2) (messages s)) s)
          s (Object_entries (doc_messages data)) in
  let load_contacts pairs s :=
    foldl (λ s e, with_contacts (JsMap.set e.1 e.2 (contacts s)) s) s pairs in
  let s :=
    match doc_contacts data with
    | inl pairs => load_contacts pairs s
    | inr fields => load_contacts (Object_entries fields) s
    end in
  let s :=
    match doc_groupMetadata data with
    | Some pairs =>
        foldl (λ s e, with_groupMetadata (JsMap.set e.1 e.2 (groupMetadata s)) s)
              s pairs
    | None => s
    end in
  updateStats s.

(** The document a snapshot is when it is read back as it was built. *)
Definition document_of (d : snapshot) : document :=
  {| doc_chats := Some (snapshot_chats d);
     doc_messages := snapshot_messages d;
     doc_contacts := inl (snapshot_contacts d);
     doc_groupMetadata := Some (snapshot_groupMetadata d) |}.

(** ** Interleaved writes

    [writeToFile] suspends while it holds [isWriting], so calls interleave.
    A [system] is the store, the runtime, and the calls of [writeToFile] that
    are past [this.isWriting = true] and have not reached [finally]. *)

Record system := System {
  object : store;
  runtime : node;
  in_flight : list string
}.

Definition admitted (a : admission) (file : string) (fl : list string)
  : list string :=
  match a with
  | Issued => fl ++ [file]
  | _ => fl
  end.

Inductive step : system → system → Prop :=
  (* someone calls [writeToFile(file)] *)
  | step_call file s n fl a s' :
      writeToFile_enter file s = (a, s') →
      step (System s n fl) (System s' n (admitted a file fl))
  (* the event loop runs a [setImmediate] callback *)
  | step_immediate file rest s n fl a s' :
      immediates n = file :: rest →
      writeToFile_enter file s = (a, s') →
      step (System s n fl)
           (System s' (Node (files n) (faults n) rest) (admitted a file fl))
  (* a write in flight reaches its [finally] *)
  | step_settle file earlier later s n s' n' :
      writeToFile_finally (s, n) = (s', n') →
      step (System s n (earlier ++ file :: later))
           (System s' n' (earlier ++ later))
  (* anything else: the body of a write, another method, the file system;
     only [writeToFile] touches [isWriting], [pendingWrites] and its
     callbacks *)
  | step_other s n fl s' n' :
      isWriting s' = isWriting s →
      pendingWrites s' = pendingWrites s →
      immediates n' = immediates n →
      step (System s n fl) (System s' n' fl).

Inductive reachable : system → Prop :=
  | reachable_new c fs plan :
      reachable (System (new_store c) (Node fs plan []) [])
  | reachable_step sys sys' :
      reachable sys → step sys sys' → reachable sys'.

(** ** Predicates of the statements *)

(** [older m e r]: the eviction order on the entries of the map [m].  [e] is
    evicted before [r] when its [messageTimestamp] is smaller, or equal with
    [e] inserted into [m] before [r]. *)
Definition older (m : jsmap string stored_message)
    (e r : string * stored_message) : Prop :=
  (entry_timestamp e < entry_timestamp r)%Z
  ∨ (entry_timestamp e = entry_timestamp r ∧ [e; r] `sublist_of` m).

(** Every message map of the store has unique keys. *)
Definition messages_wf (s : store) : Prop :=
  JsMap.wf (messages s) ∧ ∀ jid, JsMap.wf (chat_messages jid s).

(** Every map of the store has unique keys. *)
Definition maps_wf (s : store) : Prop :=
  JsMap.wf (chats s) ∧ JsMap.wf (messages s)
  ∧ (∀ jid m, (jid, m) ∈ messages s → JsMap.wf m)
  ∧ JsMap.wf (contacts s) ∧ JsMap.wf (groupMetadata s).

(** No chat holds more messages than the cap. *)
Definition capped (s : store) : Prop :=
  ∀ jid, (Z.of_nat (JsMap.size (chat_messages jid s)) ≤ maxMessagesPerChat (cfg s))%Z.

(** What the cap leaves of a chat when it evicts [v]: the chat holds as many
    messages as the cap allows, none of them older than [v]. *)
Definition evicted_at (cap : Z) (v : stored_message)
    (m : jsmap string stored_message) : Prop :=
  Z.of_nat (JsMap.size m) = Z.max 0 cap
  ∧ ∀ r, r ∈ m → (timestamp_or_zero v ≤ timestamp_or_zero r.2)%Z.

(** The history batch is marked latest and carries more than 10 chats or
    more than 100 messages. *)
Definition large_latest (h : historyData) : Prop :=
  isLatest h = true
  ∧ (10 < length (newChats h) ∨ 100 < length (newMessages h)).

(** The part of the store that readers see and snapshots save. *)
Definition data (s : store) :=
  (heap s, chats s, messages s, contacts s, groupMetadata s).

(** What the sync controller and the serializer steer by; the operations on
    chats, contacts and messages leave it alone. *)
Definition control (s : store) :=
  (cfg s, backupData s, writeLocks s, isProcessingHistory s).

(** Nobody holds the file lock. *)
Definition lock_free (s : store) : Prop := JsMap.has "file" (writeLocks s) = false.

(** The discipline of the write serializer. *)
Definition serialized (sys : system) : Prop :=
  length (in_flight sys) ≤ 1
  ∧ (isWriting (object sys) = true ↔ in_flight sys ≠ [])
  ∧ NoDup (pendingWrites (object sys)).

(** [stats.totalChats] is the number of chats. *)
Definition chats_counted (s : store) : Prop :=
  totalChats (stats s) = Z.of_nat (JsMap.size (chats s)).

(** The bookkeeping of a history sync. *)
Definition sync_state (s : store) :=
  (isProcessingHistory s, syncStartTime s, hasInitialData s, backupData s).

(** [stats.totalChats], [stats.totalContacts] and [stats.totalMessages] are
    the numbers of chats, of contacts and of stored messages. *)
Definition stats_counted (s : store) : Prop :=
  totalChats (stats s) = Z.of_nat (JsMap.size (chats s))
  ∧ totalContacts (stats s) = Z.of_nat (JsMap.size (contacts s))
  ∧ totalMessages (stats s)
    = foldl (λ total chatMsgs, (total + Z.of_nat (JsMap.size chatMsgs))%Z)
            0%Z (JsMap.values (messages s)).

(** The cap holds throughout: it is not negative, and no message map holds
    more messages than it allows, in the store and in the backup a history
    sync took.  The maps, being [Map]s, have unique keys. *)
Definition within_cap (s : store) : Prop :=
  (0 ≤ maxMessagesPerChat (cfg s))%Z
  ∧ messages_wf s ∧ capped s
  ∧ JsMap.wf (backup_messages (backupData s))
  ∧ ∀ jid m, (jid, m) ∈ backup_messages (backupData s) →
      JsMap.wf m ∧ (Z.of_nat (JsMap.size m) ≤ maxMessagesPerChat (cfg s))%Z.

(** ** Concrete inputs

    The theorems hold for every normalizer, serializer and parser.  Their
    instances run them on the inputs below, with these choices for the
    functions the store takes from its environment. *)

(** [jidNormalizedUser] on a jid that is in normal form already; what is not
    a string normalizes to the empty string. *)
Definition jid_unchanged (id : key) : string :=
  match id with
  | Some (VStr jid) => jid
  | _ => ""
  end.

(** [String(n)] of an integer: its decimal numeral. *)
Definition decimal (n : Z) : string := NilZero.string_of_int (Z.to_int n).

(** [ToNumber(s) > 0] for a string that is a decimal numeral; other
    spellings of numbers are not recognised. *)
Definition decimal_gt_zero (s : string) : bool :=
  match NilZero.int_of_string s with
  | Some d => (0 <? Z.of_int d)%Z
  | None => false
  end.

(** A serializer that prints the sizes of the maps only. *)
Definition print_sizes (d : snapshot) : string :=
  ("{ version: " ++ version d
   ++ ", chats: " ++ decimal (Z.of_nat (length (snapshot_chats d)))
   ++ ", messages: " ++ decimal (Z.of_nat (length (snapshot_messages d)))
   ++ ", contacts: " ++ decimal (Z.of_nat (length (snapshot_contacts d)))
   ++ " }")%string.

(** A parser that rejects every input, and a loader that loads nothing. *)
Definition parse_nothing (raw : string) : option json := None.

Definition is_empty (raw : string) : bool := bool_decide (raw = "").

Definition load_nothing (data : json) (s : store) : store * option error :=
  (s, None).

Definition empty_disk : node := Node ∅ [] [].

(** A message of chat "A" with the given id and [messageTimestamp]. *)
Definition message_at (id : string) (t : Z) : WAMessage :=
  Message (MessageKey "A" id) (Some t) false false "".

(** A new store with the default options. *)
Definition fresh : store := makeInMemoryStore "baileys_store.json" no_options.

(** A new store with one chat, "a@s.whatsapp.net", last updated at time 1. *)
Definition one_chat : store :=
  upsertChat 1 ({[ "id" := VStr "a@s.whatsapp.net"; "unreadCount" := VNum 1 ]} : obj)
             fresh.

(** An update of that chat with two more unread messages, and the chat
    object as [upsertChat] stored it. *)
Definition two_more_unread : obj :=
  {[ "id" := VStr "a@s.whatsapp.net"; "unreadCount" := VNum 2 ]}.

Definition one_chat_object : obj :=
  {[ "id" := VStr "a@s.whatsapp.net"; "unreadCount" := VNum 1;
     "createdAt" := VNum 1; "lastUpdated" := VNum 1 ]}.

(** A store that only knows the metadata of one group, backed up. *)
Definition only_group_backed_up : store :=
  backup_in_memory
    (updateGroupMetadata 1
       ({[ "id" := VStr "g@g.us"; "subject" := VStr "team" ]} : obj) fresh).

(** A latest batch of two chats and no messages, arriving at a store that
    has a chat already. *)
Definition small_latest_batch : historyData :=
  {| newChats := [ {[ "id" := VStr "b@s.whatsapp.net" ]};
                   {[ "id" := VStr "c@s.whatsapp.net" ]} ];
     newContacts := [];
     newMessages := [];
     isLatest := true;
     syncType := 0;
     progress := 100 |}.

(** A store with one message in the chat "A", and a latest batch that
    brings one more message for that chat. *)
Definition one_message : store :=
  addMessage jid_unchanged 10 "A" (message_at "k1" 1) fresh.

Definition latest_delta : historyData :=
  {| newChats := [];
     newContacts := [];
     newMessages := [message_at "k2" 2];
     isLatest := true;
     syncType := 0;
     progress := 100 |}.

(** The store with a chat, one write in flight and a second request made
    pending. *)
Definition busy_store : store :=
  with_pendingWrites ["baileys_store.json"] (with_isWriting true one_chat).

Definition busy : system := System busy_store empty_disk ["baileys_store.json"].

(** A snapshot of 5 bytes with a backup of 16 bytes beside it. *)
Definition truncated_snapshot : node :=
  Node {[ "baileys_store.json" := "12345";
          "baileys_store.json.backup" := "{ valid backup }" ]} [] [].

(** The store with a chat, in the middle of a history sync. *)
Definition syncing : store := with_sync true (Some 0%Z) one_chat.

(** A store with three messages in one chat. *)
Definition three_messages : store :=
  run jid_unchanged
    [AddMessage 10 "a@s.whatsapp.net" (message_at "m1" 1);
     AddMessage 11 "a@s.whatsapp.net" (message_at "m2" 2);
     AddMessage 12 "a@s.whatsapp.net" (message_at "m3" 3)] fresh.

(** A store that was told to keep no message, and one that keeps one
    message per chat and holds one. *)
Definition keeps_nothing : store :=
  makeInMemoryStore "baileys_store.json"
    (Options (Some 0%Z) None None None None None None).

Definition keeps_one : store :=
  addMessage jid_unchanged 10 "a@s.whatsapp.net" (message_at "m5" 5)
    (makeInMemoryStore "baileys_store.json"
       (Options (Some 1%Z) None None None None None None)).

(** A contact as an upsert brings it. *)
Definition a_contact : obj :=
  {[ "id" := VStr "c@s.whatsapp.net"; "name" := VStr "Carol" ]}.

(** The store with a chat, 15 milliseconds into a history sync at time
    20. *)
Definition just_syncing : store := with_sync true (Some 5%Z) one_chat.

(** The store with a chat, its chat gone again after the backup. *)
Definition emptied : store := with_chats [] (backup_in_memory one_chat).

(** * Properties *)

(** ** Insertion-ordered maps *)

Module JsMapFacts.
Abbreviation wf := JsMap.wf.

Section facts.
Context {K V : Type} `{EqDecision K}.
Implicit Types (k : K) (v : V) (m : jsmap K V).

Lemma wf_nil : wf ([] : jsmap K V).
Proof. constructor. Qed.

Lemma get_None k m : JsMap.get k m = None ↔ k ∉ JsMap.keys m.
Proof.
  unfold JsMap.keys. induction m as [|[k' v'] m IH]; simpl.
  - split; [intros _; apply not_elem_of_nil | done].
  - rewrite not_elem_of_cons. destruct (decide (k = k')) as [->|Hne].
    + split; [done | intros [? _]; done].
    + rewrite IH. split; [intros; split; done | intros [_ ?]; done].
Qed.

Lemma get_Some_elem k v m : JsMap.get k m = Some v → (k, v) ∈ m.
Proof.
  induction m as [|[k' v'] m IH]; simpl; [done|].
  destruct (decide (k = k')) as [->|].
  - intros [= ->]. left.
  - intros. right. auto.
Qed.

Lemma elem_get k v m : wf m → (k, v) ∈ m → JsMap.get k m = Some v.
Proof.
  unfold wf, JsMap.keys. induction m as [|[k' v'] m IH]; simpl.
  - intros _ Hin. by apply elem_of_nil in Hin.
  - rewrite NoDup_cons. intros [Hk Hm] Hin.
    apply elem_of_cons in Hin as [[= -> ->]|Hin].
    + by rewrite decide_True.
    + rewrite decide_False; [auto|].
      intros ->. apply Hk. apply (list_elem_of_fmap_2 fst) in Hin. done.
Qed.

Lemma has_true k m : JsMap.has k m = true ↔ k ∈ JsMap.keys m.
Proof.
  unfold JsMap.has. destruct (JsMap.get k m) eqn:E.
  - split; [intros _|done].
    apply get_Some_elem, (list_elem_of_fmap_2 fst) in E. done.
  - apply get_None in E. split; [done | intros; contradiction].
Qed.

Lemma has_false k m : JsMap.has k m = false ↔ JsMap.get k m = None.
Proof. unfold JsMap.has. destruct (JsMap.get k m); split; congruence. Qed.

Lemma get_set_eq k v m : JsMap.get k (JsMap.set k v m) = Some v.
Proof.
  induction m as [|[k' v'] m IH]; simpl.
  - by rewrite decide_True.
  - destruct (decide (k = k')); simpl.
    + by rewrite decide_True.
    + by rewrite decide_False.
Qed.

Lemma get_set_ne k k' v m :
  k ≠ k' → JsMap.get k' (JsMap.set k v m) = JsMap.get k' m.
Proof.
  intros Hne. induction m as [|[k0 v0] m IH]; simpl.
  - rewrite decide_False; [done | congruence].
  - destruct (decide (k = k0)) as [->|]; simpl.
    + rewrite !decide_False; [done | congruence | congruence].
    + by rewrite IH.
Qed.

(** [set] appends a new key and overwrites a present one where it is. *)
Lemma set_absent k v m :
  JsMap.get k m = None → JsMap.set k v m = m ++ [(k, v)].
Proof.
  induction m as [|[k' v'] m IH]; simpl; [done|].
  destruct (decide (k = k')); [done|]. intros. by rewrite IH.
Qed.

Lemma keys_set_present k v m :
  k ∈ JsMap.keys m → JsMap.keys (JsMap.set k v m) = JsMap.keys m.
Proof.
  unfold JsMap.keys. induction m as [|[k' v'] m IH]; simpl.
  - intros Hin. by apply elem_of_nil in Hin.
  - intros Hin. destruct (decide (k = k')) as [->|]; simpl; [done|].
    f_equal. apply IH. apply elem_of_cons in Hin as [|]; [congruence | done].
Qed.

Lemma keys_set k v m :
  JsMap.keys (JsMap.set k v m)
  = if JsMap.has k m then JsMap.keys m else JsMap.keys m ++ [k].
Proof.
  destruct (JsMap.has k m) eqn:E.
  - apply keys_set_present. by apply has_true.
  - apply has_false in E. rewrite (set_absent _ _ _ E).
    unfold JsMap.keys. by rewrite fmap_app.
Qed.

Lemma size_set k v m :
  JsMap.size (JsMap.set k v m)
  = if JsMap.has k m then JsMap.size m else S (JsMap.size m).
Proof.
  unfold JsMap.size.
  rewrite <- (length_fmap fst (JsMap.set k v m)), <- (length_fmap fst m).
  fold (JsMap.keys (JsMap.set k v m)). fold (JsMap.keys m).
  rewrite keys_set. destruct (JsMap.has k m); [done|].
  rewrite length_app. simpl. lia.
Qed.

Lemma wf_set k v m : wf m → wf (JsMap.set k v m).
Proof.
  unfold wf. rewrite keys_set. destruct (JsMap.has k m) eqn:E; [done|].
  intros Hm. apply NoDup_app. split_and!; [done| |apply NoDup_singleton].
  intros x Hx ->%list_elem_of_singleton.
  apply has_false, get_None in E. done.
Qed.

Lemma delete_filter k m : JsMap.delete k m = filter (λ e, e.1 ≠ k) m.
Proof.
  induction m as [|[k' v'] m IH]; simpl; [done|].
  rewrite filter_cons. simpl.
  destruct (decide (k = k')) as [->|Hne].
  - rewrite decide_False; [done | auto].
  - rewrite decide_True; [by rewrite IH | congruence].
Qed.

Lemma delete_all (dead : list (K * V)) m :
  foldl (λ m e, JsMap.delete e.1 m) m dead
  = filter (λ e, e.1 ∉ dead.*1) m.
Proof.
  revert m. induction dead as [|d dead IH]; intros m; simpl.
  - symmetry. induction m as [|e m IHm]; [done|].
    rewrite filter_cons_True; [by rewrite IHm | apply not_elem_of_nil].
  - rewrite IH, delete_filter, list_filter_filter.
    apply list_filter_iff. intros e. rewrite not_elem_of_cons. tauto.
Qed.

Lemma wf_sublist m m' : m' `sublist_of` m → wf m → wf m'.
Proof.
  unfold wf, JsMap.keys. intros Hsub Hnd.
  apply (sublist_NoDup _ (m.*1)); [done | by apply fmap_sublist].
Qed.

Lemma wf_delete k m : wf m → wf (JsMap.delete k m).
Proof. rewrite delete_filter. apply wf_sublist, sublist_filter. Qed.

Lemma get_delete_eq k m : JsMap.get k (JsMap.delete k m) = None.
Proof.
  induction m as [|[k' v'] m IH]; simpl; [done|].
  destruct (decide (k = k')); simpl; [done|]. by rewrite decide_False.
Qed.

Lemma get_delete_ne k k' m :
  k ≠ k' → JsMap.get k' (JsMap.delete k m) = JsMap.get k' m.
Proof.
  intros Hne. induction m as [|[k0 v0] m IH]; simpl; [done|].
  destruct (decide (k = k0)) as [->|]; simpl.
  - rewrite decide_False; [done | congruence].
  - by rewrite IH.
Qed.

(** Copying a map with [new Map(m)] gives the same entries in the same
    order. *)
Lemma of_entries_app (acc l : list (K * V)) :
  wf (acc ++ l) → foldl (λ m e, JsMap.set e.1 e.2 m) acc l = acc ++ l.
Proof.
  revert acc. induction l as [|[k v] l IH]; intros acc Hwf; simpl.
  - by rewrite app_nil_r.
  - rewrite set_absent.
    + rewrite IH; rewrite <- app_assoc; done.
    + apply get_None. unfold wf, JsMap.keys in Hwf.
      rewrite fmap_app in Hwf. apply NoDup_app in Hwf as (_ & Hdisj & _).
      intros Hin. apply (Hdisj k Hin). simpl. left.
Qed.

Lemma of_entries_wf m : wf m → JsMap.of_entries m = m.
Proof. intros. unfold JsMap.of_entries. by rewrite of_entries_app. Qed.
End facts.
End JsMapFacts.

(** ** Sorting *)

Section sort_facts.
Context {A : Type} (cmp : A → A → Z) (f : A → Z).
Hypothesis cmp_spec : ∀ x y, (cmp x y ≤ 0 ↔ f x ≤ f y)%Z.

Lemma insert_sorted_perm x l : insert_sorted cmp x l ≡ₚ x :: l.
Proof.
  induction l as [|y l IH]; simpl; [done|].
  destruct (cmp x y <=? 0)%Z; [done|].
  rewrite IH. apply Permutation_swap.
Qed.

Lemma js_sort_perm l : js_sort cmp l ≡ₚ l.
Proof.
  induction l as [|x l IH]; simpl; [done|].
  by rewrite insert_sorted_perm, IH.
Qed.

Lemma insert_sorted_sorted x l :
  StronglySorted (λ a b, f a ≤ f b)%Z l →
  StronglySorted (λ a b, f a ≤ f b)%Z (insert_sorted cmp x l).
Proof.
  induction 1 as [|y l Hl IH Hy]; simpl.
  - repeat constructor.
  - destruct (cmp x y <=? 0)%Z eqn:E.
    + apply Z.leb_le, cmp_spec in E.
      constructor; [by constructor|].
      constructor; [done|].
      eapply Forall_impl; [exact Hy|]. simpl. intros; lia.
    + apply Z.leb_gt in E.
      assert (f y ≤ f x)%Z.
      { destruct (Z.le_gt_cases (f x) (f y)) as [Hle|]; [|lia].
        apply cmp_spec in Hle. lia. }
      constructor; [done|].
      rewrite insert_sorted_perm. by constructor.
Qed.

Lemma js_sort_sorted l : StronglySorted (λ a b, f a ≤ f b)%Z (js_sort cmp l).
Proof.
  induction l; simpl; [constructor | by apply insert_sorted_sorted].
Qed.

(** Stability: entries with the same key keep their relative order. *)
Lemma insert_sorted_stable t x l :
  filter (λ a, f a = t) (insert_sorted cmp x l)
  = filter (λ a, f a = t) (x :: l).
Proof.
  induction l as [|y l IH]; simpl; [done|].
  destruct (cmp x y <=? 0)%Z eqn:E; [done|].
  apply Z.leb_gt in E.
  assert (f y < f x)%Z.
  { destruct (Z.le_gt_cases (f x) (f y)) as [Hle|]; [|lia].
    apply cmp_spec in Hle. lia. }
  rewrite (filter_cons _ y), IH, !filter_cons.
  repeat case_decide; try done; lia.
Qed.

Lemma js_sort_stable t l :
  filter (λ a, f a = t) (js_sort cmp l) = filter (λ a, f a = t) l.
Proof.
  induction l as [|x l IH]; simpl; [done|].
  by rewrite insert_sorted_stable, !filter_cons, IH.
Qed.
End sort_facts.

(** ** Filtering *)

Section filter_facts.
Context {A : Type} (P : A → Prop) `{!∀ x, Decision (P x)}.

Lemma filter_none (l : list A) : (∀ x, x ∈ l → ¬ P x) → filter P l = [].
Proof.
  induction l as [|x l IH]; intros Hl; [done|].
  rewrite filter_cons_False.
  - apply IH. intros y Hy. apply Hl. by right.
  - apply Hl. left.
Qed.

Lemma filter_all (l : list A) : (∀ x, x ∈ l → P x) → filter P l = l.
Proof.
  induction l as [|x l IH]; intros Hl; [done|].
  rewrite filter_cons_True.
  - f_equal. apply IH. intros y Hy. apply Hl. by right.
  - apply Hl. left.
Qed.

Lemma filter_sublist_mono (l1 l2 : list A) :
  l1 `sublist_of` l2 → filter P l1 `sublist_of` filter P l2.
Proof.
  induction 1 as [|x l1 l2 _ IH|x l1 l2 _ IH]; [done| |].
  - rewrite !filter_cons. destruct (decide (P x)); [by constructor | done].
  - rewrite filter_cons. destruct (decide (P x)); [by constructor | done].
Qed.
End filter_facts.

(** ** Order of appearance in a list *)

Section order_facts.
Context {A : Type}.
Implicit Types (l : list A) (a b c : A).

Lemma pair_sublist_cons a b x l :
  [a; b] `sublist_of` x :: l ↔ [a; b] `sublist_of` l ∨ (a = x ∧ b ∈ l).
Proof.
  rewrite sublist_cons_r. split.
  - intros [?|(l' & [= -> <-] & Hb)]; [by left | right].
    split; [done | by apply singleton_sublist_l].
  - intros [?|[-> Hb]]; [by left | right].
    exists [b]. split; [done | by apply singleton_sublist_l].
Qed.

Lemma pair_sublist_elem a b l : [a; b] `sublist_of` l → a ∈ l ∧ b ∈ l.
Proof.
  intros H. split; eapply elem_of_sublist; [| exact H | | exact H];
    [left | right; left].
Qed.

Lemma pair_sublist_asym a b l :
  NoDup l → [a; b] `sublist_of` l → [b; a] `sublist_of` l → False.
Proof.
  induction l as [|x l IH]; intros Hnd Hab Hba.
  - by apply sublist_nil_r in Hab.
  - apply NoDup_cons in Hnd as [Hx Hnd].
    apply pair_sublist_cons in Hab as [Hab|[-> Hb]];
      apply pair_sublist_cons in Hba as [Hba|[Heq Ha]].
    + by apply IH.
    + subst. by apply pair_sublist_elem in Hab as [_ ?].
    + by apply pair_sublist_elem in Hba as [_ ?].
    + by subst.
Qed.

Lemma pair_sublist_trans a b c l :
  NoDup l → [a; b] `sublist_of` l → [b; c] `sublist_of` l → [a; c] `sublist_of` l.
Proof.
  induction l as [|x l IH]; intros Hnd Hab Hbc.
  - by apply sublist_nil_r in Hab.
  - apply NoDup_cons in Hnd as [Hx Hnd]. apply pair_sublist_cons.
    apply pair_sublist_cons in Hab as [Hab|[-> Hb]];
      apply pair_sublist_cons in Hbc as [Hbc|[Heq Hc]].
    + left. by apply IH.
    + subst. by apply pair_sublist_elem in Hab as [_ ?].
    + right. split; [done|]. by apply pair_sublist_elem in Hbc as [_ ?].
    + by subst.
Qed.

(** Two selections from a list without duplicates that select the same
    elements are the same selection. *)
Lemma sublist_perm_eq l1 l2 l :
  NoDup l → l1 `sublist_of` l → l2 `sublist_of` l → l1 ≡ₚ l2 → l1 = l2.
Proof.
  revert l1 l2. induction l as [|x l IH]; intros l1 l2 Hnd H1 H2 Hp.
  - apply sublist_nil_r in H1, H2. by subst.
  - apply NoDup_cons in Hnd as [Hx Hnd].
    apply sublist_cons_r in H1 as [H1|(k1 & -> & H1)];
      apply sublist_cons_r in H2 as [H2|(k2 & -> & H2)].
    + by apply IH.
    + exfalso. apply Hx. eapply elem_of_sublist; [|exact H1].
      rewrite Hp. left.
    + exfalso. apply Hx. eapply elem_of_sublist; [|exact H2].
      rewrite <- Hp. left.
    + f_equal. apply IH; [done | done | done |].
      by apply (inj (cons x)).
Qed.
End order_facts.

(** ** The cap on a chat's messages *)

Section cap_facts.
Import JsMapFacts.
Implicit Types (m : jsmap string stored_message) (cap : Z).

Local Abbreviation ts := entry_timestamp.

Lemma by_messageTimestamp_spec (x y : string * stored_message) :
  (by_messageTimestamp x y ≤ 0 ↔ ts x ≤ ts y)%Z.
Proof. unfold by_messageTimestamp, ts. lia. Qed.

Lemma sortedMessages_perm m : sortedMessages m ≡ₚ m.
Proof. apply js_sort_perm. Qed.

(** What survives the deletions is what the sort put after [toDelete]. *)
Lemma retained_perm cap m :
  wf m →
  foldl (λ m e, JsMap.delete e.1 m) m (toDelete cap m)
  ≡ₚ drop (Z.to_nat (Z.of_nat (JsMap.size m) - cap)) (sortedMessages m).
Proof.
  intros Hwf. rewrite delete_all. unfold toDelete.
  set (d := Z.to_nat (Z.of_nat (JsMap.size m) - cap)).
  set (dead := take d (sortedMessages m)).
  set (kept := drop d (sortedMessages m)).
  assert (Hsplit : dead ++ kept ≡ₚ m).
  { unfold dead, kept. rewrite take_drop. apply sortedMessages_perm. }
  assert (Hnd : NoDup (dead.*1 ++ kept.*1)).
  { rewrite <- fmap_app. by rewrite Hsplit. }
  apply NoDup_app in Hnd as (_ & Hdisj & _).
  rewrite <- Hsplit, filter_app, filter_none, filter_all; [done| |].
  - intros x Hx Hin. apply (Hdisj _ Hin).
    by apply (list_elem_of_fmap_2 fst).
  - intros x Hx Hnot. apply Hnot. by apply (list_elem_of_fmap_2 fst).
Qed.

Lemma applyLimit_sublist cap m : applyLimit cap m `sublist_of` m.
Proof.
  unfold applyLimit. case_match; [|done].
  rewrite delete_all. apply sublist_filter.
Qed.

Lemma applyLimit_wf cap m : wf m → wf (applyLimit cap m).
Proof. apply wf_sublist, applyLimit_sublist. Qed.

Lemma applyLimit_size cap m :
  wf m → (0 ≤ cap)%Z →
  JsMap.size (applyLimit cap m) = Nat.min (JsMap.size m) (Z.to_nat cap).
Proof.
  intros Hwf Hcap. unfold applyLimit.
  destruct (cap <? Z.of_nat (JsMap.size m))%Z eqn:E.
  - apply Z.ltb_lt in E. unfold JsMap.size at 1.
    rewrite (retained_perm cap m Hwf), length_drop.
    rewrite (sortedMessages_perm m). unfold JsMap.size in *. lia.
  - apply Z.ltb_ge in E. lia.
Qed.

(** Every entry the cap removes is older than every entry it keeps. *)
Lemma applyLimit_oldest cap m e r :
  wf m → e ∈ m → e ∉ applyLimit cap m → r ∈ applyLimit cap m → older m e r.
Proof.
  intros Hwf He Hgone Hkept. unfold applyLimit in *.
  destruct (cap <? Z.of_nat (JsMap.size m))%Z; [|done].
  rewrite (retained_perm cap m Hwf) in Hgone, Hkept.
  set (d := Z.to_nat (Z.of_nat (JsMap.size m) - cap)) in *.
  set (s := sortedMessages m) in *.
  assert (He' : e ∈ take d s).
  { rewrite <- (sortedMessages_perm m) in He. fold s in He.
    rewrite <- (take_drop d s) in He.
    apply elem_of_app in He as [|]; [done | contradiction]. }
  assert (Hsorted : StronglySorted (λ a b, ts a ≤ ts b)%Z (take d s ++ drop d s)).
  { rewrite take_drop. apply js_sort_sorted, by_messageTimestamp_spec. }
  pose proof (StronglySorted_app_1_elem_of _ _ _ _ _ Hsorted He' Hkept) as Hle.
  simpl in Hle. unfold older. change (ts e < ts r ∨ ts e = ts r ∧ [e; r] `sublist_of` m)%Z.
  destruct (decide (ts e = ts r)) as [Heq|]; [right | left; lia].
  split; [done|].
  assert (Hs : [e; r] `sublist_of` s).
  { rewrite <- (take_drop d s). apply (sublist_app [e] _ [r]).
    - by apply singleton_sublist_l.
    - by apply singleton_sublist_l. }
  apply (filter_sublist_mono (λ a, ts a = ts e)) in Hs.
  rewrite filter_all in Hs.
  - unfold s, sortedMessages in Hs.
    rewrite (js_sort_stable _ ts by_messageTimestamp_spec) in Hs.
    etrans; [exact Hs | apply sublist_filter].
  - intros x [->|[->|[]%elem_of_nil]%elem_of_cons]%elem_of_cons; done.
Qed.
End cap_facts.

(** ** The newest entries *)

Section newest.
Import JsMapFacts.
Implicit Types (m : jsmap string stored_message) (e r : string * stored_message).

Lemma wf_NoDup m : wf m → NoDup m.
Proof. apply NoDup_fmap_1. Qed.

Lemma older_mono m m' e r : m' `sublist_of` m → older m' e r → older m e r.
Proof.
  intros Hsub [Hlt|[Heq Hord]]; [by left | right].
  split; [done | by etrans].
Qed.

Lemma older_asym m e r : wf m → older m e r → older m r e → False.
Proof.
  intros Hwf%wf_NoDup [Hlt|[Heq Hord]] [Hlt'|[Heq' Hord']]; try lia.
  by eapply pair_sublist_asym.
Qed.

Lemma older_trans m a b c : wf m → older m a b → older m b c → older m a c.
Proof.
  intros Hwf%wf_NoDup [Hlt|[Heq Hord]] [Hlt'|[Heq' Hord']];
    [left; lia | left; lia | left; lia | right].
  split; [lia | by eapply pair_sublist_trans].
Qed.

(** The newest entries of a map, as many as a given number, are determined:
    two selections of the same size that each leave out only entries older
    than all they keep select the same entries. *)
Lemma newest_unique m (X Y : list (string * stored_message)) :
  wf m → NoDup X → NoDup Y → X ⊆ m → Y ⊆ m → length X = length Y →
  (∀ e r, e ∈ m → e ∉ X → r ∈ X → older m e r) →
  (∀ e r, e ∈ m → e ∉ Y → r ∈ Y → older m e r) →
  X ≡ₚ Y.
Proof.
  intros Hwf HX HY HXm HYm Hlen HdomX HdomY.
  apply submseteq_length_Permutation; [|lia].
  apply NoDup_submseteq; [done|]. intros x Hx.
  destruct (decide (x ∈ Y)) as [|Hout]; [done|]. exfalso.
  assert (Hsub : ∀ y, y ∈ x :: Y → y ∈ X).
  { intros y [->|Hy]%elem_of_cons; [done|].
    destruct (decide (y ∈ X)) as [|Hy']; [done|]. exfalso.
    apply (older_asym m y x Hwf); [apply HdomX | apply HdomY]; auto. }
  apply NoDup_submseteq, submseteq_length in Hsub; [simpl in Hsub; lia|].
  by apply NoDup_cons.
Qed.

(** Enforcing the cap as the entries arrive keeps what enforcing it once,
    on all of them, keeps. *)
Lemma applyLimit_stream cap (old new : jsmap string stored_message) :
  wf (old ++ new) → (0 ≤ cap)%Z →
  applyLimit cap (applyLimit cap old ++ new) = applyLimit cap (old ++ new).
Proof.
  intros Hwf Hcap.
  set (kept := applyLimit cap old).
  assert (Hkept : kept `sublist_of` old) by apply applyLimit_sublist.
  assert (Hin : kept ++ new `sublist_of` old ++ new) by by apply sublist_app.
  assert (Hwf_in : wf (kept ++ new)) by by eapply wf_sublist.
  assert (Hwf_old : wf old) by (eapply wf_sublist; [apply sublist_inserts_r|]; done).
  assert (Hsub : applyLimit cap (kept ++ new) `sublist_of` old ++ new)
    by (etrans; [apply applyLimit_sublist | done]).
  apply (sublist_perm_eq _ _ (old ++ new));
    [by apply wf_NoDup | done | apply applyLimit_sublist |].
  assert (Hsize : length (applyLimit cap (kept ++ new))
                  = length (applyLimit cap (old ++ new))).
  { pose proof (applyLimit_size cap (kept ++ new) Hwf_in Hcap) as H1.
    pose proof (applyLimit_size cap (old ++ new) Hwf Hcap) as H2.
    pose proof (applyLimit_size cap old Hwf_old Hcap) as H3.
    fold kept in H3. unfold JsMap.size in *.
    rewrite H1, H2, !length_app, H3. lia. }
  apply (newest_unique (old ++ new)); try done.
  - eapply wf_NoDup, wf_sublist; [exact Hsub | done].
  - eapply wf_NoDup, applyLimit_wf; done.
  - intros x Hx. by eapply elem_of_sublist.
  - intros x Hx. eapply elem_of_sublist; [exact Hx | apply applyLimit_sublist].
  - intros e r He Hgone Hr.
    destruct (decide (e ∈ kept ++ new)) as [Hcand|Hdropped].
    { eapply older_mono; [exact Hin|]. by apply (applyLimit_oldest cap). }
    assert (He_old : e ∈ old ∧ e ∉ kept).
    { apply elem_of_app in He as [|]; rewrite elem_of_app in Hdropped; tauto. }
    destruct He_old as [He_old He_kept].
    assert (Hr_cand : r ∈ kept ++ new)
      by (eapply elem_of_sublist; [exact Hr | apply applyLimit_sublist]).
    destruct (decide (r ∈ kept)) as [Hr_kept|Hr_new].
    { apply (older_mono (old ++ new) old); [by apply sublist_inserts_r|].
      by apply (applyLimit_oldest cap). }
    (* [r] is new and kept, [e] was dropped before: some entry kept then is
       dropped now, and it lies between them *)
    assert (Hfull : length kept = Z.to_nat cap).
    { pose proof (applyLimit_size cap old Hwf_old Hcap) as H3. fold kept in H3.
      unfold JsMap.size in H3. rewrite H3.
      destruct (decide (length old ≤ Z.to_nat cap)) as [Hfits|]; [|lia].
      exfalso. apply He_kept. unfold kept, applyLimit.
      assert ((cap <? Z.of_nat (JsMap.size old))%Z = false) as ->; [|done].
      apply Z.ltb_ge. unfold JsMap.size. lia. }
    assert (Hsome : ¬ Forall (λ a, a ∈ applyLimit cap (kept ++ new)) kept).
    { intros Hall. rewrite Forall_forall in Hall.
      assert (Hincl : ∀ y, y ∈ r :: kept → y ∈ applyLimit cap (kept ++ new)).
      { intros y [->|Hy]%elem_of_cons; auto. }
      apply NoDup_submseteq, submseteq_length in Hincl.
      - pose proof (applyLimit_size cap (kept ++ new) Hwf_in Hcap) as H1.
        unfold JsMap.size in H1. simpl in Hincl. lia.
      - apply NoDup_cons. split; [done|].
        eapply wf_NoDup, wf_sublist; [exact Hkept | done]. }
    apply not_Forall_Exists in Hsome; [|apply _].
    apply Exists_exists in Hsome as (a & Ha & Ha_gone). simpl in Ha_gone.
    apply (older_trans _ e a r Hwf).
    + apply (older_mono (old ++ new) old); [by apply sublist_inserts_r|].
      by apply (applyLimit_oldest cap).
    + eapply older_mono; [exact Hin|].
      apply (applyLimit_oldest cap); [done | | done | done].
      apply elem_of_app. by left.
  - intros e r. by apply applyLimit_oldest.
Qed.
End newest.

(** ** Message insertion *)

Section insertions.
Import JsMapFacts.
Variable jidNormalizedUser : key → string.

Local Abbreviation insert := (insert jidNormalizedUser).
Local Abbreviation chat_of := (chat_of jidNormalizedUser).

Lemma messages_wf_new c : messages_wf (new_store c).
Proof. split; [constructor | intros jid; constructor]. Qed.

Lemma chat_messages_ensure jid jid' s :
  chat_messages jid' (ensure_chat jid s) = chat_messages jid' s.
Proof.
  unfold ensure_chat, chat_messages.
  destruct (JsMap.has jid (messages s)) eqn:E; [done|]. simpl.
  apply has_false in E. destruct (decide (jid = jid')) as [<-|Hne].
  - by rewrite get_set_eq, E.
  - by rewrite get_set_ne.
Qed.

Lemma chat_messages_set jid jid' m s :
  chat_messages jid' (set_chat_messages jid m s)
  = if decide (jid = jid') then m else chat_messages jid' s.
Proof.
  unfold set_chat_messages, chat_messages. simpl. case_decide as E.
  - subst. by rewrite get_set_eq.
  - by rewrite get_set_ne.
Qed.

Lemma insert_cfg op s : cfg (insert op s) = cfg s.
Proof.
  destruct op as [now jid m|now jid ms]; simpl.
  - unfold addMessage. case_match; [done|].
    case_match; simpl; unfold ensure_chat; by case_match.
  - unfold processChatMessages. simpl. unfold ensure_chat. by case_match.
Qed.

(** What an insertion does to the message map of each chat. *)
Lemma chat_messages_insert op jid s :
  chat_messages jid (insert op s)
  = if decide (chat_of op = jid) then
      if ignored op then chat_messages jid s
      else applyLimit (maxMessagesPerChat (cfg s))
                      (written op (chat_messages jid s))
    else chat_messages jid s.
Proof.
  destruct op as [now j m|now j ms]; simpl.
  - unfold addMessage.
    destruct (fromMe m && historySyncNotification m); [by case_decide|].
    set (s1 := ensure_chat _ s).
    assert (Hcfg : cfg s1 = cfg s) by (unfold s1, ensure_chat; by case_match).
    transitivity (chat_messages jid
      (set_chat_messages (jid_of jidNormalizedUser j)
         (applyLimit (maxMessagesPerChat (cfg s1))
            (JsMap.set (key_id (msg_key m)) (Stored m now true)
               (chat_messages (jid_of jidNormalizedUser j) s1))) s1)).
    { by case_match. }
    rewrite chat_messages_set, Hcfg. unfold s1.
    rewrite !chat_messages_ensure. by case_decide; subst.
  - unfold processChatMessages.
    set (s1 := ensure_chat _ s).
    assert (Hcfg : cfg s1 = cfg s) by (unfold s1, ensure_chat; by case_match).
    rewrite chat_messages_set, Hcfg. unfold s1.
    rewrite !chat_messages_ensure. by case_decide; subst.
Qed.

Lemma insert_new_wf now m msg : wf m → wf (insert_new now m msg).
Proof. unfold insert_new. case_match; [done | apply wf_set]. Qed.

Lemma written_wf op m : wf m → wf (written op m).
Proof.
  destruct op as [now j msg|now j ms]; simpl; [apply wf_set|].
  revert m. induction ms as [|x ms IH]; intros m Hm; simpl; [done|].
  by apply IH, insert_new_wf.
Qed.

Lemma wf_outer_ensure jid s : wf (messages s) → wf (messages (ensure_chat jid s)).
Proof. unfold ensure_chat. case_match; [done | apply wf_set]. Qed.

Lemma insert_wf op s : messages_wf s → messages_wf (insert op s).
Proof.
  intros [Hout Hin]. split.
  - destruct op as [now j m|now j ms]; simpl.
    + unfold addMessage. case_match; [done|].
      case_match; simpl; by apply wf_set, wf_outer_ensure.
    + unfold processChatMessages. simpl. by apply wf_set, wf_outer_ensure.
  - intros jid. rewrite chat_messages_insert.
    repeat case_match; try done. by apply applyLimit_wf, written_wf.
Qed.

Lemma run_wf ops s :
  messages_wf s → messages_wf (foldl (λ s op, insert op s) s ops).
Proof.
  revert s. induction ops as [|op ops IH]; intros s Hs; simpl; [done|].
  by apply IH, insert_wf.
Qed.

Lemma run_cfg ops s : cfg (foldl (λ s op, insert op s) s ops) = cfg s.
Proof.
  revert s. induction ops as [|op ops IH]; intros s; simpl; [done|].
  by rewrite IH, insert_cfg.
Qed.

Lemma insert_capped op s :
  (0 ≤ maxMessagesPerChat (cfg s))%Z →
  messages_wf s → capped s → capped (insert op s).
Proof.
  intros Hcap [Hout Hin] Hs jid. rewrite insert_cfg, chat_messages_insert.
  repeat case_match; try apply Hs.
  rewrite applyLimit_size; [lia | by apply written_wf | done].
Qed.

Lemma run_capped ops s :
  (0 ≤ maxMessagesPerChat (cfg s))%Z →
  messages_wf s → capped s → capped (foldl (λ s op, insert op s) s ops).
Proof.
  revert s. induction ops as [|op ops IH]; intros s Hcap Hwf Hs; simpl; [done|].
  apply IH; [by rewrite insert_cfg | by apply insert_wf | by apply insert_capped].
Qed.
End insertions.

Section eviction.
Import JsMapFacts.
Variable jidNormalizedUser : key → string.

Local Abbreviation run := (run jidNormalizedUser).

Lemma written_fresh op m :
  wf (m ++ entries_of op) → written op m = m ++ entries_of op.
Proof.
  destruct op as [now jid msg|now jid msgs]; simpl; intros Hwf.
  - apply set_absent, get_None.
    unfold wf, JsMap.keys in Hwf. rewrite fmap_app in Hwf.
    apply NoDup_app in Hwf as (_ & Hdisj & _).
    intros Hin. apply (Hdisj _ Hin). left.
  - revert m Hwf. induction msgs as [|msg msgs IH]; intros m Hwf; simpl.
    + by rewrite app_nil_r.
    + rewrite fmap_cons, cons_middle, app_assoc in Hwf.
      rewrite cons_middle, app_assoc.
      assert (Hnew : JsMap.get (key_id (msg_key msg)) m = None).
      { apply get_None.
        apply wf_sublist with (m' := m ++ [(key_id (msg_key msg), Stored msg now true)])
          in Hwf; [|apply sublist_inserts_r; done].
        unfold wf, JsMap.keys in Hwf. rewrite fmap_app in Hwf.
        apply NoDup_app in Hwf as (_ & Hdisj & _).
        intros Hin. apply (Hdisj _ Hin). left. }
      unfold insert_new at 2. unfold JsMap.has. rewrite Hnew.
      rewrite set_absent by done. by apply IH.
Qed.

Lemma applyLimit_fits cap (m : jsmap string stored_message) :
  (Z.of_nat (JsMap.size m) ≤ cap)%Z → applyLimit cap m = m.
Proof.
  intros Hfits. unfold applyLimit.
  assert ((cap <? Z.of_nat (JsMap.size m))%Z = false) as ->; [|done].
  by apply Z.ltb_ge.
Qed.

(** When no id is written twice, a chat holds after a sequence of insertions
    what the cap keeps of everything the chat held and was sent. *)
Lemma run_newest (s0 : store) (ops : list insertion) (jid : string) :
  (0 ≤ maxMessagesPerChat (cfg s0))%Z →
  (Z.of_nat (JsMap.size (chat_messages jid s0)) ≤ maxMessagesPerChat (cfg s0))%Z →
  wf (chat_messages jid s0 ++ ever_written jidNormalizedUser ops jid) →
  chat_messages jid (foldl (λ s op, insert jidNormalizedUser op s) s0 ops)
  = applyLimit (maxMessagesPerChat (cfg s0))
               (chat_messages jid s0 ++ ever_written jidNormalizedUser ops jid).
Proof.
  intros Hcap Hfits. induction ops as [|op ops IH] using rev_ind; intros Hwf.
  - simpl. by rewrite app_nil_r, applyLimit_fits.
  - unfold ever_written in Hwf |- *. rewrite bind_app in Hwf |- *.
    simpl in Hwf |- *. rewrite app_nil_r in Hwf |- *.
    fold (ever_written jidNormalizedUser ops jid) in Hwf |- *.
    rewrite foldl_app. simpl.
    rewrite chat_messages_insert, run_cfg.
    destruct (decide (chat_of jidNormalizedUser op = jid)) as [Hjid|Hjid].
    + destruct (ignored op).
      * rewrite app_nil_r in Hwf |- *. by apply IH.
      * rewrite app_assoc in Hwf |- *.
        rewrite IH by (eapply wf_sublist; [apply sublist_inserts_r|]; done).
        rewrite written_fresh.
        -- by apply applyLimit_stream.
        -- eapply wf_sublist; [|exact Hwf].
           apply sublist_app; [apply applyLimit_sublist | done].
    + rewrite app_nil_r in Hwf |- *. by apply IH.
Qed.

(** C1. Take a store whose cap is not negative (its message maps, being
    [Map]s, have unique keys) and any sequence of [addMessage] and
    [processChatMessages] calls.  After the sequence
    - if no chat held more messages than the cap to begin with, as in a new
      store, no chat does;
    - the chat the last call wrote to holds exactly the newest entries of
      what it held once the call had written its messages, as many as the
      cap allows: the entries are kept in their insertion order, and each
      entry that was dropped has a smaller [messageTimestamp] (absent read
      as 0) than each entry that was kept, or the same one and an earlier
      place in the insertion order;
    - a chat that was within the cap and to which no id was written twice
      holds exactly the newest entries of everything it held and was sent,
      in the same sense;
    - with cap 3, adding messages with timestamps 1, 2, 3, 4 to one chat
      of a new store leaves those with timestamps 2, 3, 4. *)
Theorem eviction_invariant (s0 : store) (ops : list insertion) :
  (0 ≤ maxMessagesPerChat (cfg s0))%Z →
  messages_wf s0 →
  (capped s0 →
   ∀ jid,
     (Z.of_nat (JsMap.size (chat_messages jid (run ops s0)))
      ≤ maxMessagesPerChat (cfg s0))%Z)
  ∧ (∀ ops' op,
       ops = ops' ++ [op] → ignored op = false →
       let before := chat_messages (chat_of jidNormalizedUser op) (run ops' s0) in
       let after := chat_messages (chat_of jidNormalizedUser op) (run ops s0) in
       after `sublist_of` written op before
       ∧ JsMap.size after
         = Nat.min (JsMap.size (written op before))
                   (Z.to_nat (maxMessagesPerChat (cfg s0)))
       ∧ ∀ e r, e ∈ written op before → e ∉ after → r ∈ after →
                older (written op before) e r)
  ∧ (∀ jid,
       let all := chat_messages jid s0 ++ ever_written jidNormalizedUser ops jid in
       let after := chat_messages jid (run ops s0) in
       (Z.of_nat (JsMap.size (chat_messages jid s0))
        ≤ maxMessagesPerChat (cfg s0))%Z →
       JsMap.wf all →
       after `sublist_of` all
       ∧ JsMap.size after
         = Nat.min (JsMap.size all) (Z.to_nat (maxMessagesPerChat (cfg s0)))
       ∧ ∀ e r, e ∈ all → e ∉ after → r ∈ after → older all e r)
  ∧ (∀ now1 now2 now3 now4,
       (λ e : string * stored_message, messageTimestamp (message e.2))
       <$> chat_messages (jid_of jidNormalizedUser "A")
             (run [AddMessage now1 "A" (message_at "m1" 1);
                   AddMessage now2 "A" (message_at "m2" 2);
                   AddMessage now3 "A" (message_at "m3" 3);
                   AddMessage now4 "A" (message_at "m4" 4)]
                  (new_store (Config 3 60000 500 "baileys_store.json"
                                     true true true)))
       = [Some 2; Some 3; Some 4]%Z).
Proof.
  intros Hcap Hwf0. split_and!.
  - intros Hcapped jid.
    pose proof (run_capped jidNormalizedUser ops s0 Hcap Hwf0 Hcapped) as Hrun.
    unfold capped in Hrun. rewrite run_cfg in Hrun. apply Hrun.
  - intros ops' op -> Hop before after.
    assert (Hwf : wf (written op before)).
    { apply written_wf, (run_wf jidNormalizedUser ops' _ Hwf0). }
    assert (Hafter : after
                     = applyLimit (maxMessagesPerChat (cfg s0)) (written op before)).
    { unfold after, before, run. rewrite foldl_app. simpl.
      rewrite chat_messages_insert, decide_True, Hop, run_cfg; done. }
    rewrite Hafter. split_and!.
    + apply applyLimit_sublist.
    + by apply applyLimit_size.
    + intros e r. by apply applyLimit_oldest.
  - intros jid all after Hfits Hall.
    assert (Hafter : after = applyLimit (maxMessagesPerChat (cfg s0)) all)
      by by apply run_newest.
    rewrite Hafter. split_and!.
    + apply applyLimit_sublist.
    + by apply applyLimit_size.
    + intros e r. by apply applyLimit_oldest.
  - intros now1 now2 now3 now4. unfold run. cbn [foldl].
    rewrite !chat_messages_insert, !insert_cfg.
    cbn [chat_of ignored written message_at fromMe historySyncNotification andb].
    rewrite !decide_True by done. reflexivity.
Qed.
End eviction.

(** ** Re-ingesting a message *)

Section reingestion.
Import JsMapFacts.
Variable jidNormalizedUser : key → string.

(** The message map of a chat never holds an id twice, and holds the id
    of a message just written unless the cap removed it. *)
Lemma addMessage_one_entry now jid m s :
  messages_wf s →
  NoDup (JsMap.keys (chat_messages (jid_of jidNormalizedUser jid)
                       (addMessage jidNormalizedUser now jid m s))).
Proof.
  intros Hwf.
  apply (insert_wf jidNormalizedUser (AddMessage now jid m)) in Hwf as [_ Hwf].
  apply Hwf.
Qed.

(** Every call that is not ignored adds one to [stats.totalMessages],
    whether or not the id was already stored. *)
Lemma addMessage_counts now jid m s :
  fromMe m && historySyncNotification m = false →
  totalMessages (stats (addMessage jidNormalizedUser now jid m s))
  = (totalMessages (stats s) + 1)%Z.
Proof.
  intros Hm. unfold addMessage. rewrite Hm.
  case_match; simpl; unfold ensure_chat; by case_match.
Qed.

(** C2. Adding the same message twice to a new store leaves one entry for
    its id in the chat, the second call overwriting the value stored by
    the first, but [stats.totalMessages] is 1 after the first call and 2
    after the second: the second ingestion is counted again. *)
Theorem reingestion_counted_twice (now1 now2 : Z) :
  let m := message_at "m1" 1 in
  let s0 := makeInMemoryStore "baileys_store.json" no_options in
  let s1 := addMessage jidNormalizedUser now1 "A" m s0 in
  let s2 := addMessage jidNormalizedUser now2 "A" m s1 in
  chat_messages (jid_of jidNormalizedUser "A") s1 = [("m1", Stored m now1 true)]
  ∧ chat_messages (jid_of jidNormalizedUser "A") s2 = [("m1", Stored m now2 true)]
  ∧ totalMessages (stats s1) = 1%Z
  ∧ totalMessages (stats s2) = 2%Z.
Proof.
  intros m s0 s1 s2.
  pose proof (chat_messages_insert jidNormalizedUser (AddMessage now1 "A" m)
                (jid_of jidNormalizedUser "A") s0) as H1.
  pose proof (chat_messages_insert jidNormalizedUser (AddMessage now2 "A" m)
                (jid_of jidNormalizedUser "A") s1) as H2.
  cbn [insert chat_of ignored written] in H1, H2.
  rewrite decide_True in H1, H2 by done.
  fold s1 in H1. fold s2 in H2.
  assert (Hcfg : cfg s1 = cfg s0)
    by apply (insert_cfg jidNormalizedUser (AddMessage now1 "A" m)).
  split_and!.
  - rewrite H1. reflexivity.
  - rewrite H2, Hcfg, H1. reflexivity.
  - unfold s1. by rewrite addMessage_counts.
  - unfold s2, s1. by rewrite !addMessage_counts.
Qed.
End reingestion.

(** ** Merging a chat update *)

Section chat_update.
Variable string_gt_zero : string → bool.
Variable number_to_string : Z → string.

Lemma heap_emit n s : heap (emit n s) = heap s.
Proof. done. Qed.

Lemma deref_assign l o s :
  l < length (heap s) →
  deref (heap (assign l o s)) l = spread (deref (heap s) l) o.
Proof.
  intros Hl. unfold assign, deref. simpl.
  by rewrite list_lookup_insert_eq.
Qed.

Lemma lookup_spread (a b : obj) f :
  spread a b !! f = match b !! f with Some v => Some v | None => a !! f end.
Proof.
  unfold spread. destruct (b !! f) as [v|] eqn:E.
  - by apply lookup_union_Some_l.
  - by rewrite lookup_union_r.
Qed.

(** The fields of the update as [updateChat] writes them: a positive
    [unreadCount] is replaced by its sum with the existing one. *)
Lemma add_unread_lookup (existing update : obj) f :
  f ≠ "unreadCount" →
  add_unread string_gt_zero number_to_string existing update !! f = update !! f.
Proof.
  intros Hf. unfold add_unread. repeat case_match; try done.
  by rewrite lookup_insert_ne.
Qed.

Lemma add_unread_not_positive (existing update : obj) :
  gt_zero string_gt_zero (update !! "unreadCount") = false →
  add_unread string_gt_zero number_to_string existing update = update.
Proof.
  unfold add_unread. destruct (update !! "unreadCount"); [|done].
  by intros ->.
Qed.

(** The chat object after [updateChat]: the fields of the update, with a
    positive [unreadCount] summed and [lastUpdated] stamped, over the fields
    the chat had. *)
Lemma updateChat_fields (now : Z) (update : obj) (s : store)
    (existing : loc) (chat : obj) (f : string) :
  JsMap.get (update !! "id") (chats s) = Some existing →
  heap s !! existing = Some chat →
  deref (heap (updateChat string_gt_zero number_to_string now update s)) existing
    !! f
  = match (<["lastUpdated" := VNum now]>
             (add_unread string_gt_zero number_to_string chat update)) !! f with
    | Some v => Some v
    | None => chat !! f
    end.
Proof.
  intros Hget Hchat.
  assert (Hl : existing < length (heap s)) by by eapply lookup_lt_Some.
  assert (Hderef : deref (heap s) existing = chat)
    by (unfold deref; by rewrite Hchat).
  unfold updateChat. rewrite Hget, Hderef.
  rewrite heap_emit, deref_assign, lookup_spread, Hderef; done.
Qed.

(** C7, as the code has it. For an update of an existing chat:
    - a positive [unreadCount] of the update is added to the existing one
      (0 if absent), and the sum is stored;
    - every other field the update names, [lastUpdated] apart, is stored
      with the update's value;
    - every field the update does not name, [lastUpdated] apart, keeps its
      value;
    - [lastUpdated] is set to the time of the call, whether or not the
      update names it. *)
Theorem updateChat_merges (now : Z) (update : obj) (s : store)
    (existing : loc) (chat : obj) :
  JsMap.get (update !! "id") (chats s) = Some existing →
  heap s !! existing = Some chat →
  let chat' :=
    deref (heap (updateChat string_gt_zero number_to_string now update s))
          existing in
  (∀ n m,
     update !! "unreadCount" = Some (VNum n) → (0 < n)%Z →
     chat !! "unreadCount" = Some (VNum m)
     ∨ (chat !! "unreadCount" = None ∧ m = 0%Z) →
     chat' !! "unreadCount" = Some (VNum (m + n)))
  ∧ (∀ f v,
       update !! f = Some v → f ≠ "lastUpdated" →
       f ≠ "unreadCount" ∨ gt_zero string_gt_zero (Some v) = false →
       chat' !! f = Some v)
  ∧ (∀ f, update !! f = None → f ≠ "lastUpdated" → chat' !! f = chat !! f)
  ∧ chat' !! "lastUpdated" = Some (VNum now).
Proof.
  intros Hget Hchat chat'.
  pose proof (λ f, updateChat_fields now update s existing chat f Hget Hchat)
    as Hchat'.
  fold chat' in Hchat'.
  split_and!.
  - intros n m Hn Hpos Hm. rewrite Hchat', lookup_insert_ne by done.
    unfold add_unread. rewrite Hn. simpl.
    assert ((0 <? n)%Z = true) as -> by by apply Z.ltb_lt.
    rewrite lookup_insert_eq.
    destruct Hm as [->|[-> ->]]; simpl; [|done].
    destruct m; simpl; done.
  - intros f v Hf Hne Hplain. rewrite Hchat', lookup_insert_ne by done.
    destruct Hplain as [Hplain|Hplain].
    + by rewrite add_unread_lookup, Hf.
    + destruct (decide (f = "unreadCount")) as [->|];
        [|by rewrite add_unread_lookup, Hf].
      rewrite add_unread_not_positive, Hf; [done | by rewrite Hf].
  - intros f Hf Hne. rewrite Hchat', lookup_insert_ne by done.
    destruct (decide (f = "unreadCount")) as [->|].
    + rewrite add_unread_not_positive, Hf; [done | by rewrite Hf].
    + by rewrite add_unread_lookup, Hf.
  - by rewrite Hchat', lookup_insert_eq.
Qed.
End chat_update.

(** ** Backups *)

(** C9, as the code has it. [hasBackupData] is true exactly when the
    backed-up chats, messages or contacts are not all empty; the backed-up
    group metadata is not looked at. *)
Theorem hasBackupData_three_maps (s : store) :
  hasBackupData s = true
  ↔ backup_chats (backupData s) ≠ []
    ∨ backup_messages (backupData s) ≠ []
    ∨ backup_contacts (backupData s) ≠ [].
Proof.
  unfold hasBackupData, JsMap.size.
  destruct (backup_chats (backupData s)), (backup_messages (backupData s)),
    (backup_contacts (backupData s)); simpl; split; intros; try done;
    try (left; done); try (right; left; done); try (right; right; done).
  destruct H as [|[|]]; done.
Qed.

(** ** Bulk loops *)

Section batches.
Context {A S : Type} (step : S → A → S).

Lemma slices_concat (fuel batch : nat) (l : list A) :
  0 < batch → length l ≤ fuel → concat (slices fuel batch l) = l.
Proof.
  intros Hb. revert l. induction fuel as [|fuel IH]; intros l Hl.
  - destruct l; [done | simpl in Hl; lia].
  - destruct l as [|x l]; [done|].
    cbn [slices concat]. rewrite IH.
    + apply take_drop.
    + rewrite length_drop. simpl in *. lia.
Qed.

Lemma in_batches_concat (limit : nat) (l : list A) :
  0 < limit → concat (in_batches limit l) = l.
Proof.
  intros Hlimit. unfold in_batches. destruct l as [|x l]; [done|].
  apply slices_concat; [simpl; lia | done].
Qed.

Lemma foldl_concat (s : S) (ls : list (list A)) :
  foldl (λ s batch, foldl step s batch) s ls = foldl step s (concat ls).
Proof.
  revert s. induction ls as [|l ls IH]; intros s; simpl; [done|].
  by rewrite foldl_app, IH.
Qed.

(** Walking a list in batches visits its elements once each, in order. *)
Lemma foldl_in_batches (limit : nat) (s : S) (l : list A) :
  0 < limit →
  foldl (λ s batch, foldl step s batch) s (in_batches limit l) = foldl step s l.
Proof. intros. by rewrite foldl_concat, in_batches_concat. Qed.
End batches.

Section write_facts.
Import JsMapFacts.
Variable number_to_string : Z → string.
Variable JSON_stringify : snapshot → string.

Lemma acquireWriteLock_free polls k s :
  JsMap.has k (writeLocks s) = false →
  acquireWriteLock polls k s
  = Some (with_writeLocks (JsMap.set k true (writeLocks s)) s).
Proof. intros Hfree. destruct polls; simpl; by rewrite Hfree. Qed.

(** A caller that finds the lock taken waits for ever: however often it
    polls, it does not get the lock. *)
Lemma acquireWriteLock_held polls k s :
  JsMap.has k (writeLocks s) = true → acquireWriteLock polls k s = None.
Proof.
  intros Hheld. induction polls as [|polls IH]; simpl; by rewrite Hheld.
Qed.

Lemma released_free k s : JsMap.has k (writeLocks (releaseWriteLock k s)) = false.
Proof. simpl. apply has_false, get_delete_eq. Qed.

(** A call of [writeToFile] on its own returns, leaves the data alone and
    leaves the lock free. *)
Lemma writeToFile_returns polls now file s n :
  lock_free s →
  ∃ s' n',
    writeToFile number_to_string JSON_stringify polls now file (s, n)
    = Some (s', n')
    ∧ data s' = data s ∧ cfg s' = cfg s ∧ backupData s' = backupData s
    ∧ isProcessingHistory s' = isProcessingHistory s
    ∧ hasInitialData s' = hasInitialData s
    ∧ syncStartTime s' = syncStartTime s
    ∧ lock_free s'.
Proof.
  intros Hfree. unfold writeToFile, writeToFile_enter.
  destruct (isWriting s); [by eexists _, _|].
  destruct (hasValidData s); simpl; [|by eexists _, _].
  unfold writeToFile_body.
  rewrite acquireWriteLock_free by done.
  destruct (writeToFileInternal _ _ _ _ _ _) as [[e|[]] n'];
    unfold writeToFile_finally; simpl;
    destruct (pendingWrites s); eexists _, _;
    (split; [reflexivity|]); split_and!; try done;
    unfold lock_free; simpl; apply has_false, get_delete_eq.
Qed.
End write_facts.

Section bulk_facts.
Import JsMapFacts.
Variable jidNormalizedUser : key → string.

(** *** Chats *)

Lemma chats_new_chat id o s :
  chats (new_chat id o s) = JsMap.set id (length (heap s)) (chats s).
Proof. done. Qed.

Lemma has_set {K V} `{EqDecision K} (k k' : K) (v : V) (m : jsmap K V) :
  JsMap.has k' (JsMap.set k v m) = true ↔ k = k' ∨ JsMap.has k' m = true.
Proof.
  unfold JsMap.has. destruct (decide (k = k')) as [->|Hne].
  - rewrite get_set_eq. split; [by left | done].
  - rewrite get_set_ne by done. split; [by right | by intros [|]].
Qed.

Lemma processChatsOptimized_fold now l s :
  processChatsOptimized now l s = foldl (add_chat now) s l.
Proof. unfold processChatsOptimized. by rewrite foldl_in_batches by lia. Qed.

Lemma add_chat_frame now s chat :
  messages (add_chat now s chat) = messages s
  ∧ contacts (add_chat now s chat) = contacts s
  ∧ groupMetadata (add_chat now s chat) = groupMetadata s
  ∧ ∃ more, heap (add_chat now s chat) = heap s ++ more.
Proof.
  unfold add_chat. case_match; simpl; split_and!; try done.
  - exists []. by rewrite app_nil_r.
  - by eexists.
Qed.

Lemma processChats_frame now l s :
  messages (processChatsOptimized now l s) = messages s
  ∧ contacts (processChatsOptimized now l s) = contacts s
  ∧ groupMetadata (processChatsOptimized now l s) = groupMetadata s
  ∧ ∃ more, heap (processChatsOptimized now l s) = heap s ++ more.
Proof.
  rewrite processChatsOptimized_fold. revert s.
  induction l as [|chat l IH]; intros s; simpl.
  - split_and!; try done. exists []. by rewrite app_nil_r.
  - destruct (IH (add_chat now s chat)) as (-> & -> & -> & more & ->).
    destruct (add_chat_frame now s chat) as (-> & -> & -> & more' & ->).
    split_and!; try done. exists (more' ++ more). by rewrite app_assoc.
Qed.

(** A chat that is there stays, with the reference it had. *)
Lemma processChats_keeps now l s id r :
  JsMap.get id (chats s) = Some r →
  JsMap.get id (chats (processChatsOptimized now l s)) = Some r.
Proof.
  rewrite processChatsOptimized_fold. revert s.
  induction l as [|chat l IH]; intros s Hid; simpl; [done|].
  apply IH. unfold add_chat. destruct (JsMap.has _ _) eqn:E; [done|]. simpl.
  rewrite get_set_ne; [done|].
  intros Heq. apply has_false in E. rewrite Heq in E. congruence.
Qed.

(** A chat that is there afterwards was there or came with the batch. *)
Lemma processChats_origin now l s id :
  JsMap.has id (chats (processChatsOptimized now l s)) = true →
  JsMap.has id (chats s) = true ∨ id ∈ (λ chat : obj, chat !! "id") <$> l.
Proof.
  rewrite processChatsOptimized_fold. revert s.
  induction l as [|chat l IH]; intros s Hid; simpl in *; [by left|].
  apply IH in Hid as [Hid|Hid]; [|right; by right].
  unfold add_chat in Hid. destruct (JsMap.has (chat !! "id") _) eqn:E; [by left|].
  simpl in Hid. destruct (decide (chat !! "id" = id)) as [<-|Hne].
  - right. left.
  - left. unfold JsMap.has in *. by rewrite get_set_ne in Hid.
Qed.

(** Every chat of the batch is there afterwards. *)
Lemma processChats_present now l s chat :
  chat ∈ l → JsMap.has (chat !! "id") (chats (processChatsOptimized now l s)) = true.
Proof.
  rewrite processChatsOptimized_fold. revert s.
  induction l as [|c l IH]; intros s Hin; [by apply elem_of_nil in Hin|].
  apply elem_of_cons in Hin as [->|Hin]; simpl; [|by apply IH].
  assert (Hnow : JsMap.has (c !! "id") (chats (add_chat now s c)) = true).
  { unfold add_chat. destruct (JsMap.has (c !! "id") (chats s)) eqn:E; [done|].
    rewrite chats_new_chat. apply has_set. by left. }
  unfold JsMap.has in Hnow.
  destruct (JsMap.get _ (chats (add_chat now s c))) as [r|] eqn:E; [|done].
  pose proof (processChats_keeps now l _ _ _ E) as Hkeep.
  rewrite processChatsOptimized_fold in Hkeep.
  unfold JsMap.has. by rewrite Hkeep.
Qed.

(** *** Contacts *)

Local Abbreviation add_contact := (add_contact jidNormalizedUser).

Lemma processContactsOptimized_fold now l s :
  processContactsOptimized jidNormalizedUser now l s
  = foldl (add_contact now) s l.
Proof. unfold processContactsOptimized. by rewrite foldl_in_batches by lia. Qed.

Lemma processContacts_frame now l s :
  heap (processContactsOptimized jidNormalizedUser now l s) = heap s
  ∧ chats (processContactsOptimized jidNormalizedUser now l s) = chats s
  ∧ messages (processContactsOptimized jidNormalizedUser now l s) = messages s
  ∧ groupMetadata (processContactsOptimized jidNormalizedUser now l s)
    = groupMetadata s.
Proof.
  rewrite processContactsOptimized_fold. revert s.
  induction l as [|c l IH]; intros s; simpl; [done|].
  by destruct (IH (add_contact now s c)) as (-> & -> & -> & ->).
Qed.

Lemma processContacts_keeps now l s jid :
  JsMap.has jid (contacts s) = true →
  JsMap.has jid (contacts (processContactsOptimized jidNormalizedUser now l s))
  = true.
Proof.
  rewrite processContactsOptimized_fold. revert s.
  induction l as [|c l IH]; intros s Hjid; simpl; [done|].
  apply IH. simpl. apply has_set. by right.
Qed.

Lemma processContacts_present now l s contact :
  contact ∈ l →
  JsMap.has (jidNormalizedUser (contact !! "id"))
            (contacts (processContactsOptimized jidNormalizedUser now l s))
  = true.
Proof.
  intros Hin. rewrite processContactsOptimized_fold. revert s.
  induction l as [|c l IH]; intros s; [by apply elem_of_nil in Hin|].
  apply elem_of_cons in Hin as [->|Hin]; simpl; [|by apply IH].
  pose proof (processContacts_keeps now l (add_contact now s c)
                (jidNormalizedUser (c !! "id"))) as Hkeep.
  rewrite processContactsOptimized_fold in Hkeep. apply Hkeep.
  simpl. apply has_set. by left.
Qed.
End bulk_facts.

Section bulk_message_facts.
Import JsMapFacts.
Variable jidNormalizedUser : key → string.

Local Abbreviation jids_of := (jids_of jidNormalizedUser).

Lemma processChatMessages_frame now jid msgs s :
  heap (processChatMessages now jid msgs s) = heap s
  ∧ chats (processChatMessages now jid msgs s) = chats s
  ∧ contacts (processChatMessages now jid msgs s) = contacts s
  ∧ groupMetadata (processChatMessages now jid msgs s) = groupMetadata s.
Proof.
  unfold processChatMessages, ensure_chat. simpl. by case_match.
Qed.

Lemma processChatMessages_has now jid msgs s jid' :
  JsMap.has jid' (messages (processChatMessages now jid msgs s)) = true
  ↔ jid = jid' ∨ JsMap.has jid' (messages s) = true.
Proof.
  unfold processChatMessages. simpl. rewrite has_set.
  unfold ensure_chat. destruct (JsMap.has jid (messages s)) eqn:E; [done|].
  simpl. rewrite has_set. tauto.
Qed.

Lemma processChatMessages_other now jid msgs s jid' :
  jid ≠ jid' →
  JsMap.get jid' (messages (processChatMessages now jid msgs s))
  = JsMap.get jid' (messages s).
Proof.
  intros Hne. unfold processChatMessages. simpl. rewrite get_set_ne by done.
  unfold ensure_chat. destruct (JsMap.has jid (messages s)); [done|].
  simpl. by rewrite get_set_ne.
Qed.

Lemma group_by_chat_has l jid :
  JsMap.has jid (group_by_chat jidNormalizedUser l) = true ↔ jid ∈ jids_of l.
Proof.
  unfold group_by_chat, jids_of.
  assert (Hgen : ∀ g,
    JsMap.has jid
      (foldl (λ messagesByChat msg,
                let jid := jid_of jidNormalizedUser (remoteJid (msg_key msg)) in
                let messagesByChat :=
                  if JsMap.has jid messagesByChat then messagesByChat
                  else JsMap.set jid [] messagesByChat in
                JsMap.set jid
                  (default [] (JsMap.get jid messagesByChat) ++ [msg])
                  messagesByChat) g l) = true
    ↔ JsMap.has jid g = true
      ∨ jid ∈ (λ msg, jid_of jidNormalizedUser (remoteJid (msg_key msg))) <$> l).
  { induction l as [|msg l IH]; intros g; simpl.
    - split; [by left | intros [|[]%elem_of_nil]; done].
    - rewrite IH, elem_of_cons, has_set.
      destruct (JsMap.has _ g) eqn:E; [|rewrite has_set]; intuition congruence. }
  rewrite Hgen. split; [intros [|]; done | by right].
Qed.

Lemma processMessages_frame now l s :
  heap (processMessagesOptimized jidNormalizedUser now l s) = heap s
  ∧ chats (processMessagesOptimized jidNormalizedUser now l s) = chats s
  ∧ contacts (processMessagesOptimized jidNormalizedUser now l s) = contacts s
  ∧ groupMetadata (processMessagesOptimized jidNormalizedUser now l s)
    = groupMetadata s.
Proof.
  unfold processMessagesOptimized.
  generalize (group_by_chat jidNormalizedUser l). intros g. revert s.
  induction g as [|[jid msgs] g IH]; intros s; simpl; [done|].
  destruct (IH (processChatMessages now jid msgs s)) as (-> & -> & -> & ->).
  apply processChatMessages_frame.
Qed.

(** The message maps afterwards belong to the chats that were there and to
    the chats of the batch. *)
Lemma processMessages_has now l s jid :
  JsMap.has jid (messages (processMessagesOptimized jidNormalizedUser now l s))
  = true
  ↔ JsMap.has jid (messages s) = true ∨ jid ∈ jids_of l.
Proof.
  rewrite <- group_by_chat_has. unfold processMessagesOptimized.
  generalize (group_by_chat jidNormalizedUser l). intros g. revert s.
  induction g as [|[j msgs] g IH]; intros s; simpl.
  - split; [by left | by intros [|]].
  - rewrite IH, processChatMessages_has.
    change (JsMap.has jid ((j, msgs) :: g)) with
      (match (if decide (jid = j) then Some msgs else JsMap.get jid g) with
       | Some _ => true | None => false end).
    fold (JsMap.has jid g). destruct (decide (jid = j)); intuition congruence.
Qed.

(** The messages of a chat the batch does not write to are left alone. *)
Lemma processMessages_other now l s jid :
  jid ∉ jids_of l →
  JsMap.get jid (messages (processMessagesOptimized jidNormalizedUser now l s))
  = JsMap.get jid (messages s).
Proof.
  rewrite <- group_by_chat_has. unfold processMessagesOptimized.
  generalize (group_by_chat jidNormalizedUser l). intros g. revert s.
  induction g as [|[j msgs] g IH]; intros s Hjid; simpl; [done|].
  assert (Hne : j ≠ jid).
  { intros ->. apply Hjid. unfold JsMap.has. simpl. by rewrite decide_True. }
  rewrite IH, processChatMessages_other; [done | done |].
  intros Hg. apply Hjid. unfold JsMap.has in *. simpl.
  by rewrite decide_False.
Qed.
End bulk_message_facts.

(** ** History batches *)

Section history_facts.
Import JsMapFacts.
Variable jidNormalizedUser : key → string.
Variable number_to_string : Z → string.
Variable JSON_stringify : snapshot → string.

Local Abbreviation merge_history := (merge_history jidNormalizedUser).
Local Abbreviation processHistorySet :=
  (processHistorySet jidNormalizedUser number_to_string JSON_stringify).
Local Abbreviation finalizeSyncProcess := (finalizeSyncProcess number_to_string JSON_stringify).
Local Abbreviation mark_sync_start := (mark_sync_start number_to_string JSON_stringify).

Lemma merge_history_unfold now h s :
  merge_history now h s
  = updateStats
      (processMessagesOptimized jidNormalizedUser now (newMessages h)
         (processContactsOptimized jidNormalizedUser now (newContacts h)
            (processChatsOptimized now (newChats h) (cleared h s)))).
Proof.
  unfold merge_history, cleared, clears.
  destruct (newChats h), (newContacts h), (newMessages h); reflexivity.
Qed.

Lemma merge_history_control now h s :
  control (merge_history now h s) = control s.
Proof.
  rewrite merge_history_unfold.
  change (control (updateStats ?x)) with (control x).
  unfold processMessagesOptimized.
  generalize (group_by_chat jidNormalizedUser (newMessages h)). intros g.
  assert (Hm : ∀ s, control
                      (foldl (λ s e, processChatMessages now e.1 e.2 s) s g)
                    = control s).
  { induction g as [|[j ms] g IH]; intros s0; simpl; [done|].
    rewrite IH. unfold processChatMessages, ensure_chat. simpl. by case_match. }
  rewrite Hm, (processContactsOptimized_fold jidNormalizedUser).
  assert (Hc : ∀ l s, control
    (foldl (λ s contact,
              with_contacts
                (JsMap.set (jidNormalizedUser (contact !! "id"))
                   (<["lastUpdated" := VNum now]> contact) (contacts s)) s) s l)
    = control s).
  { induction l as [|c l IH]; intros s0; simpl; [done|]. by rewrite IH. }
  rewrite Hc, processChatsOptimized_fold.
  assert (Hch : ∀ l s, control
    (foldl (λ s chat,
              if JsMap.has (chat !! "id") (chats s) then s
              else new_chat (chat !! "id") (<["syncedAt" := VNum now]> chat) s)
           s l) = control s).
  { induction l as [|c l IH]; intros s0; simpl; [done|].
    rewrite IH. by case_match. }
  rewrite Hch. unfold cleared. by case_match.
Qed.

Lemma merge_history_locks now h s :
  writeLocks (merge_history now h s) = writeLocks s.
Proof.
  pose proof (merge_history_control now h s) as Hc. unfold control in Hc.
  by injection Hc.
Qed.

Lemma has_hasValidData_chats s id :
  JsMap.has id (chats s) = true → hasValidData s = true.
Proof.
  unfold hasValidData, JsMap.has, JsMap.size.
  destruct (chats s); simpl; [done | intros _; done].
Qed.

Lemma has_hasValidData_messages s jid :
  JsMap.has jid (messages s) = true → hasValidData s = true.
Proof.
  unfold hasValidData, JsMap.has, JsMap.size.
  destruct (messages s); simpl; [done | intros _; apply orb_true_iff; left;
    apply orb_true_iff; by right].
Qed.

Lemma has_hasValidData_contacts s jid :
  JsMap.has jid (contacts s) = true → hasValidData s = true.
Proof.
  unfold hasValidData, JsMap.has, JsMap.size.
  destruct (contacts s); simpl; [done | intros _; apply orb_true_iff; by right].
Qed.

(** *** What a batch does to the maps *)

Lemma merge_history_chats now h s :
  let s' := merge_history now h s in
  (∀ chat, chat ∈ newChats h → JsMap.has (chat !! "id") (chats s') = true)
  ∧ (clears h = true →
     ∀ id, JsMap.has id (chats s') = true →
           id ∈ (λ chat : obj, chat !! "id") <$> newChats h)
  ∧ (clears h = false →
     ∀ id r, JsMap.get id (chats s) = Some r →
             JsMap.get id (chats s') = Some r
             ∧ (r < length (heap s) → deref (heap s') r = deref (heap s) r)).
Proof.
  intros s'. unfold s'. rewrite merge_history_unfold. simpl.
  destruct (processMessages_frame jidNormalizedUser now (newMessages h)
    (processContactsOptimized jidNormalizedUser now (newContacts h)
       (processChatsOptimized now (newChats h) (cleared h s))))
    as (-> & -> & _).
  destruct (processContacts_frame jidNormalizedUser now (newContacts h)
    (processChatsOptimized now (newChats h) (cleared h s))) as (-> & -> & _).
  split_and!.
  - intros chat Hin. by apply processChats_present.
  - intros Hc id Hid. apply processChats_origin in Hid as [Hid|Hid]; [|done].
    unfold cleared in Hid. by rewrite Hc in Hid.
  - intros Hc id r Hid. unfold cleared. rewrite Hc.
    split; [by apply processChats_keeps|]. intros Hr.
    destruct (processChats_frame now (newChats h) s) as (_ & _ & _ & more & ->).
    unfold deref. by rewrite lookup_app_l.
Qed.

Lemma merge_history_messages now h s :
  let s' := merge_history now h s in
  (∀ jid, jid ∈ jids_of jidNormalizedUser (newMessages h) →
          JsMap.has jid (messages s') = true)
  ∧ (clears h = true →
     ∀ jid, JsMap.has jid (messages s') = true →
            jid ∈ jids_of jidNormalizedUser (newMessages h))
  ∧ (clears h = false →
     ∀ jid, (JsMap.has jid (messages s) = true →
             JsMap.has jid (messages s') = true)
            ∧ (jid ∉ jids_of jidNormalizedUser (newMessages h) →
               JsMap.get jid (messages s') = JsMap.get jid (messages s))).
Proof.
  intros s'. unfold s'. rewrite merge_history_unfold. simpl.
  set (s1 := processContactsOptimized jidNormalizedUser now (newContacts h)
               (processChatsOptimized now (newChats h) (cleared h s))).
  assert (Hs1 : messages s1 = messages (cleared h s)).
  { unfold s1.
    destruct (processContacts_frame jidNormalizedUser now (newContacts h)
      (processChatsOptimized now (newChats h) (cleared h s)))
      as (_ & _ & -> & _).
    by destruct (processChats_frame now (newChats h) (cleared h s)) as (-> & _). }
  split_and!.
  - intros jid Hin. apply processMessages_has. by right.
  - intros Hc jid Hjid. apply processMessages_has in Hjid as [Hjid|]; [|done].
    rewrite Hs1 in Hjid. unfold cleared in Hjid. by rewrite Hc in Hjid.
  - intros Hc jid.
    assert (messages s1 = messages s) as Hs by (rewrite Hs1; unfold cleared; by rewrite Hc).
    split.
    + intros Hjid. apply processMessages_has. left. by rewrite Hs.
    + intros Hout. by rewrite processMessages_other, Hs.
Qed.

Lemma merge_history_contacts now h s :
  let s' := merge_history now h s in
  (∀ contact, contact ∈ newContacts h →
              JsMap.has (jidNormalizedUser (contact !! "id")) (contacts s') = true)
  ∧ (∀ jid, JsMap.has jid (contacts s) = true →
            JsMap.has jid (contacts s') = true).
Proof.
  intros s'. unfold s'. rewrite merge_history_unfold. simpl.
  destruct (processMessages_frame jidNormalizedUser now (newMessages h)
    (processContactsOptimized jidNormalizedUser now (newContacts h)
       (processChatsOptimized now (newChats h) (cleared h s))))
    as (_ & _ & -> & _).
  split.
  - intros contact Hin. by apply processContacts_present.
  - intros jid Hjid. apply processContacts_keeps.
    destruct (processChats_frame now (newChats h) (cleared h s))
      as (_ & -> & _).
    unfold cleared. by case_match.
Qed.
End history_facts.

Section history_sync.
Import JsMapFacts.
Variable jidNormalizedUser : key → string.
Variable number_to_string : Z → string.
Variable JSON_stringify : snapshot → string.

Local Abbreviation merge_history := (merge_history jidNormalizedUser).
Local Abbreviation processHistorySet :=
  (processHistorySet jidNormalizedUser number_to_string JSON_stringify).
Local Abbreviation finalizeSyncProcess := (finalizeSyncProcess number_to_string JSON_stringify).
Local Abbreviation mark_sync_start := (mark_sync_start number_to_string JSON_stringify).

Lemma hasValidData_data s s' : data s = data s' → hasValidData s = hasValidData s'.
Proof.
  unfold data, hasValidData. intros [= _ Hc Hm Hk _]. by rewrite Hc, Hm, Hk.
Qed.

Lemma mark_sync_start_data now s n :
  data (mark_sync_start now (s, n)).1 = data s
  ∧ cfg (mark_sync_start now (s, n)).1 = cfg s
  ∧ writeLocks (mark_sync_start now (s, n)).1 = writeLocks s.
Proof.
  unfold mark_sync_start, createBackup.
  destruct (isProcessingHistory s); [done|]. simpl.
  destruct (hasValidData _); [|done].
  destruct (preserveDataDuringSync (cfg s)); [|done]. simpl.
  destruct (backupBeforeSync (cfg s)); [|done].
  by destruct (writeToFileInternal _ _ _ _ _ _).
Qed.

Lemma restoreFromBackup_locks s :
  writeLocks (restoreFromBackup s) = writeLocks s.
Proof.
  unfold restoreFromBackup. case_match; [done|]. simpl.
  generalize (backup_messages (backupData s)). intros b.
  set (s0 := with_messages [] _). change (writeLocks s) with (writeLocks s0).
  generalize s0. induction b as [|e b IH]; intros s1; simpl; [done|].
  by rewrite IH.
Qed.

(** The finalize step returns; it leaves the data alone when there is
    some. *)
Lemma finalizeSyncProcess_returns polls now s n :
  lock_free s →
  ∃ s' n',
    finalizeSyncProcess polls now (s, n) = Some (s', n')
    ∧ (hasValidData s = true → data s' = data s).
Proof.
  intros Hfree. unfold finalizeSyncProcess.
  destruct (hasValidData s) eqn:Hvalid.
  - destruct (writeToFile_returns number_to_string JSON_stringify polls now
                (storeFile (cfg s)) s n Hfree)
      as (s' & n' & -> & Hdata & _).
    eexists _, _. split; [reflexivity|]. intros _. by rewrite <- Hdata.
  - destruct (hasBackupData s).
    + assert (Hfree' : lock_free (restoreFromBackup s)).
      { unfold lock_free. by rewrite restoreFromBackup_locks. }
      destruct (writeToFile_returns number_to_string JSON_stringify polls now
                  (storeFile (cfg (restoreFromBackup s)))
                  (restoreFromBackup s) n Hfree')
        as (s' & n' & -> & _).
      eexists _, _. split; [reflexivity | done].
    + eexists _, _. split; [reflexivity | done].
Qed.

End history_sync.

Section history_claim.
Import JsMapFacts.
Variable jidNormalizedUser : key → string.
Variable number_to_string : Z → string.
Variable JSON_stringify : snapshot → string.

Lemma clears_spec h :
  clears h = true
  ↔ isLatest h = true
    ∧ (10 < length (newChats h) ∨ 100 < length (newMessages h)).
Proof.
  unfold clears.
  rewrite andb_true_iff, orb_true_iff, !Nat.ltb_lt. tauto.
Qed.

Lemma data_eq s s' :
  data s = data s' →
  heap s = heap s' ∧ chats s = chats s' ∧ messages s = messages s'
  ∧ contacts s = contacts s' ∧ groupMetadata s = groupMetadata s'.
Proof. unfold data. by intros [= -> -> -> -> ->]. Qed.

End history_claim.

(** ** Atomic writes *)

Section atomic_write.
Variable number_to_string : Z → string.
Variable JSON_stringify : snapshot → string.

Local Abbreviation tempFile := (tempFile number_to_string).
Local Abbreviation write_verify_rename := (write_verify_rename number_to_string JSON_stringify).
Local Abbreviation writeToFileInternal := (writeToFileInternal number_to_string JSON_stringify).

Lemma length_append (a b : string) :
  String.length (a ++ b)%string = String.length a + String.length b.
Proof. induction a as [|c a IH]; simpl; [done | by rewrite IH]. Qed.

(** The temporary file is never the target. *)
Lemma tempFile_fresh now file : tempFile now file ≠ file.
Proof.
  unfold tempFile. intros Heq.
  apply (f_equal String.length) in Heq.
  rewrite !length_append in Heq. simpl in Heq. lia.
Qed.

Lemma next_fault_files n : files (next_fault n).2 = files n.
Proof. unfold next_fault. by destruct (faults n). Qed.

(** What each file-system call can do to a path. *)
Lemma fs_writeFile_other path bytes n q :
  q ≠ path → files (fs_writeFile path bytes n).2 !! q = files n !! q.
Proof.
  intros Hq. unfold fs_writeFile.
  pose proof (next_fault_files n) as Hf.
  destruct (next_fault n) as [[|[k|]] n1]; simpl in *;
    rewrite ?lookup_insert_ne by done; by rewrite Hf.
Qed.

Lemma fs_writeFile_ok path bytes n n' :
  fs_writeFile path bytes n = (inr (), n') → files n' !! path = Some bytes.
Proof.
  unfold fs_writeFile.
  destruct (next_fault n) as [[|[k|]] n1]; intros [= <-]. simpl.
  apply lookup_insert_eq.
Qed.

Lemma fs_stat_files path n : files (fs_stat path n).2 = files n.
Proof.
  unfold fs_stat. pose proof (next_fault_files n) as Hf.
  destruct (next_fault n) as [[|p] n1]; simpl in *;
    destruct (files n1 !! path); done.
Qed.

Lemma fs_stat_ok path n size n' :
  fs_stat path n = (inr size, n') →
  ∃ bytes, files n' !! path = Some bytes ∧ size = String.length bytes.
Proof.
  unfold fs_stat. destruct (next_fault n) as [[|p] n1];
    destruct (files n1 !! path) as [bytes|] eqn:E; intros [= <- <-].
  by exists bytes.
Qed.

Lemma fs_rename_failed src dst n e n' :
  fs_rename src dst n = (inl e, n') → files n' = files n.
Proof.
  unfold fs_rename. pose proof (next_fault_files n) as Hf.
  destruct (next_fault n) as [[|p] n1]; simpl in *;
    destruct (files n1 !! src); intros [= <- <-]; done.
Qed.

Lemma fs_rename_ok src dst n n' :
  src ≠ dst →
  fs_rename src dst n = (inr (), n') →
  files n' !! dst = files n !! src ∧ files n' !! src = None.
Proof.
  intros Hne. unfold fs_rename. pose proof (next_fault_files n) as Hf.
  destruct (next_fault n) as [[|p] n1]; simpl in *;
    destruct (files n1 !! src) as [bytes|] eqn:E; intros [= <-]. simpl.
  rewrite lookup_insert_eq, lookup_insert_ne, lookup_delete_eq by done.
  by rewrite <- Hf, E.
Qed.

Lemma fs_unlink_other path n q :
  q ≠ path → files (fs_unlink path n).2 !! q = files n !! q.
Proof.
  intros Hq. unfold fs_unlink. pose proof (next_fault_files n) as Hf.
  destruct (next_fault n) as [[|p] n1]; simpl in *;
    destruct (files n1 !! path); simpl;
    rewrite ?lookup_delete_ne by done; by rewrite Hf.
Qed.

Lemma fs_unlink_gone path n :
  (next_fault n).1 = Works → files (fs_unlink path n).2 !! path = None.
Proof.
  unfold fs_unlink. destruct (next_fault n) as [[|p] n1]; [|done].
  intros _. destruct (files n1 !! path) eqn:E; simpl; [|done].
  apply lookup_delete_eq.
Qed.

(** The [try] block either installs the complete document, which is at
    least 10 bytes long, or leaves the target as it was. *)
Lemma write_verify_rename_spec now file data n :
  match write_verify_rename now file data n with
  | (inr _, n') =>
      files n' !! file = Some (JSON_stringify data)
      ∧ 10 ≤ String.length (JSON_stringify data)
      ∧ files n' !! tempFile now file = None
  | (inl _, n') => files n' !! file = files n !! file
  end.
Proof.
  unfold write_verify_rename.
  fold (tempFile now file).
  pose proof (tempFile_fresh now file) as Hfresh.
  pose proof (fs_writeFile_other (tempFile now file) (JSON_stringify data) n file)
    as Hw.
  destruct (fs_writeFile _ _ n) as [[e|[]] n1] eqn:Ewrite; simpl in Hw;
    [by apply Hw|].
  apply fs_writeFile_ok in Ewrite.
  pose proof (fs_stat_files (tempFile now file) n1) as Hs.
  destruct (fs_stat _ n1) as [[e|size] n2] eqn:Estat; simpl in Hs.
  { rewrite Hs. by apply Hw. }
  apply fs_stat_ok in Estat as (bytes & Hbytes & ->).
  rewrite Hs, Ewrite in Hbytes. injection Hbytes as <-.
  destruct (String.length (JSON_stringify data) <? 10) eqn:Esize.
  { rewrite Hs. by apply Hw. }
  apply Nat.ltb_ge in Esize.
  destruct (fs_rename _ file n2) as [[e|[]] n3] eqn:Erename.
  - apply fs_rename_failed in Erename. rewrite Erename, Hs. by apply Hw.
  - apply fs_rename_ok in Erename as [Hdst Hsrc]; [|done].
    by rewrite Hdst, Hs, Ewrite.
Qed.

End atomic_write.

(** ** The write serializer *)

Section write_serializer.

Lemma set_add_NoDup file pending : NoDup pending → NoDup (set_add file pending).
Proof.
  intros Hnd. unfold set_add. case_bool_decide as Hin; [done|].
  apply NoDup_app. split_and!; [done | | apply NoDup_singleton].
  intros x Hx ->%list_elem_of_singleton. done.
Qed.

Lemma enter_serialized file s n fl a s' :
  serialized (System s n fl) →
  writeToFile_enter file s = (a, s') →
  ∀ n', serialized (System s' n' (admitted a file fl)).
Proof.
  intros (Hlen & Hflag & Hnd) Henter n'. simpl in *.
  unfold writeToFile_enter in Henter.
  destruct (isWriting s) eqn:Ew.
  - injection Henter as <- <-. unfold serialized. simpl.
    split_and!; [done | by rewrite Ew | by apply set_add_NoDup].
  - destruct (hasValidData s); injection Henter as <- <-;
      unfold serialized; simpl.
    + assert (fl = []) as ->.
      { destruct fl as [|x fl]; [done|]. exfalso.
        assert (false = true) by (by apply Hflag). congruence. }
      split_and!; [simpl; lia | done | done].
    + split_and!; [done | by rewrite Ew | done].
Qed.

Lemma serialized_reachable sys : reachable sys → serialized sys.
Proof.
  induction 1 as [c fs plan|sys sys' _ IH Hstep].
  - unfold serialized. simpl. split_and!; [lia | done | constructor].
  - destruct Hstep as [file s n fl a s' He|file rest s n fl a s' _ He
                       |file earlier later s n s' n' Hf|s n fl s' n' Hw Hp _].
    + by eapply enter_serialized.
    + by eapply enter_serialized.
    + destruct IH as (Hlen & Hflag & Hnd). simpl in *.
      rewrite length_app in Hlen. simpl in Hlen.
      assert (earlier = []) as -> by (destruct earlier; [done | simpl in Hlen; lia]).
      assert (later = []) as -> by (destruct later; [done | simpl in Hlen; lia]).
      unfold writeToFile_finally in Hf. simpl in Hf.
      destruct (pendingWrites s) as [|next rest] eqn:Ep;
        injection Hf as <- <-; unfold serialized; simpl;
        rewrite ?Ep; split_and!; try done; try lia; try constructor.
      by apply NoDup_cons in Hnd as [_ ?].
    + destruct IH as (Hlen & Hflag & Hnd). unfold serialized. simpl in *.
      by rewrite Hw, Hp.
Qed.

End write_serializer.

(** ** Loading a snapshot *)

Section loading.
Import JsMapFacts.
Variable JSON_parse : string → option json.
Variable blank : string → bool.
Variable loadStoreData : json → store → store * option error.

Local Abbreviation readFromFile := (readFromFile JSON_parse blank loadStoreData).

Lemma fs_stat_works path n bytes :
  faults n = [] → files n !! path = Some bytes →
  fs_stat path n = (inr (String.length bytes), n).
Proof. intros Hf Hp. unfold fs_stat, next_fault. by rewrite Hf, Hp. Qed.

Lemma fs_stat_absent path n :
  files n !! path = None → ∃ e n', fs_stat path n = (inl e, n') ∧ files n' = files n.
Proof.
  intros Hp. unfold fs_stat, next_fault.
  destruct (faults n) as [|[|p] rest]; simpl; rewrite ?Hp; by eexists _, _.
Qed.

Lemma fs_readFile_works path n bytes :
  faults n = [] → files n !! path = Some bytes →
  fs_readFile path n = (inr bytes, n).
Proof. intros Hf Hp. unfold fs_readFile, next_fault. by rewrite Hf, Hp. Qed.

(** A missing file is no data and no error. *)
Lemma readFromFile_absent calls polls now file s n :
  lock_free s → files n !! file = None →
  ∃ s' n',
    readFromFile (S calls) polls now file (s, n) = Some (s', n')
    ∧ data s' = data s ∧ emitted s' = emitted s ∧ lock_free s'.
Proof.
  intros Hfree Hfile. simpl. rewrite acquireWriteLock_free by done.
  destruct (fs_stat_absent file n Hfile) as (e & n' & -> & _).
  eexists _, _. split; [reflexivity|]. split_and!; try done.
  unfold lock_free. simpl. apply has_false, get_delete_eq.
Qed.

(** A file below 10 bytes with no backup beside it is no data and no
    error. *)
Lemma readFromFile_small calls polls now file s n bytes :
  lock_free s → faults n = [] →
  files n !! file = Some bytes → String.length bytes < 10 →
  files n !! backupFile file = None →
  ∃ s' n',
    readFromFile (S calls) polls now file (s, n) = Some (s', n')
    ∧ data s' = data s ∧ emitted s' = emitted s ∧ lock_free s'.
Proof.
  intros Hfree Hplan Hfile Hsmall Hbackup. simpl.
  rewrite acquireWriteLock_free by done.
  rewrite (fs_stat_works file n bytes) by done.
  assert ((String.length bytes <? 10) = true) as -> by by apply Nat.ltb_lt.
  destruct (fs_stat_absent (backupFile file) n Hbackup) as (e & n' & -> & _).
  eexists _, _. split; [reflexivity|]. split_and!; try done.
  unfold lock_free. simpl. apply has_false, get_delete_eq.
Qed.

(** A document that fails [validateStoreData] is reported with
    [store.error] and the maps are not touched. *)
Lemma readFromFile_invalid calls polls now file s n bytes doc :
  lock_free s → faults n = [] →
  files n !! file = Some bytes → 10 ≤ String.length bytes →
  blank bytes = false → JSON_parse bytes = Some doc →
  validateStoreData doc = false →
  ∃ s' n',
    readFromFile (S calls) polls now file (s, n) = Some (s', n')
    ∧ data s' = data s
    ∧ emitted s' = emitted s ++ [store_error (Error "Invalid store data structure")]
    ∧ lock_free s'.
Proof.
  intros Hfree Hplan Hfile Hsize Hblank Hparse Hinvalid. simpl.
  rewrite acquireWriteLock_free by done.
  rewrite (fs_stat_works file n bytes) by done.
  assert ((String.length bytes <? 10) = false) as -> by by apply Nat.ltb_ge.
  rewrite (fs_readFile_works file n bytes) by done.
  rewrite Hblank, Hparse, Hinvalid. simpl.
  eexists _, _. split; [reflexivity|]. split_and!; try done.
  unfold lock_free. simpl. apply has_false, get_delete_eq.
Qed.

(** C8. When the snapshot file is below 10 bytes and a backup above 10
    bytes lies beside it, [readFromFile] calls itself on the backup while it
    still holds the file lock.  The nested call polls for that lock and
    never gets it: however many calls and polls are allowed, no result is
    returned, so the backup is never loaded. *)
Theorem readFromFile_backup_never_returns
    (calls polls : nat) (now : Z) (file : string) (s : store) (n : node)
    (bytes backup : string) :
  lock_free s →
  faults n = [] →
  files n !! file = Some bytes →
  String.length bytes < 10 →
  files n !! backupFile file = Some backup →
  10 < String.length backup →
  readFromFile calls polls now file (s, n) = None.
Proof.
  intros Hfree Hplan Hfile Hsmall Hbackup Hbig.
  destruct calls as [|calls]; [done|]. simpl.
  rewrite acquireWriteLock_free by done.
  rewrite (fs_stat_works file n bytes) by done.
  assert ((String.length bytes <? 10) = true) as -> by by apply Nat.ltb_lt.
  rewrite (fs_stat_works (backupFile file) n backup) by done.
  assert ((10 <? String.length backup) = true) as -> by by apply Nat.ltb_lt.
  destruct calls as [|calls]; [done|]. simpl.
  rewrite acquireWriteLock_held; [done|].
  simpl. unfold JsMap.has. by rewrite get_set_eq.
Qed.
End loading.

(** ** Events during a history sync *)

Section binder.
Import JsMapFacts.
Variable jidNormalizedUser : key → string.
Variable string_gt_zero : string → bool.
Variable number_to_string : Z → string.
Variable JSON_stringify : snapshot → string.

Local Abbreviation handle :=
  (handle jidNormalizedUser string_gt_zero number_to_string JSON_stringify).

(** C10. While [isProcessingHistory] is set
    - a [chats.upsert] event, whatever its size, leaves the store and the
      runtime exactly as they were;
    - a [chats.update] event is applied: each update goes through
      [updateChat], and an update of an existing chat stamps it with the
      time of the event;
    - a [contacts.upsert] event is applied: the contact is stored, merged
      over what was known of it;
    - a [groups.update] event is applied: the metadata is stored, merged
      over what was known of the group. *)
Theorem chats_upsert_dropped_during_sync
    (polls : nat) (now : Z) (s : store) (n : node) :
  isProcessingHistory s = true →
  (∀ newChats, handle polls now (chats_upsert newChats) (s, n) = Some (s, n))
  ∧ (∀ updates,
       handle polls now (chats_update updates) (s, n)
       = Some (foldl (λ s update,
                        updateChat string_gt_zero number_to_string now update s)
                     s updates, n))
  ∧ (∀ update existing chat,
       JsMap.get (update !! "id") (chats s) = Some existing →
       heap s !! existing = Some chat →
       ∃ s', handle polls now (chats_update [update]) (s, n) = Some (s', n)
             ∧ deref (heap s') existing !! "lastUpdated" = Some (VNum now))
  ∧ (∀ contact,
       ∃ s', handle polls now (contacts_upsert [contact]) (s, n) = Some (s', n)
             ∧ JsMap.get (jidNormalizedUser (contact !! "id")) (contacts s')
               = Some (<["lastUpdated" := VNum now]>
                         (spread
                            (default ∅
                               (JsMap.get (jidNormalizedUser (contact !! "id"))
                                          (contacts s)))
                            contact)))
  ∧ (∀ update,
       ∃ s', handle polls now (groups_update [update]) (s, n) = Some (s', n)
             ∧ JsMap.get (update !! "id") (groupMetadata s')
               = Some (<["lastUpdated" := VNum now]>
                         (spread
                            (default ∅ (JsMap.get (update !! "id")
                                                  (groupMetadata s)))
                            update))).
Proof.
  intros Hsync. split_and!.
  - intros newChats. unfold handle. by rewrite Hsync.
  - done.
  - intros update existing chat Hget Hchat. eexists. split; [reflexivity|].
    cbn [foldl].
    by rewrite (updateChat_fields string_gt_zero number_to_string now update s
                  existing chat "lastUpdated" Hget Hchat), lookup_insert_eq.
  - intros contact. eexists. split; [reflexivity|].
    simpl. by rewrite get_set_eq.
  - intros update. eexists. split; [reflexivity|].
    cbn [foldl]. unfold updateGroupMetadata. cbv zeta.
    destruct (isProcessingHistory _); simpl; by rewrite get_set_eq.
Qed.
End binder.

(** ** Backup and restore *)

Section backup_restore.
Import JsMapFacts.
Variable jidNormalizedUser : key → string.
Variable string_gt_zero : string → bool.
Variable number_to_string : Z → string.
Variable JSON_stringify : snapshot → string.

Local Abbreviation createBackup := (createBackup number_to_string JSON_stringify).
Local Abbreviation updateChat := (updateChat string_gt_zero number_to_string).
Local Abbreviation mutate :=
  (mutate jidNormalizedUser string_gt_zero number_to_string).

Lemma mutate_control m s : control (mutate m s) = control s.
Proof.
  destruct m as [now chat|now update|now jid msg|now cs|now h]; simpl.
  - unfold upsertChat. repeat case_match; done.
  - unfold updateChat. by case_match.
  - unfold addMessage, ensure_chat. repeat case_match; done.
  - unfold processContactsUpsert. revert s.
    induction cs as [|c cs IH]; intros s; simpl; [done|]. by rewrite IH.
  - apply merge_history_control.
Qed.

Lemma mutations_control ms s : control (foldl (λ s m, mutate m s) s ms) = control s.
Proof.
  revert s. induction ms as [|m ms IH]; intros s; simpl; [done|].
  by rewrite IH, mutate_control.
Qed.

Lemma createBackup_store now s n :
  preserveDataDuringSync (cfg s) = true →
  (createBackup now (s, n)).1 = backup_in_memory s.
Proof.
  intros Hp. unfold createBackup. rewrite Hp. simpl.
  destruct (backupBeforeSync (cfg s)); [|done].
  by destruct (writeToFileInternal _ _ _ _ _ _).
Qed.

(** Copying the messages map, inner maps included, gives equal maps. *)
Lemma copy_messages (acc l : jsmap string (jsmap string stored_message)) :
  wf (acc ++ l) → (∀ jid m, (jid, m) ∈ l → wf m) →
  foldl (λ b e, JsMap.set e.1 (JsMap.of_entries e.2) b) acc l = acc ++ l.
Proof.
  revert acc. induction l as [|[jid m] l IH]; intros acc Hwf Hin; simpl.
  - by rewrite app_nil_r.
  - rewrite of_entries_wf by (apply (Hin jid); left).
    rewrite set_absent.
    + rewrite IH.
      * by rewrite <- app_assoc.
      * by rewrite <- app_assoc.
      * intros j m' Hj. apply (Hin j). by right.
    + apply get_None. unfold wf, JsMap.keys in Hwf.
      rewrite fmap_app in Hwf. apply NoDup_app in Hwf as (_ & Hdisj & _).
      intros Hk. apply (Hdisj jid Hk). simpl. left.
Qed.

Lemma backup_in_memory_copy s :
  maps_wf s →
  backupData (backup_in_memory s)
  = Backup (chats s) (messages s) (contacts s) (groupMetadata s).
Proof.
  intros (Hc & Hm & Hin & Hk & Hg). unfold backup_in_memory. simpl.
  by rewrite !of_entries_wf, (copy_messages [] (messages s)).
Qed.

Lemma restore_messages b s :
  messages
    (foldl (λ s e, with_messages
                     (JsMap.set e.1 (JsMap.of_entries e.2) (messages s)) s) s b)
  = foldl (λ b e, JsMap.set e.1 (JsMap.of_entries e.2) b) (messages s) b
  ∧ chats (foldl (λ s e, with_messages
                     (JsMap.set e.1 (JsMap.of_entries e.2) (messages s)) s) s b)
    = chats s
  ∧ contacts (foldl (λ s e, with_messages
                     (JsMap.set e.1 (JsMap.of_entries e.2) (messages s)) s) s b)
    = contacts s
  ∧ groupMetadata (foldl (λ s e, with_messages
                     (JsMap.set e.1 (JsMap.of_entries e.2) (messages s)) s) s b)
    = groupMetadata s.
Proof.
  revert s. induction b as [|e b IH]; intros s; simpl; [done|].
  by destruct (IH (with_messages
                     (JsMap.set e.1 (JsMap.of_entries e.2) (messages s)) s))
    as (-> & -> & -> & ->).
Qed.

Lemma restoreFromBackup_maps s :
  preserveDataDuringSync (cfg s) = true → hasBackupData s = true →
  chats (restoreFromBackup s) = JsMap.of_entries (backup_chats (backupData s))
  ∧ messages (restoreFromBackup s)
    = foldl (λ b e, JsMap.set e.1 (JsMap.of_entries e.2) b) []
            (backup_messages (backupData s))
  ∧ contacts (restoreFromBackup s)
    = JsMap.of_entries (backup_contacts (backupData s))
  ∧ groupMetadata (restoreFromBackup s)
    = JsMap.of_entries (backup_groupMetadata (backupData s)).
Proof.
  intros Hp Hb. unfold restoreFromBackup. rewrite Hp, Hb.
  cbn [negb orb].
  change (chats (updateStats ?x)) with (chats x).
  change (messages (updateStats ?x)) with (messages x).
  change (contacts (updateStats ?x)) with (contacts x).
  change (groupMetadata (updateStats ?x)) with (groupMetadata x).
  match goal with
  | |- context [foldl _ ?s0 ?b] =>
      destruct (restore_messages b s0) as (-> & -> & -> & ->)
  end.
  done.
Qed.


(** C3. Take a new store with one chat "A" whose [unreadCount] is 1, make
    the backup, let a [chats.update] with [unreadCount] 2 arrive, and
    restore.  The chats map of the backup holds the very object the live
    map holds, and [updateChat] writes into that object: the restored chat
    has [unreadCount] 3 and the [lastUpdated] of the update, not the
    values it had when the backup was made. *)
Theorem backup_shares_chat_objects (n : node) :
  let before :=
    upsertChat 1 {[ "id" := VStr "A"; "unreadCount" := VNum 1 ]}
      (makeInMemoryStore "baileys_store.json" no_options) in
  let synced :=
    updateChat 9 {[ "id" := VStr "A"; "unreadCount" := VNum 2 ]}
      (createBackup 2 (before, n)).1 in
  let restored := restoreFromBackup synced in
  hasValidData before = true
  ∧ chat_entries before
    = [(Some (VStr "A"),
        {[ "id" := VStr "A"; "unreadCount" := VNum 1;
           "createdAt" := VNum 1; "lastUpdated" := VNum 1 ]})]
  ∧ chat_entries restored
    = [(Some (VStr "A"),
        {[ "id" := VStr "A"; "unreadCount" := VNum 3;
           "createdAt" := VNum 1; "lastUpdated" := VNum 9 ]})].
Proof.
  intros before synced restored. unfold restored, synced.
  rewrite createBackup_store by done.
  split_and!; [done | by vm_compute | by vm_compute].
Qed.
End backup_restore.

(** * Further properties of the code *)

(** ** Queries *)

Section slice_facts.
Context {A : Type}.
Implicit Types (l : list A).

Lemma js_slice_from l start stop :
  (0 ≤ start)%Z → (0 ≤ stop)%Z →
  js_slice start stop l
  = take (Z.to_nat stop - Z.to_nat start) (drop (Z.to_nat start) l).
Proof.
  intros Hstart Hstop. unfold js_slice.
  assert ((start <? 0)%Z = false) as -> by by apply Z.ltb_ge.
  assert ((stop <? 0)%Z = false) as -> by by apply Z.ltb_ge.
  destruct (decide (start ≤ Z.of_nat (length l))%Z) as [Hin|Hout].
  - rewrite (Z.min_l start) by done.
    destruct (decide (stop ≤ Z.of_nat (length l))%Z).
    + rewrite (Z.min_l stop) by done. f_equal. lia.
    + rewrite (Z.min_r stop) by lia.
      rewrite !take_ge; [done | rewrite length_drop; lia | rewrite length_drop; lia].
  - rewrite (Z.min_r start) by lia.
    rewrite !drop_ge by lia. by rewrite !take_nil.
Qed.

Lemma js_slice_sublist l start stop : js_slice start stop l `sublist_of` l.
Proof.
  unfold js_slice. etrans; [apply sublist_take | apply sublist_drop].
Qed.

Lemma js_slice_length l start stop :
  (start ≤ stop)%Z → length (js_slice start stop l) ≤ Z.to_nat (stop - start).
Proof.
  intros Hle. unfold js_slice. rewrite length_take.
  destruct (Z.ltb_spec start 0); destruct (Z.ltb_spec stop 0); lia.
Qed.

Lemma js_slice_sorted (R : relation A) l start stop :
  StronglySorted R l → StronglySorted R (js_slice start stop l).
Proof.
  intros Hl. unfold js_slice. cbv zeta.
  assert (Hgen : ∀ t d, StronglySorted R (take t (drop d l))); [|apply Hgen].
  intros t d.
  rewrite <- (take_drop d l) in Hl. apply StronglySorted_app_1_r in Hl.
  rewrite <- (take_drop t (drop d l)) in Hl.
  by apply StronglySorted_app_1_l in Hl.
Qed.
End slice_facts.

Lemma StronglySorted_weaken {A} (R1 R2 : relation A) (l : list A) :
  (∀ a b, R1 a b → R2 a b) → StronglySorted R1 l → StronglySorted R2 l.
Proof.
  intros HR. induction 1 as [|x l _ IH Hx]; constructor; [done|].
  eapply Forall_impl; [exact Hx | auto].
Qed.

Section sort_head.
Context {A : Type} (cmp : A → A → Z) (f : A → Z).
Hypothesis cmp_spec : ∀ x y, (cmp x y ≤ 0 ↔ f x ≤ f y)%Z.

(** The first element of the sorted array is the first of the least
    elements of the array. *)
Lemma js_sort_head l x :
  head (js_sort cmp l) = Some x →
  ∃ l1 l2, l = l1 ++ x :: l2
    ∧ Forall (λ a, f x < f a)%Z l1 ∧ Forall (λ a, f x ≤ f a)%Z l2.
Proof.
  revert x. induction l as [|y l IH]; intros x; simpl; [done|].
  destruct (js_sort cmp l) as [|h t] eqn:E.
  - assert (l = []) as ->.
    { apply Permutation_nil_r. rewrite <- E. symmetry. apply js_sort_perm. }
    simpl. intros [= <-]. exists [], []. by split_and!.
  - destruct (IH h eq_refl) as (l1 & l2 & -> & H1 & H2).
    simpl. destruct (cmp y h <=? 0)%Z eqn:Ec; simpl; intros [= <-].
    + apply Z.leb_le, cmp_spec in Ec.
      exists [], (l1 ++ h :: l2). split_and!; [done | done |].
      apply Forall_app. split; [|constructor].
      * eapply Forall_impl; [exact H1|]. simpl. intros; lia.
      * done.
      * eapply Forall_impl; [exact H2|]. simpl. intros; lia.
    + apply Z.leb_gt in Ec.
      assert (f h < f y)%Z.
      { destruct (Z.le_gt_cases (f y) (f h)) as [Hle|]; [|lia].
        apply cmp_spec in Hle. lia. }
      exists (y :: l1), l2. split_and!; [done | by constructor | done].
Qed.
End sort_head.

Section query_facts.
Import JsMapFacts.
Variable jidNormalizedUser : key → string.

Local Abbreviation jid_of := (jid_of jidNormalizedUser).
Local Abbreviation getLastMessage := (getLastMessage jidNormalizedUser).
Local Abbreviation loadMessages := (loadMessages jidNormalizedUser).
Local Abbreviation ts := timestamp_or_zero.

Lemma newest_first_spec x y : (newest_first x y ≤ 0 ↔ - ts x ≤ - ts y)%Z.
Proof. unfold newest_first. lia. Qed.

Lemma oldest_first_spec x y : (oldest_first x y ≤ 0 ↔ ts x ≤ ts y)%Z.
Proof. unfold oldest_first. lia. Qed.

(** X2. [getLastMessage] answers [null] exactly when the chat has no messages.
    Otherwise it answers a message of the chat that no message of the chat
    is newer than, and among those with that [messageTimestamp] the one
    that was stored first. *)
Theorem getLastMessage_newest (jid : string) (s : store) :
  match getLastMessage jid s with
  | None => chat_messages (jid_of jid) s = []
  | Some last =>
      ∃ earlier later,
        JsMap.values (chat_messages (jid_of jid) s) = earlier ++ last :: later
        ∧ Forall (λ m, ts m < ts last)%Z earlier
        ∧ Forall (λ m, ts m ≤ ts last)%Z later
  end.
Proof.
  unfold getLastMessage, chat_messages.
  destruct (JsMap.get _ (messages s)) as [chat|]; simpl; [|done].
  destruct chat as [|e chat]; [done|].
  change (JsMap.size (e :: chat) =? 0) with false. cbv iota.
  destruct (head _) as [last|] eqn:E.
  - apply (js_sort_head _ _ newest_first_spec) in E
      as (l1 & l2 & Heq & H1 & H2).
    exists l1, l2. split_and!; [done | |].
    + eapply Forall_impl; [exact H1|]. simpl. intros; lia.
    + eapply Forall_impl; [exact H2|]. simpl. intros; lia.
  - apply head_None in E. exfalso.
    assert (Hp := js_sort_perm newest_first (JsMap.values (e :: chat))).
    rewrite E in Hp. by apply Permutation_nil_l in Hp.
Qed.


Lemma filter_if_sublist bound keep l : filter_if bound keep l `sublist_of` l.
Proof.
  unfold filter_if. destruct bound as [b|]; [|done].
  destruct (b =? 0)%Z; [done | apply sublist_filter].
Qed.

Lemma filter_if_keeps bound keep l b :
  bound = Some b → b ≠ 0%Z →
  Forall (λ m, keep b m = true) (filter_if bound keep l).
Proof.
  intros -> Hb. unfold filter_if.
  assert ((b =? 0)%Z = false) as -> by by apply Z.eqb_neq.
  apply Forall_forall. intros m Hm. by apply list_elem_of_filter in Hm as [? _].
Qed.

(** X3. The listing of [loadMessages], which an absent and an empty
    [messageId] both ask for:
    - holds messages of the chat only, none more often than it is stored;
    - holds only messages before [before] and after [after], when these
      are given and not 0;
    - is ordered by [messageTimestamp], newest first unless [sortOrder] is
      given and is not "desc";
    - has at most [limit] messages, 50 by default, when [limit] is not
      negative. *)
Theorem loadMessages_listing (jid : string) (o : loadOptions) (s : store) :
  let stored := JsMap.values (chat_messages (jid_of jid) s) in
  let page := loadMessages jid None o s in
  loadMessages jid (Some "") o s = page
  ∧ page ⊆+ stored
  ∧ (∀ before, opt_before o = Some before → before ≠ 0%Z →
       Forall (λ m, ts m < before)%Z page)
  ∧ (∀ after, opt_after o = Some after → after ≠ 0%Z →
       Forall (λ m, after < ts m)%Z page)
  ∧ (default "desc" (opt_sortOrder o) = "desc" →
       StronglySorted (λ a b, ts b ≤ ts a)%Z page)
  ∧ (default "desc" (opt_sortOrder o) ≠ "desc" →
       StronglySorted (λ a b, ts a ≤ ts b)%Z page)
  ∧ ((0 ≤ default 50 (opt_limit o))%Z →
       length page ≤ Z.to_nat (default 50%Z (opt_limit o))).
Proof.
  unfold loadMessages, chat_messages.
  destruct (JsMap.get _ (messages s)) as [chat|]; simpl;
    [|split_and!; intros; try done; try (by constructor); lia].
  set (before_ok := filter_if (opt_before o) _ (JsMap.values chat)).
  set (after_ok := filter_if (opt_after o) _ before_ok).
  set (cmp := if bool_decide _ then newest_first else oldest_first).
  assert (Hsub : js_slice (default 0%Z (opt_offset o))
                   (default 0%Z (opt_offset o) + default 50%Z (opt_limit o))
                   (js_sort cmp after_ok) ⊆+ after_ok).
  { etrans; [apply sublist_submseteq, js_slice_sublist|].
    by rewrite js_sort_perm. }
  assert (Hin : ∀ m,
    m ∈ js_slice (default 0%Z (opt_offset o))
          (default 0%Z (opt_offset o) + default 50%Z (opt_limit o))
          (js_sort cmp after_ok) → m ∈ after_ok).
  { intros m Hm. by eapply elem_of_submseteq. }
  split_and!.
  - done.
  - etrans; [exact Hsub|]. apply sublist_submseteq.
    etrans; apply filter_if_sublist.
  - intros b Hb Hb0. apply Forall_forall. intros m Hm%Hin.
    assert (Hm' : m ∈ before_ok)
      by (eapply elem_of_sublist; [exact Hm | apply filter_if_sublist]).
    pose proof (filter_if_keeps _ (λ before msg, (ts msg <? before)%Z)
                  (JsMap.values chat) b Hb Hb0) as Hall.
    rewrite Forall_forall in Hall. apply Hall in Hm'. by apply Z.ltb_lt.
  - intros a Ha Ha0. apply Forall_forall. intros m Hm%Hin.
    pose proof (filter_if_keeps _ (λ after msg, (after <? ts msg)%Z)
                  before_ok a Ha Ha0) as Hall.
    rewrite Forall_forall in Hall. apply Hall in Hm. by apply Z.ltb_lt.
  - intros Hdesc. apply js_slice_sorted. unfold cmp.
    rewrite bool_decide_eq_true_2 by done.
    eapply (StronglySorted_weaken (λ a b, - ts a ≤ - ts b)%Z);
      [|apply js_sort_sorted, newest_first_spec].
    intros a b. simpl. lia.
  - intros Hasc. apply js_slice_sorted. unfold cmp.
    rewrite bool_decide_eq_false_2 by done.
    apply js_sort_sorted, oldest_first_spec.
  - intros Hlimit. etrans; [apply js_slice_length; lia|].
    apply Nat.eq_le_incl. f_equal. lia.
Qed.


(** X4. Paging composes: a page of [a] messages from [offset] followed by the
    page of [b] from [offset + a] is the page of [a + b] from [offset]. *)
Theorem loadMessages_pages (jid : string) (before after : option Z)
    (sortOrder : option string) (s : store) (offset a b : Z) :
  (0 ≤ offset)%Z → (0 ≤ a)%Z → (0 ≤ b)%Z →
  loadMessages jid None
    (LoadOptions (Some a) (Some offset) before after sortOrder) s
  ++ loadMessages jid None
       (LoadOptions (Some b) (Some (offset + a)%Z) before after sortOrder) s
  = loadMessages jid None
      (LoadOptions (Some (a + b)%Z) (Some offset) before after sortOrder) s.
Proof.
  intros Ho Ha Hb. unfold loadMessages.
  destruct (JsMap.get _ (messages s)) as [chat|]; simpl; [|done].
  rewrite !js_slice_from by lia.
  replace (Z.to_nat (offset + a) - Z.to_nat offset) with (Z.to_nat a) by lia.
  replace (Z.to_nat (offset + a + b) - Z.to_nat (offset + a))
    with (Z.to_nat b) by lia.
  replace (Z.to_nat (offset + (a + b)) - Z.to_nat offset)
    with (Z.to_nat a + Z.to_nat b) by lia.
  replace (Z.to_nat (offset + a)) with (Z.to_nat offset + Z.to_nat a) by lia.
  by rewrite <- drop_drop, take_take_drop.
Qed.

(** X5. The first message of the unfiltered listing, newest first, is the
    message [getLastMessage] answers. *)
Theorem first_listed_is_last_message (jid : string) (limit : option Z)
    (s : store) :
  (∀ n, limit = Some n → 1 ≤ n)%Z →
  head (loadMessages jid None (LoadOptions limit None None None None) s)
  = getLastMessage jid s.
Proof.
  intros Hlimit. unfold loadMessages, getLastMessage.
  destruct (JsMap.get _ (messages s)) as [chat|]; simpl; [|done].
  assert (Hpos : (1 ≤ default 50 limit)%Z).
  { destruct limit as [n|]; simpl; [by apply Hlimit | lia]. }
  rewrite js_slice_from by lia. rewrite drop_0.
  destruct chat as [|e chat]; [simpl; by rewrite take_nil|].
  change (JsMap.size (e :: chat) =? 0) with false. cbv iota.
  destruct (js_sort newest_first (JsMap.values (e :: chat))) as [|x l];
    [by rewrite take_nil|].
  destruct (Z.to_nat (0 + default 50 limit)%Z - Z.to_nat 0%Z) eqn:E;
    [lia | done].
Qed.

(** X6. A message that was added is found under its id, provided the cap did
    not evict it at once: the chat kept within the cap, or the message is
    new to the chat and no message of the chat is newer. *)
Theorem addMessage_then_loadMessages (now : Z) (jid : string) (m : WAMessage)
    (o : loadOptions) (s : store) :
  let id := key_id (msg_key m) in
  let chat := chat_messages (jid_of jid) s in
  messages_wf s →
  fromMe m && historySyncNotification m = false →
  id ≠ "" →
  (Z.of_nat (JsMap.size (JsMap.set id (Stored m now true) chat))
     ≤ maxMessagesPerChat (cfg s))%Z
  ∨ ((1 ≤ maxMessagesPerChat (cfg s))%Z
     ∧ JsMap.has id chat = false
     ∧ ∀ e, e ∈ chat → (ts e.2 ≤ default 0 (messageTimestamp m))%Z) →
  loadMessages jid (Some id) o (addMessage jidNormalizedUser now jid m s)
  = [Stored m now true].
Proof.
  intros id chat Hwf Hseen Hid Hkept.
  pose proof (chat_messages_insert jidNormalizedUser (AddMessage now jid m)
                (jid_of jid) s) as Hafter.
  simpl in Hafter. rewrite decide_True, Hseen in Hafter by done.
  fold id chat in Hafter.
  set (v := Stored m now true) in *.
  set (s' := addMessage jidNormalizedUser now jid m s) in *.
  assert (Hwf_w : wf (JsMap.set id v chat)) by apply wf_set, Hwf.
  assert (Hin : (id, v) ∈ chat_messages (jid_of jid) s').
  { rewrite Hafter. destruct Hkept as [Hfits|(Hcap & Hnew & Hnewest)].
    - unfold applyLimit.
      assert ((maxMessagesPerChat (cfg s)
               <? Z.of_nat (JsMap.size (JsMap.set id v chat)))%Z = false)
        as -> by by apply Z.ltb_ge.
      apply get_Some_elem, get_set_eq.
    - destruct (decide ((id, v) ∈ applyLimit (maxMessagesPerChat (cfg s))
                                     (JsMap.set id v chat))) as [|Hgone];
        [done | exfalso].
      apply has_false in Hnew. rewrite (set_absent _ _ _ Hnew) in *.
      pose proof (applyLimit_size (maxMessagesPerChat (cfg s))
                    (chat ++ [(id, v)]) Hwf_w ltac:(lia)) as Hsize.
      unfold JsMap.size in Hsize. rewrite length_app in Hsize. simpl in Hsize.
      destruct (applyLimit (maxMessagesPerChat (cfg s)) (chat ++ [(id, v)]))
        as [|r kept] eqn:Ekept; [simpl in Hsize; lia|].
      assert (Hr : r ∈ applyLimit (maxMessagesPerChat (cfg s))
                         (chat ++ [(id, v)])) by (rewrite Ekept; left).
      rewrite <- Ekept in Hgone.
      assert (Hr' : r ∈ chat ++ [(id, v)])
        by (eapply elem_of_sublist; [exact Hr | apply applyLimit_sublist]).
      assert (Hrc : r ∈ chat).
      { apply elem_of_app in Hr' as [|Hr']; [done|].
        apply list_elem_of_singleton in Hr'. subst r. contradiction. }
      destruct (applyLimit_oldest (maxMessagesPerChat (cfg s)) _ (id, v) r
                  Hwf_w) as [Hlt|[_ Hord]];
        [apply elem_of_app; right; left | done | done | |].
      + apply Hnewest in Hrc. unfold entry_timestamp in Hlt. simpl in Hlt.
        unfold timestamp_or_zero in Hlt at 1. simpl in Hlt.
        destruct (messageTimestamp m); simpl in *; lia.
      + apply sublist_app_r in Hord as (l1 & l2 & Heq & H1 & H2).
        apply get_None in Hnew.
        destruct l1 as [|x l1].
        * simpl in Heq. subst l2. apply sublist_length in H2. simpl in H2. lia.
        * injection Heq as <- _. apply Hnew.
          assert (Hold : (id, v) ∈ chat)
            by (eapply elem_of_sublist; [|exact H1]; left).
          by apply (list_elem_of_fmap_2 fst) in Hold. }
  assert (Hwf' : messages_wf s').
  { apply (insert_wf jidNormalizedUser (AddMessage now jid m)), Hwf. }
  unfold loadMessages. unfold chat_messages in Hin.
  destruct (JsMap.get (jid_of jid) (messages s')) as [chat'|] eqn:Eget;
    simpl in Hin; [|by apply elem_of_nil in Hin].
  rewrite bool_decide_eq_false_2 by done.
  assert (Hwf_c : wf chat').
  { destruct Hwf' as [_ Hc]. specialize (Hc (jid_of jid)).
    unfold chat_messages in Hc. by rewrite Eget in Hc. }
  by rewrite (elem_get _ _ _ Hwf_c Hin).
Qed.

End query_facts.

(** ** Edges of the cap *)

Section cap_edges.
Import JsMapFacts.
Variable jidNormalizedUser : key → string.

Local Abbreviation jid_of := (jid_of jidNormalizedUser).
Local Abbreviation addMessage := (addMessage jidNormalizedUser).
Local Abbreviation ts := timestamp_or_zero.

Lemma applyLimit_nothing cap (m : jsmap string stored_message) :
  (cap ≤ 0)%Z → applyLimit cap m = [].
Proof.
  intros Hcap. unfold applyLimit.
  destruct (cap <? Z.of_nat (JsMap.size m))%Z eqn:E.
  - rewrite delete_all. apply filter_none. intros e He Hgone. apply Hgone.
    unfold toDelete. rewrite take_ge.
    + apply (list_elem_of_fmap_2 fst). by rewrite sortedMessages_perm.
    + rewrite (sortedMessages_perm m). unfold JsMap.size. lia.
  - apply Z.ltb_ge in E. destruct m; [done|]. unfold JsMap.size in E.
    simpl in E. lia.
Qed.

(** X7. With a cap of 0 or less the store retains no message: every call of
    [addMessage] or [processChatMessages] leaves the chat it writes to
    empty, whatever it held, while [addMessage] counts the message in
    [stats.totalMessages] all the same. *)
Theorem nonpositive_cap_retains_nothing (now : Z) (jid : string)
    (m : WAMessage) (msgs : list WAMessage) (s : store) :
  (maxMessagesPerChat (cfg s) ≤ 0)%Z →
  fromMe m && historySyncNotification m = false →
  chat_messages (jid_of jid) (addMessage now jid m s) = []
  ∧ totalMessages (stats (addMessage now jid m s))
    = (totalMessages (stats s) + 1)%Z
  ∧ chat_messages jid (processChatMessages now jid msgs s) = [].
Proof.
  intros Hcap Hm. split_and!.
  - pose proof (chat_messages_insert jidNormalizedUser (AddMessage now jid m)
                  (jid_of jid) s) as H.
    simpl in H. rewrite decide_True, Hm in H by done.
    rewrite H. by apply applyLimit_nothing.
  - by apply addMessage_counts.
  - pose proof (chat_messages_insert jidNormalizedUser
                  (ProcessChatMessages now jid msgs) jid s) as H.
    simpl in H. rewrite decide_True in H by done.
    rewrite H. by apply applyLimit_nothing.
Qed.

(** X8. A message older than every message of a full chat is not stored: the
    chat is left as it was, yet the message is counted in
    [stats.totalMessages]. *)
Theorem addMessage_stale_dropped (now : Z) (jid : string) (m : WAMessage)
    (s : store) :
  let chat := chat_messages (jid_of jid) s in
  messages_wf s →
  fromMe m && historySyncNotification m = false →
  Z.of_nat (JsMap.size chat) = maxMessagesPerChat (cfg s) →
  JsMap.has (key_id (msg_key m)) chat = false →
  (∀ e, e ∈ chat → (default 0 (messageTimestamp m) < ts e.2)%Z) →
  chat_messages (jid_of jid) (addMessage now jid m s) = chat
  ∧ totalMessages (stats (addMessage now jid m s))
    = (totalMessages (stats s) + 1)%Z.
Proof.
  intros chat Hwf Hm Hfull Hnew Hstale.
  split; [|by apply addMessage_counts].
  pose proof (chat_messages_insert jidNormalizedUser (AddMessage now jid m)
                (jid_of jid) s) as H.
  simpl in H. rewrite decide_True, Hm in H by done.
  rewrite H. fold chat. clear H.
  set (id := key_id (msg_key m)) in *. set (v := Stored m now true).
  set (cap := maxMessagesPerChat (cfg s)) in *.
  apply has_false in Hnew. rewrite (set_absent _ _ _ Hnew).
  assert (Hwf_c : wf chat) by apply Hwf.
  assert (Hwf_w : wf (chat ++ [(id, v)])).
  { rewrite <- (set_absent _ _ _ Hnew). by apply wf_set. }
  set (kept := applyLimit cap (chat ++ [(id, v)])).
  assert (Hsub : kept `sublist_of` chat ++ [(id, v)]) by apply applyLimit_sublist.
  assert (Hsize : length kept = length chat).
  { pose proof (applyLimit_size cap (chat ++ [(id, v)]) Hwf_w ltac:(lia)) as Hs.
    fold kept in Hs. unfold JsMap.size in *. rewrite length_app in Hs.
    simpl in Hs. lia. }
  assert (Hnd : NoDup kept).
  { eapply wf_NoDup, wf_sublist; [exact Hsub | done]. }
  assert (Hgone : (id, v) ∉ kept).
  { intros Hin.
    assert (Hsome : ¬ Forall (λ a, a ∈ kept) chat).
    { intros Hall. rewrite Forall_forall in Hall.
      assert (Hincl : ∀ y, y ∈ chat ++ [(id, v)] → y ∈ kept).
      { intros y [Hy|Hy%list_elem_of_singleton]%elem_of_app; [auto | by subst]. }
      apply NoDup_submseteq, submseteq_length in Hincl;
        [|by apply wf_NoDup].
      rewrite length_app in Hincl. simpl in Hincl. lia. }
    apply not_Forall_Exists in Hsome; [|apply _].
    apply Exists_exists in Hsome as (x & Hx & Hx_gone). simpl in Hx_gone.
    pose proof (Hstale x Hx) as Hlt.
    destruct (applyLimit_oldest cap _ x (id, v) Hwf_w) as [Hold|[Hold _]];
      [apply elem_of_app; by left | done | done | |];
      unfold entry_timestamp in Hold; simpl in Hold;
      unfold timestamp_or_zero in Hold at 2; simpl in Hold;
      destruct (messageTimestamp m); simpl in *; lia. }
  apply sublist_app_r in Hsub as (l1 & l2 & Heq & H1 & H2).
  assert (l2 = []) as ->.
  { destruct l2 as [|x l2]; [done|]. exfalso. apply Hgone. rewrite Heq.
    apply elem_of_app. right.
    assert (x ∈ [(id, v)]) as ->%list_elem_of_singleton; [|left].
    eapply elem_of_sublist; [|exact H2]. left. }
  rewrite app_nil_r in Heq. rewrite Heq in *.
  apply (sublist_perm_eq _ _ chat); [by apply wf_NoDup | done | done |].
  apply submseteq_length_Permutation; [by apply sublist_submseteq | lia].
Qed.

End cap_edges.

(** ** The newest message of a chat *)

Section newest_kept.
Import JsMapFacts.
Variable jidNormalizedUser : key → string.

Local Abbreviation jid_of := (jid_of jidNormalizedUser).
Local Abbreviation addMessage := (addMessage jidNormalizedUser).
Local Abbreviation getLastMessage := (getLastMessage jidNormalizedUser).
Local Abbreviation ts := timestamp_or_zero.

(** With a cap of 1 or more the cap never lowers the newest timestamp of a
    chat: some entry it keeps is as new as any entry of the map. *)
Lemma applyLimit_keeps_newest cap (m : jsmap string stored_message) x :
  wf m → (1 ≤ cap)%Z → x ∈ m →
  ∃ r, r ∈ applyLimit cap m ∧ (entry_timestamp x ≤ entry_timestamp r)%Z.
Proof.
  intros Hwf Hcap Hx.
  destruct (decide (x ∈ applyLimit cap m)) as [|Hgone]; [by exists x|].
  pose proof (applyLimit_size cap m Hwf ltac:(lia)) as Hsize.
  destruct (applyLimit cap m) as [|r kept] eqn:E.
  - destruct m; [by apply elem_of_nil in Hx|].
    unfold JsMap.size in Hsize. cbn [length] in Hsize. lia.
  - exists r. split; [left|].
    destruct (applyLimit_oldest cap m x r Hwf Hx) as [Hlt|[Heq _]];
      rewrite ?E; [done | left | lia | lia].
Qed.

(** X29. After a message is added to a chat whose cap is 1 or more,
    [getLastMessage] answers a message at least as new as the message
    added and as every message the chat held under another id: evicting
    never lowers the newest [messageTimestamp] of a chat. *)
Theorem addMessage_keeps_newest (now : Z) (jid : string) (m : WAMessage)
    (s : store) :
  messages_wf s →
  fromMe m && historySyncNotification m = false →
  (1 ≤ maxMessagesPerChat (cfg s))%Z →
  ∃ last,
    getLastMessage jid (addMessage now jid m s) = Some last
    ∧ (default 0 (messageTimestamp m) ≤ ts last)%Z
    ∧ ∀ e, e ∈ chat_messages (jid_of jid) s → e.1 ≠ key_id (msg_key m) →
           (ts e.2 ≤ ts last)%Z.
Proof.
  intros Hwf Hm Hcap.
  pose proof (chat_messages_insert jidNormalizedUser (AddMessage now jid m)
                (jid_of jid) s) as Hafter.
  simpl in Hafter. rewrite decide_True, Hm in Hafter by done.
  set (id := key_id (msg_key m)) in *. set (v := Stored m now true) in *.
  set (chat := chat_messages (jid_of jid) s) in *.
  set (s' := addMessage now jid m s) in *.
  set (cap := maxMessagesPerChat (cfg s)) in *.
  assert (Hwf_c : wf chat) by apply Hwf.
  assert (Hwf_w : wf (JsMap.set id v chat)) by by apply wf_set.
  assert (Hv : (id, v) ∈ JsMap.set id v chat) by apply get_Some_elem, get_set_eq.
  assert (Hnewest : ∀ x, x ∈ JsMap.set id v chat →
            ∃ r, r ∈ chat_messages (jid_of jid) s'
                 ∧ (entry_timestamp x ≤ entry_timestamp r)%Z).
  { intros x Hx. rewrite Hafter. by apply applyLimit_keeps_newest. }
  assert (Hlast : ∃ last,
            getLastMessage jid s' = Some last
            ∧ ∀ r, r ∈ chat_messages (jid_of jid) s' → (ts r.2 ≤ ts last)%Z).
  { destruct (Hnewest _ Hv) as (r0 & Hr0 & _).
    unfold getLastMessage, chat_messages in *.
    destruct (JsMap.get (jid_of jid) (messages s')) as [chat'|];
      simpl in Hr0 |- *; [|by apply elem_of_nil in Hr0].
    destruct chat' as [|e chat']; [by apply elem_of_nil in Hr0|].
    change (JsMap.size (e :: chat') =? 0) with false. cbv iota.
    destruct (head _) as [last|] eqn:E.
    - exists last. split; [done|].
      apply (js_sort_head newest_first (λ a, (- ts a)%Z)) in E
        as (l1 & l2 & Heq & H1 & H2);
        [|intros a b; unfold newest_first; lia].
      intros r Hr. apply (list_elem_of_fmap_2 snd) in Hr.
      change (r.2 ∈ JsMap.values (e :: chat')) in Hr. rewrite Heq in Hr.
      rewrite Forall_forall in H1, H2.
      apply elem_of_app in Hr as [Hr|[->|Hr]%elem_of_cons].
      + apply H1 in Hr. lia.
      + lia.
      + apply H2 in Hr. lia.
    - apply head_None in E. exfalso.
      assert (Hp := js_sort_perm newest_first (JsMap.values (e :: chat'))).
      rewrite E in Hp. by apply Permutation_nil_l in Hp. }
  destruct Hlast as (last & Hget & Hmax).
  exists last. split; [exact Hget|]. split.
  - destruct (Hnewest _ Hv) as (r & Hr & Hle). apply Hmax in Hr.
    unfold entry_timestamp in Hle. simpl in Hle.
    unfold timestamp_or_zero in Hle at 1. simpl in Hle.
    destruct (messageTimestamp m); simpl in *; lia.
  - intros [k x] He Hk. simpl in Hk |- *.
    assert (Hx : (k, x) ∈ JsMap.set id v chat).
    { apply get_Some_elem. rewrite get_set_ne by done. by apply elem_get. }
    destruct (Hnewest _ Hx) as (r & Hr & Hle). apply Hmax in Hr.
    unfold entry_timestamp in Hle. simpl in Hle. lia.
Qed.
End newest_kept.

(** ** Bulk ingestion of messages *)

Section bulk_ingestion.
Import JsMapFacts.
Variable jidNormalizedUser : key → string.

Local Abbreviation jid_of := (jid_of jidNormalizedUser).
Local Abbreviation jids_of := (jids_of jidNormalizedUser).
Local Abbreviation group_by_chat := (group_by_chat jidNormalizedUser).
Local Abbreviation processMessagesOptimized :=
  (processMessagesOptimized jidNormalizedUser).

(** The first message of a list that carries a given id. *)
Lemma insert_new_get now (m : jsmap string stored_message) msgs id :
  JsMap.get id (foldl (insert_new now) m msgs)
  = match JsMap.get id m with
    | Some v => Some v
    | None =>
        (λ msg, Stored msg now true)
        <$> head (filter (λ msg, key_id (msg_key msg) = id) msgs)
    end.
Proof.
  revert m. induction msgs as [|msg msgs IH]; intros m; simpl.
  - by destruct (JsMap.get id m).
  - rewrite IH. unfold insert_new, JsMap.has. rewrite filter_cons.
    destruct (JsMap.get (key_id (msg_key msg)) m) as [v|] eqn:E.
    + destruct (JsMap.get id m) eqn:E'; [done|].
      rewrite decide_False; [done | congruence].
    + destruct (decide (key_id (msg_key msg) = id)) as [<-|Hne].
      * by rewrite get_set_eq, E.
      * by rewrite get_set_ne.
Qed.

(** X9. [processChatMessages] never overwrites: a message found in the chat
    afterwards is the one that was stored under its id before, or, when the
    id was new, the first message of the batch with that id, stamped with
    the time of the call. *)
Theorem processChatMessages_first_wins (now : Z) (jid : string)
    (msgs : list WAMessage) (s : store) (id : string) (v : stored_message) :
  messages_wf s →
  JsMap.get id (chat_messages jid (processChatMessages now jid msgs s)) = Some v →
  JsMap.get id (chat_messages jid s) = Some v
  ∨ (JsMap.get id (chat_messages jid s) = None
     ∧ ∃ l1 msg l2,
         msgs = l1 ++ msg :: l2
         ∧ key_id (msg_key msg) = id
         ∧ Forall (λ other, key_id (msg_key other) ≠ id) l1
         ∧ v = Stored msg now true).
Proof.
  intros Hwf Hget.
  pose proof (chat_messages_insert jidNormalizedUser
                (ProcessChatMessages now jid msgs) jid s) as H.
  simpl in H. rewrite decide_True in H by done. rewrite H in Hget. clear H.
  set (chat := chat_messages jid s) in *.
  assert (Hwf_w : wf (foldl (insert_new now) chat msgs)).
  { apply (written_wf (ProcessChatMessages now jid msgs)), Hwf. }
  apply get_Some_elem in Hget.
  assert (Hin : (id, v) ∈ foldl (insert_new now) chat msgs)
    by (eapply elem_of_sublist; [exact Hget | apply applyLimit_sublist]).
  apply (elem_get _ _ _ Hwf_w) in Hin. rewrite insert_new_get in Hin.
  destruct (JsMap.get id chat) as [v'|]; [by left | right].
  split; [done|].
  destruct (head _) as [msg|] eqn:Ehead; [|done].
  injection Hin as <-.
  assert (Hid : key_id (msg_key msg) = id).
  { apply head_Some_elem_of, list_elem_of_filter in Ehead as [? _]. done. }
  apply head_filter_Some in Ehead as (l1 & l2 & -> & Hl1).
  by exists l1, msg, l2.
Qed.

(** *** Grouping a batch by chat *)

Lemma group_step_get (g : jsmap string (list WAMessage)) (msg : WAMessage) jid :
  let j := jid_of (remoteJid (msg_key msg)) in
  let g0 := if JsMap.has j g then g else JsMap.set j [] g in
  JsMap.get jid (JsMap.set j (default [] (JsMap.get j g0) ++ [msg]) g0)
  = if decide (j = jid) then Some (default [] (JsMap.get jid g) ++ [msg])
    else JsMap.get jid g.
Proof.
  intros j g0.
  assert (Hj : default [] (JsMap.get j g0) = default [] (JsMap.get j g)).
  { unfold g0, JsMap.has. destruct (JsMap.get j g) eqn:E; [by rewrite E|].
    by rewrite get_set_eq. }
  destruct (decide (j = jid)) as [<-|Hne].
  - by rewrite get_set_eq, Hj.
  - rewrite get_set_ne by done. unfold g0.
    destruct (JsMap.has j g); [done | by rewrite get_set_ne].
Qed.

Lemma group_by_chat_get (l : list WAMessage) (jid : string) :
  JsMap.get jid (group_by_chat l)
  = if decide (jid ∈ jids_of l)
    then Some (filter (λ msg, jid_of (remoteJid (msg_key msg)) = jid) l)
    else None.
Proof.
  unfold group_by_chat, jids_of.
  assert (Hgen : ∀ g,
    JsMap.get jid
      (foldl (λ messagesByChat msg,
                let jid := jid_of (remoteJid (msg_key msg)) in
                let messagesByChat :=
                  if JsMap.has jid messagesByChat then messagesByChat
                  else JsMap.set jid [] messagesByChat in
                JsMap.set jid
                  (default [] (JsMap.get jid messagesByChat) ++ [msg])
                  messagesByChat) g l)
    = if decide (jid ∈ (λ msg, jid_of (remoteJid (msg_key msg))) <$> l)
      then Some (default [] (JsMap.get jid g)
                 ++ filter (λ msg, jid_of (remoteJid (msg_key msg)) = jid) l)
      else JsMap.get jid g).
  { induction l as [|msg l IH]; intros g.
    - cbn [foldl fmap list_fmap].
      rewrite decide_False; [done | apply not_elem_of_nil].
    - cbn [foldl]. rewrite IH. rewrite !group_step_get.
      rewrite fmap_cons, filter_cons.
      destruct (decide (jid_of (remoteJid (msg_key msg)) = jid)) as [Hj|Hj].
      + rewrite (decide_True (P := jid ∈ _ :: _)) by (rewrite <- Hj; left).
        simpl. rewrite <- app_assoc. simpl.
        destruct (decide (jid ∈ _)) as [|Hout]; [done|].
        rewrite filter_none; [done|].
        intros x Hx Hjid. apply Hout.
        apply list_elem_of_fmap. by exists x.
      + destruct (decide (jid ∈ _)) as [Hin|Hout].
        * rewrite decide_True; [done | by right].
        * rewrite decide_False; [done|].
          intros [?|?]%elem_of_cons; congruence. }
  rewrite Hgen. simpl. done.
Qed.

Lemma group_by_chat_wf (l : list WAMessage) : wf (group_by_chat l).
Proof.
  unfold group_by_chat.
  assert (Hgen : ∀ g : jsmap string (list WAMessage), wf g →
    wf (foldl (λ messagesByChat msg,
                 let jid := jid_of (remoteJid (msg_key msg)) in
                 let messagesByChat :=
                   if JsMap.has jid messagesByChat then messagesByChat
                   else JsMap.set jid [] messagesByChat in
                 JsMap.set jid
                   (default [] (JsMap.get jid messagesByChat) ++ [msg])
                   messagesByChat) g l)).
  { induction l as [|msg l IH]; intros g Hg; [done|].
    cbn [foldl]. apply IH. apply wf_set.
    destruct (JsMap.has _ g); [done | by apply wf_set]. }
  apply Hgen. constructor.
Qed.

Lemma processChatMessages_cfg now jid msgs s :
  cfg (processChatMessages now jid msgs s) = cfg s.
Proof. apply (insert_cfg jidNormalizedUser (ProcessChatMessages now jid msgs)). Qed.

Lemma chat_messages_processChatMessages now jid msgs s jid' :
  chat_messages jid' (processChatMessages now jid msgs s)
  = if decide (jid = jid')
    then applyLimit (maxMessagesPerChat (cfg s))
           (foldl (insert_new now) (chat_messages jid' s) msgs)
    else chat_messages jid' s.
Proof.
  apply (chat_messages_insert jidNormalizedUser
           (ProcessChatMessages now jid msgs)).
Qed.

Lemma chats_in_turn now (g : jsmap string (list WAMessage)) s jid :
  wf g →
  chat_messages jid (foldl (λ s e, processChatMessages now e.1 e.2 s) s g)
  = match JsMap.get jid g with
    | Some msgs => chat_messages jid (processChatMessages now jid msgs s)
    | None => chat_messages jid s
    end.
Proof.
  revert s. induction g as [|[j ms] g IH]; intros s Hg; [done|].
  unfold wf, JsMap.keys in Hg. rewrite fmap_cons in Hg.
  apply NoDup_cons in Hg as [Hj Hg].
  cbn [foldl JsMap.get fst snd]. rewrite IH by done.
  destruct (decide (jid = j)) as [->|Hne].
  - assert (JsMap.get j g = None) as -> by by apply get_None.
    done.
  - destruct (JsMap.get jid g) as [msgs|].
    + rewrite (chat_messages_processChatMessages now jid msgs
                 (processChatMessages now j ms s)), decide_True by done.
      rewrite processChatMessages_cfg.
      rewrite (chat_messages_processChatMessages now j ms s jid),
        decide_False by done.
      by rewrite (chat_messages_processChatMessages now jid msgs s),
        decide_True by done.
    + rewrite chat_messages_processChatMessages, decide_False; done.
Qed.

(** X10. [processMessagesOptimized] is [processChatMessages] chat by chat: each
    chat of the batch receives, in one call, the messages of the batch that
    normalize to it, in the order of the batch; the other chats are left as
    they were. *)
Theorem processMessagesOptimized_per_chat (now : Z) (l : list WAMessage)
    (s : store) (jid : string) :
  chat_messages jid (processMessagesOptimized now l s)
  = if decide (jid ∈ jids_of l)
    then chat_messages jid
           (processChatMessages now jid
              (filter (λ msg, jid_of (remoteJid (msg_key msg)) = jid) l) s)
    else chat_messages jid s.
Proof.
  unfold processMessagesOptimized.
  rewrite chats_in_turn by apply group_by_chat_wf.
  rewrite group_by_chat_get. by case_decide.
Qed.
End bulk_ingestion.

(** ** Bulk ingestion of chats and contacts *)

Section bulk_chats.
Import JsMapFacts.

Lemma add_chat_stats now s chat : stats (add_chat now s chat) = stats s.
Proof. unfold add_chat. by case_match. Qed.

Lemma processChats_stats now l s : stats (processChatsOptimized now l s) = stats s.
Proof.
  rewrite processChatsOptimized_fold. revert s.
  induction l as [|c l IH]; intros s; simpl; [done|].
  by rewrite IH, add_chat_stats.
Qed.

Lemma processChats_stays now l s id r chat :
  JsMap.get id (chats s) = Some r → heap s !! r = Some chat →
  JsMap.get id (chats (processChatsOptimized now l s)) = Some r
  ∧ heap (processChatsOptimized now l s) !! r = Some chat.
Proof.
  intros Hid Hr. split; [by apply processChats_keeps|].
  destruct (processChats_frame now l s) as (_ & _ & _ & more & ->).
  by apply lookup_app_l_Some.
Qed.

(** X11. [processChatsOptimized] only adds: a chat that is there keeps its
    object untouched, whatever the batch says about it; a chat that is not
    there is stored as the first chat of the batch with its id, stamped
    [syncedAt]; [stats] is not updated. *)
Theorem processChatsOptimized_adds_only (now : Z) (l : list obj) (s : store) :
  let s' := processChatsOptimized now l s in
  (∀ id r chat,
     JsMap.get id (chats s) = Some r → heap s !! r = Some chat →
     JsMap.get id (chats s') = Some r ∧ heap s' !! r = Some chat)
  ∧ (∀ l1 chat l2,
       l = l1 ++ chat :: l2 →
       JsMap.has (chat !! "id") (chats s) = false →
       Forall (λ c : obj, c !! "id" ≠ chat !! "id") l1 →
       ∃ r, JsMap.get (chat !! "id") (chats s') = Some r
            ∧ heap s' !! r = Some (<["syncedAt" := VNum now]> chat))
  ∧ stats s' = stats s.
Proof.
  intros s'. split_and!.
  - intros id r chat. apply processChats_stays.
  - intros l1 chat l2 -> Hnew Hl1. unfold s'.
    rewrite processChatsOptimized_fold, foldl_app. cbn [foldl].
    rewrite <- (processChatsOptimized_fold now l1 s).
    set (s1 := processChatsOptimized now l1 s).
    assert (Hnew1 : JsMap.has (chat !! "id") (chats s1) = false).
    { destruct (JsMap.has (chat !! "id") (chats s1)) eqn:E; [|done].
      apply processChats_origin in E as [E|E]; [congruence|].
      apply list_elem_of_fmap in E as (c & Hc & Hin).
      rewrite Forall_forall in Hl1. by destruct (Hl1 c Hin). }
    rewrite <- (processChatsOptimized_fold now l2 (add_chat now s1 chat)).
    exists (length (heap s1)). apply processChats_stays.
    + unfold add_chat. rewrite Hnew1. simpl. apply get_set_eq.
    + unfold add_chat. rewrite Hnew1. simpl.
      rewrite lookup_app_r, Nat.sub_diag; done.
  - apply processChats_stats.
Qed.

End bulk_chats.

Section bulk_contacts.
Import JsMapFacts.
Variable jidNormalizedUser : key → string.

Local Abbreviation processContactsOptimized :=
  (processContactsOptimized jidNormalizedUser).
Local Abbreviation processContactsUpsert :=
  (processContactsUpsert jidNormalizedUser).
Local Abbreviation add_contact := (add_contact jidNormalizedUser).
Local Abbreviation jid_of_contact contact :=
  (jidNormalizedUser (contact !! "id")).
Local Abbreviation jids_of_contacts l :=
  ((λ contact : obj, jidNormalizedUser (contact !! "id")) <$> l).

Lemma add_contacts_other now l s jid :
  jid ∉ jids_of_contacts l →
  JsMap.get jid (contacts (foldl (add_contact now) s l))
  = JsMap.get jid (contacts s).
Proof.
  revert s. induction l as [|c l IH]; intros s Hjid; simpl; [done|].
  rewrite fmap_cons, not_elem_of_cons in Hjid. destruct Hjid as [Hne Hjid].
  rewrite IH by done. simpl. by rewrite get_set_ne.
Qed.

(** X12. [processContactsOptimized] replaces: each contact of the batch is
    stored under its normalized id as the batch has it, stamped
    [lastUpdated], the last one winning, and nothing of a contact stored
    before under that id is kept; the other contacts are left as they
    were. *)
Theorem processContactsOptimized_last_wins (now : Z) (l : list obj)
    (s : store) :
  let s' := processContactsOptimized now l s in
  (∀ l1 contact l2,
     l = l1 ++ contact :: l2 →
     Forall (λ c, jid_of_contact c ≠ jid_of_contact contact) l2 →
     JsMap.get (jid_of_contact contact) (contacts s')
     = Some (<["lastUpdated" := VNum now]> contact))
  ∧ (∀ jid, jid ∉ jids_of_contacts l →
       JsMap.get jid (contacts s') = JsMap.get jid (contacts s))
  ∧ stats s' = stats s.
Proof.
  intros s'. unfold s'. rewrite processContactsOptimized_fold. split_and!.
  - intros l1 c l2 -> Hl2. rewrite foldl_app. cbn [foldl].
    rewrite add_contacts_other.
    + simpl. apply get_set_eq.
    + intros (c' & Hc' & Hin)%list_elem_of_fmap.
      rewrite Forall_forall in Hl2. by destruct (Hl2 c' Hin).
  - intros jid. apply add_contacts_other.
  - generalize s. induction l as [|c l IH]; intros s0; simpl; [done|].
    by rewrite IH.
Qed.


(** *** Upserting contacts *)

(** The field [f] of the contact stored under [jid], if there is one. *)
Local Abbreviation field_of s jid f :=
  (default (∅ : obj) (JsMap.get jid (contacts s)) !! f).

Local Abbreviation upsert_contact := (λ (now : Z) (s : store) (contact : obj),
  with_contacts
    (JsMap.set (jid_of_contact contact)
       (<["lastUpdated" := VNum now]>
          (spread (default ∅ (JsMap.get (jid_of_contact contact) (contacts s)))
                  contact))
       (contacts s)) s).

Lemma upsert_contact_field now s contact jid f :
  field_of (upsert_contact now s contact) jid f
  = if decide (jid_of_contact contact = jid) then
      if decide (f = "lastUpdated") then Some (VNum now)
      else match contact !! f with
           | Some v => Some v
           | None => field_of s jid f
           end
    else field_of s jid f.
Proof.
  cbn [contacts with_contacts].
  destruct (decide (jidNormalizedUser (contact !! "id") = jid)) as [<-|Hne].
  - rewrite get_set_eq. cbn [default from_option id].
    destruct (decide (f = "lastUpdated")) as [->|Hf].
    + by rewrite lookup_insert_eq.
    + rewrite lookup_insert_ne by done. apply lookup_spread.
  - by rewrite get_set_ne.
Qed.

Lemma upsert_contacts_silent now l s jid f :
  f ≠ "lastUpdated" →
  Forall (λ c : obj, jid_of_contact c = jid → c !! f = None) l →
  field_of (foldl (upsert_contact now) s l) jid f = field_of s jid f.
Proof.
  intros Hf. revert s. induction l as [|c l IH]; intros s Hl; [done|].
  apply Forall_cons in Hl as [Hc Hl]. cbn [foldl]. rewrite IH by done.
  rewrite upsert_contact_field. case_decide as Hjid; [|done].
  rewrite decide_False by done. by rewrite Hc.
Qed.

(** X13. [processContactsUpsert] merges: a field of a stored contact holds
    the value of the last contact of the batch with that normalized id
    that names the field, and its old value if none does; [lastUpdated] is
    the time of the call for every contact of the batch; [stats] is not
    updated, not even when contacts are new. *)
Theorem processContactsUpsert_merges (now : Z) (l : list obj) (s : store)
    (jid f : string) :
  let s' := processContactsUpsert now l s in
  f ≠ "lastUpdated" →
  (∀ l1 contact l2 v,
     l = l1 ++ contact :: l2 →
     jid_of_contact contact = jid → contact !! f = Some v →
     Forall (λ c : obj, jid_of_contact c = jid → c !! f = None) l2 →
     field_of s' jid f = Some v)
  ∧ (Forall (λ c : obj, jid_of_contact c = jid → c !! f = None) l →
     field_of s' jid f = field_of s jid f)
  ∧ (jid ∈ jids_of_contacts l →
     field_of s' jid "lastUpdated" = Some (VNum now))
  ∧ stats s' = stats s.
Proof.
  intros s' Hf. unfold s', processContactsUpsert. split_and!.
  - intros l1 c l2 v -> Hjid Hv Hl2. rewrite foldl_app. cbn [foldl].
    rewrite (upsert_contacts_silent now l2 _ jid f Hf Hl2).
    rewrite upsert_contact_field, decide_True, decide_False by done.
    by rewrite Hv.
  - apply upsert_contacts_silent, Hf.
  - generalize s. induction l as [|c l IH] using rev_ind; intros s0 Hin.
    + by apply elem_of_nil in Hin.
    + rewrite foldl_app. cbn [foldl]. rewrite upsert_contact_field.
      destruct (decide (jid_of_contact c = jid)) as [|Hne];
        [by rewrite decide_True|].
      apply IH. rewrite fmap_app in Hin.
      apply elem_of_app in Hin as [|Hin]; [done|].
      apply list_elem_of_singleton in Hin. congruence.
  - generalize s. induction l as [|c l IH]; intros s0; simpl; [done|].
    by rewrite IH.
Qed.

End bulk_contacts.

(** ** What a history batch leaves in the maps *)

Section history_merge.
Import JsMapFacts.
Variable jidNormalizedUser : key → string.
Variable number_to_string : Z → string.
Variable JSON_stringify : snapshot → string.

Local Abbreviation jid_of := (jid_of jidNormalizedUser).
Local Abbreviation jids_of := (jids_of jidNormalizedUser).
Local Abbreviation first_for := (first_for jidNormalizedUser).
Local Abbreviation merge_history := (merge_history jidNormalizedUser).
Local Abbreviation processHistorySet :=
  (processHistorySet jidNormalizedUser number_to_string JSON_stringify).
Local Abbreviation mark_sync_start :=
  (mark_sync_start number_to_string JSON_stringify).
Local Abbreviation sent_to jid l :=
  (filter (λ msg, jid_of (remoteJid (msg_key msg)) = jid) l).

Lemma large_latest_clears h : clears h = true ↔ large_latest h.
Proof. apply clears_spec. Qed.

Lemma not_large_latest h : ¬ large_latest h → clears h = false.
Proof.
  intros Hsmall. destruct (clears h) eqn:E; [|done].
  by apply large_latest_clears in E.
Qed.

Lemma size_pos_has {K V} `{EqDecision K} (m : jsmap K V) :
  (0 <? JsMap.size m) = true → ∃ k, JsMap.has k m = true.
Proof.
  destruct m as [|[k v] m]; [done|]. intros _. exists k.
  unfold JsMap.has. simpl. by rewrite decide_True.
Qed.

(** The first message for a chat under an id is the first the insertion
    loop of the chat meets under that id. *)
Lemma first_for_head jid k l msg :
  first_for jid k l msg
  ↔ head (filter (λ m, key_id (msg_key m) = k) (sent_to jid l)) = Some msg.
Proof.
  rewrite list_filter_filter. split.
  - intros (l1 & l2 & -> & Hjid & Hk & Hl1).
    rewrite filter_app, filter_none, filter_cons_True; [done | done |].
    intros other Hin [Hk' Hjid']. rewrite Forall_forall in Hl1.
    by apply (Hl1 other Hin).
  - intros Hhead.
    assert (Hmsg : key_id (msg_key msg) = k
                   ∧ jid_of (remoteJid (msg_key msg)) = jid).
    { apply head_Some_elem_of, list_elem_of_filter in Hhead as [? _]. done. }
    apply head_filter_Some in Hhead as (l1 & l2 & -> & Hl1).
    exists l1, l2. split_and!; try apply Hmsg; [done|].
    eapply Forall_impl; [exact Hl1|]. simpl. tauto.
Qed.

Lemma first_for_jids jid k l msg : first_for jid k l msg → jid ∈ jids_of l.
Proof.
  intros (l1 & l2 & -> & <- & _). unfold jids_of.
  rewrite fmap_app, fmap_cons. apply elem_of_app. right. left.
Qed.

(** What the cap does to one entry: it stays, or the cap evicted it. *)
Lemma applyLimit_get cap (m : jsmap string stored_message) k v :
  wf m → JsMap.get k m = Some v →
  JsMap.get k (applyLimit cap m) = Some v
  ∨ evicted_at cap v (applyLimit cap m).
Proof.
  intros Hwf Hget. apply get_Some_elem in Hget.
  destruct (decide ((k, v) ∈ applyLimit cap m)) as [Hin|Hgone].
  - left. apply elem_get; [by apply applyLimit_wf | done].
  - right. split.
    + destruct (decide (0 ≤ cap)%Z) as [Hcap|Hcap].
      * rewrite (applyLimit_size cap m Hwf Hcap).
        assert (cap < Z.of_nat (JsMap.size m))%Z; [|lia].
        destruct (Z.ltb_spec cap (Z.of_nat (JsMap.size m))) as [|Hfits]; [done|].
        exfalso. apply Hgone. by rewrite applyLimit_fits.
      * rewrite applyLimit_nothing by lia. simpl. lia.
    + intros r Hr.
      destruct (applyLimit_oldest cap m (k, v) r Hwf Hget Hgone Hr)
        as [Hlt|[Heq _]]; unfold entry_timestamp in *; simpl in *; lia.
Qed.

Lemma applyLimit_get_inv cap (m : jsmap string stored_message) k v :
  wf m → JsMap.get k (applyLimit cap m) = Some v → JsMap.get k m = Some v.
Proof.
  intros Hwf Hget. apply get_Some_elem in Hget. apply elem_get; [done|].
  eapply elem_of_sublist; [exact Hget | apply applyLimit_sublist].
Qed.

(** The bulk loops for chats and contacts leave the configuration and the
    messages alone. *)
Lemma chats_contacts_frame now h s :
  cfg (processContactsOptimized jidNormalizedUser now (newContacts h)
         (processChatsOptimized now (newChats h) s)) = cfg s
  ∧ messages (processContactsOptimized jidNormalizedUser now (newContacts h)
                (processChatsOptimized now (newChats h) s)) = messages s.
Proof.
  rewrite (processContactsOptimized_fold jidNormalizedUser),
    processChatsOptimized_fold.
  assert (Hc : ∀ l s0,
    cfg (foldl (add_contact jidNormalizedUser now) s0 l) = cfg s0
    ∧ messages (foldl (add_contact jidNormalizedUser now) s0 l) = messages s0).
  { induction l as [|c l IH]; intros s0; simpl; [done|].
    by destruct (IH (add_contact jidNormalizedUser now s0 c)) as [-> ->]. }
  destruct (Hc (newContacts h) (foldl (add_chat now) s (newChats h))) as [-> ->].
  generalize (newChats h). intros l. revert s.
  induction l as [|c l IH]; intros s; simpl; [done|].
  destruct (IH (add_chat now s c)) as [-> ->].
  unfold add_chat. by case_match.
Qed.

(** The messages of a chat once a history batch is merged. *)
Lemma merge_history_chat now h s jid :
  chat_messages jid (merge_history now h s)
  = let base := if clears h then [] else chat_messages jid s in
    if decide (jid ∈ jids_of (newMessages h))
    then applyLimit (maxMessagesPerChat (cfg s))
           (foldl (insert_new now) base (sent_to jid (newMessages h)))
    else base.
Proof.
  rewrite merge_history_unfold.
  change (chat_messages jid (updateStats ?x)) with (chat_messages jid x).
  set (s1 := processContactsOptimized jidNormalizedUser now (newContacts h)
               (processChatsOptimized now (newChats h) (cleared h s))).
  destruct (chats_contacts_frame now h (cleared h s)) as [Hcfg Hmsgs].
  fold s1 in Hcfg, Hmsgs.
  assert (Hbase : chat_messages jid s1
                  = if clears h then [] else chat_messages jid s).
  { unfold chat_messages. rewrite Hmsgs. unfold cleared. by case_match. }
  assert (Hcap : cfg s1 = cfg s).
  { rewrite Hcfg. unfold cleared. by case_match. }
  unfold processMessagesOptimized.
  rewrite (chats_in_turn jidNormalizedUser)
    by apply (group_by_chat_wf jidNormalizedUser).
  rewrite (group_by_chat_get jidNormalizedUser). cbv zeta.
  case_decide; [|done].
  rewrite (chat_messages_processChatMessages jidNormalizedUser),
    decide_True by done.
  by rewrite Hbase, Hcap.
Qed.

(** A history batch that is not of the on-demand kind is processed to the
    end.  Unless the store is left without data, the maps the call returns
    with are those of the merge. *)
Lemma processHistorySet_merged polls now finished h s n :
  syncType h ≠ 6%Z → lock_free s →
  ∃ s' n',
    processHistorySet polls now finished None h (s, n) = Some (s', n')
    ∧ (hasValidData (merge_history now h (mark_sync_start now (s, n)).1) = true →
       data s' = data (merge_history now h (mark_sync_start now (s, n)).1)).
Proof.
  intros Htype Hfree. unfold processHistorySet.
  rewrite bool_decide_eq_false_2 by done.
  destruct (mark_sync_start_data number_to_string JSON_stringify now s n)
    as (_ & _ & Hlocks).
  destruct (mark_sync_start now (s, n)) as [s1 n1]. simpl in Hlocks.
  cbn [fst]. fold merge_history.
  set (s2 := merge_history now h s1).
  assert (Hfree2 : lock_free s2).
  { unfold lock_free, s2.
    by rewrite (merge_history_locks jidNormalizedUser), Hlocks. }
  cbv zeta.
  assert (Hsaved : ∀ b : bool, ∃ s3 n3,
    (if b then writeToFile number_to_string JSON_stringify polls finished
                (storeFile (cfg s2)) (s2, n1)
     else Some (s2, n1)) = Some (s3, n3)
    ∧ data s3 = data s2 ∧ lock_free s3).
  { intros [].
    - destruct (writeToFile_returns number_to_string JSON_stringify polls
                  finished (storeFile (cfg s2)) s2 n1 Hfree2)
        as (s3 & n3 & -> & Hd & _ & _ & _ & _ & _ & Hf).
      by eexists _, _.
    - by eexists _, _. }
  match goal with
  | |- context [if ?b then writeToFile _ _ _ _ _ _ else _] =>
      destruct (Hsaved b) as (s3 & n3 & -> & Hdata3 & Hfree3)
  end.
  set (s4 := emit _ s3).
  assert (Hdata4 : data s4 = data s2) by by rewrite <- Hdata3.
  assert (Hfree4 : lock_free s4) by done.
  destruct (isLatest h || (100 <=? progress h)%Z).
  - destruct (finalizeSyncProcess_returns number_to_string JSON_stringify
                polls finished s4 n3 Hfree4)
      as (s' & n' & Hfin & Hkeep).
    exists s', n'. split; [exact Hfin|].
    intros Hvalid. rewrite Hkeep; [done|].
    by rewrite (hasValidData_data _ _ Hdata4).
  - exists s4, n3. by split.
Qed.

(** A chat the batch brings under a new id is stored as the batch has it
    first, stamped [syncedAt]. *)
Lemma processChats_first now l1 chat l2 s :
  JsMap.has (chat !! "id") (chats s) = false →
  Forall (λ c : obj, c !! "id" ≠ chat !! "id") l1 →
  ∃ r, JsMap.get (chat !! "id")
         (chats (processChatsOptimized now (l1 ++ chat :: l2) s)) = Some r
       ∧ heap (processChatsOptimized now (l1 ++ chat :: l2) s) !! r
         = Some (<["syncedAt" := VNum now]> chat).
Proof.
  intros Hnew Hl1.
  rewrite processChatsOptimized_fold, foldl_app. cbn [foldl].
  rewrite <- (processChatsOptimized_fold now l1 s).
  set (s1 := processChatsOptimized now l1 s).
  assert (Hnew1 : JsMap.has (chat !! "id") (chats s1) = false).
  { destruct (JsMap.has (chat !! "id") (chats s1)) eqn:E; [|done].
    apply processChats_origin in E as [E|E]; [congruence|].
    apply list_elem_of_fmap in E as (c & Hc & Hin).
    rewrite Forall_forall in Hl1. by destruct (Hl1 c Hin). }
  rewrite <- (processChatsOptimized_fold now l2 (add_chat now s1 chat)).
  exists (length (heap s1)). apply processChats_stays.
  - unfold add_chat. rewrite Hnew1. simpl. apply get_set_eq.
  - unfold add_chat. rewrite Hnew1. simpl.
    rewrite lookup_app_r, Nat.sub_diag; done.
Qed.

(** The chats and the heap once a history batch is merged are those the
    loop over the chats leaves; the contacts are those the loop over the
    contacts leaves. *)
Lemma merge_history_maps now h s :
  chats (merge_history now h s)
  = chats (processChatsOptimized now (newChats h) (cleared h s))
  ∧ heap (merge_history now h s)
    = heap (processChatsOptimized now (newChats h) (cleared h s))
  ∧ contacts (merge_history now h s)
    = contacts (processContactsOptimized jidNormalizedUser now (newContacts h) s).
Proof.
  rewrite merge_history_unfold. simpl.
  destruct (processMessages_frame jidNormalizedUser now (newMessages h)
    (processContactsOptimized jidNormalizedUser now (newContacts h)
       (processChatsOptimized now (newChats h) (cleared h s))))
    as (-> & -> & -> & _).
  destruct (processContacts_frame jidNormalizedUser now (newContacts h)
    (processChatsOptimized now (newChats h) (cleared h s))) as (-> & -> & _).
  split_and!; [done | done |].
  rewrite !(processContactsOptimized_fold jidNormalizedUser).
  assert (Hc : ∀ l s1 s2, contacts s1 = contacts s2 →
    contacts (foldl (add_contact jidNormalizedUser now) s1 l)
    = contacts (foldl (add_contact jidNormalizedUser now) s2 l)).
  { induction l as [|c l IH]; intros s1 s2 Heq; simpl; [done|].
    apply IH. simpl. by rewrite Heq. }
  apply Hc.
  destruct (processChats_frame now (newChats h) (cleared h s)) as (_ & -> & _).
  unfold cleared. by case_match.
Qed.

(** C4. A history batch that is not of the on-demand kind, arriving when
    no write holds the file lock, is processed to the end.  Call the batch
    large when it is marked latest and carries more than 10 chats or more
    than 100 messages.  Afterwards
    - the chats, the message chats and the contacts of the batch are in
      the store, and every contact that was there still is;
    - if the batch is large, the chats and message maps that were there are
      gone: only ids of the batch are left, and a chat holds only messages
      of the batch;
    - otherwise every chat that was there is still there and refers to the
      same, unchanged object, every message map that was there is still
      there, the messages of the chats the batch does not write to are as
      they were, and every message that was stored is still stored, unless
      the cap evicted it;
    - a chat of the batch whose id is new, as every id is for a large
      batch, is stored as the batch has it first, stamped [syncedAt];
    - a contact of the batch is stored as the batch has it last, stamped
      [lastUpdated], and a contact the batch does not name is as it was;
    - a message of the batch whose id is new to its chat, as every id is
      for a large batch, is stored, the first of the batch under that id,
      stamped with the time of the call, unless the cap evicted it;
    - when the store had data, a chat holds nothing but what it held and
      what the batch brought.
    So a latest batch of 2 chats and 5 messages merges into what was
    there, and a latest batch of 20 chats replaces it. *)
Theorem history_clears_only_large_latest
    (polls : nat) (now finished : Z) (h : historyData) (s : store) (n : node) :
  syncType h ≠ 6%Z →
  lock_free s →
  ∃ s' n',
    processHistorySet polls now finished None h (s, n) = Some (s', n')
    ∧ (∀ chat, chat ∈ newChats h → JsMap.has (chat !! "id") (chats s') = true)
    ∧ (∀ jid, jid ∈ jids_of (newMessages h) →
              JsMap.has jid (messages s') = true)
    ∧ (∀ contact, contact ∈ newContacts h →
         JsMap.has (jidNormalizedUser (contact !! "id")) (contacts s') = true)
    ∧ (∀ jid, JsMap.has jid (contacts s) = true →
              JsMap.has jid (contacts s') = true)
    ∧ (isLatest h = true
       ∧ (10 < length (newChats h) ∨ 100 < length (newMessages h)) →
       (∀ id, JsMap.has id (chats s') = true →
              id ∈ (λ chat : obj, chat !! "id") <$> newChats h)
       ∧ (∀ jid, JsMap.has jid (messages s') = true →
                 jid ∈ jids_of (newMessages h)))
    ∧ (¬ (isLatest h = true
          ∧ (10 < length (newChats h) ∨ 100 < length (newMessages h))) →
       (∀ id r, JsMap.get id (chats s) = Some r →
                JsMap.get id (chats s') = Some r
                ∧ (r < length (heap s) →
                   deref (heap s') r = deref (heap s) r))
       ∧ (∀ jid, JsMap.has jid (messages s) = true →
                 JsMap.has jid (messages s') = true)
       ∧ (∀ jid m, JsMap.get jid (messages s) = Some m →
                   jid ∉ jids_of (newMessages h) →
                   JsMap.get jid (messages s') = Some m))
    ∧ (∀ l1 chat l2,
         newChats h = l1 ++ chat :: l2 →
         Forall (λ c : obj, c !! "id" ≠ chat !! "id") l1 →
         large_latest h ∨ JsMap.has (chat !! "id") (chats s) = false →
         ∃ r, JsMap.get (chat !! "id") (chats s') = Some r
              ∧ heap s' !! r = Some (<["syncedAt" := VNum now]> chat))
    ∧ (∀ l1 contact l2,
         newContacts h = l1 ++ contact :: l2 →
         Forall (λ c : obj, jidNormalizedUser (c !! "id")
                            ≠ jidNormalizedUser (contact !! "id")) l2 →
         JsMap.get (jidNormalizedUser (contact !! "id")) (contacts s')
         = Some (<["lastUpdated" := VNum now]> contact))
    ∧ (∀ jid c,
         JsMap.get jid (contacts s) = Some c →
         jid ∉ (λ contact : obj, jidNormalizedUser (contact !! "id"))
               <$> newContacts h →
         JsMap.get jid (contacts s') = Some c)
    ∧ (messages_wf s →
       (∀ jid k msg,
          first_for jid k (newMessages h) msg →
          large_latest h ∨ JsMap.get k (chat_messages jid s) = None →
          JsMap.get k (chat_messages jid s') = Some (Stored msg now true)
          ∨ evicted_at (maxMessagesPerChat (cfg s)) (Stored msg now true)
              (chat_messages jid s'))
       ∧ (¬ large_latest h →
          ∀ jid k v,
            JsMap.get k (chat_messages jid s) = Some v →
            JsMap.get k (chat_messages jid s') = Some v
            ∨ evicted_at (maxMessagesPerChat (cfg s)) v (chat_messages jid s'))
       ∧ (large_latest h →
          ∀ jid k v,
            JsMap.get k (chat_messages jid s') = Some v →
            ∃ msg, first_for jid k (newMessages h) msg
                   ∧ v = Stored msg now true)
       ∧ (¬ large_latest h → hasValidData s = true →
          ∀ jid k v,
            JsMap.get k (chat_messages jid s') = Some v →
            JsMap.get k (chat_messages jid s) = Some v
            ∨ (JsMap.get k (chat_messages jid s) = None
               ∧ ∃ msg, first_for jid k (newMessages h) msg
                        ∧ v = Stored msg now true))).
Proof.
  intros Htype Hfree.
  destruct (processHistorySet_merged polls now finished h s n Htype Hfree)
    as (s' & n' & Hrun & Hkeep).
  destruct (mark_sync_start_data number_to_string JSON_stringify now s n)
    as (Hdata1 & Hcfg1 & _).
  set (s1 := (mark_sync_start now (s, n)).1) in *.
  apply data_eq in Hdata1 as (Hheap1 & Hchats1 & Hmsgs1 & Hcontacts1 & _).
  set (s2 := merge_history now h s1) in *.
  assert (Hvalid : hasValidData s2 = true →
                   heap s' = heap s2 ∧ chats s' = chats s2
                   ∧ messages s' = messages s2 ∧ contacts s' = contacts s2).
  { intros Hv. apply Hkeep, data_eq in Hv as (? & ? & ? & ? & _). done. }
  destruct (merge_history_chats jidNormalizedUser now h s1)
    as (Hnew_chats & Hgone_chats & Hkept_chats).
  destruct (merge_history_messages jidNormalizedUser now h s1)
    as (Hnew_msgs & Hgone_msgs & Hkept_msgs).
  destruct (merge_history_contacts jidNormalizedUser now h s1)
    as (Hnew_contacts & Hkept_contacts).
  fold s2 in Hnew_chats, Hgone_chats, Hkept_chats, Hnew_msgs, Hgone_msgs,
    Hkept_msgs, Hnew_contacts, Hkept_contacts.
  assert (Hlarge_valid : large_latest h → hasValidData s2 = true).
  { intros [_ [Hlen|Hlen]].
    - destruct (newChats h) as [|chat l] eqn:E; [simpl in Hlen; lia|].
      apply (has_hasValidData_chats _ (chat !! "id")), Hnew_chats. left.
    - destruct (newMessages h) as [|msg l] eqn:E; [simpl in Hlen; lia|].
      eapply has_hasValidData_messages, Hnew_msgs. left. }
  assert (Hchat : ∀ jid,
    hasValidData s2 = true →
    chat_messages jid s'
    = let base := if clears h then [] else chat_messages jid s in
      if decide (jid ∈ jids_of (newMessages h))
      then applyLimit (maxMessagesPerChat (cfg s))
             (foldl (insert_new now) base (sent_to jid (newMessages h)))
      else base).
  { intros jid Hv. destruct (Hvalid Hv) as (_ & _ & Hm & _).
    unfold chat_messages at 1. rewrite Hm.
    fold (chat_messages jid s2). unfold s2. rewrite merge_history_chat.
    fold s1. rewrite Hcfg1. unfold chat_messages at 1 3. by rewrite Hmsgs1. }
  exists s', n'. split; [exact Hrun|]. split_and!.
  - intros chat Hin. pose proof (Hnew_chats chat Hin) as Hhas.
    destruct (Hvalid (has_hasValidData_chats _ _ Hhas)) as (_ & -> & _). done.
  - intros jid Hin. pose proof (Hnew_msgs jid Hin) as Hhas.
    destruct (Hvalid (has_hasValidData_messages _ _ Hhas)) as (_ & _ & -> & _).
    done.
  - intros contact Hin. pose proof (Hnew_contacts contact Hin) as Hhas.
    destruct (Hvalid (has_hasValidData_contacts _ _ Hhas)) as (_ & _ & _ & ->).
    done.
  - intros jid Hjid. rewrite <- Hcontacts1 in Hjid.
    pose proof (Hkept_contacts jid Hjid) as Hhas.
    destruct (Hvalid (has_hasValidData_contacts _ _ Hhas)) as (_ & _ & _ & ->).
    done.
  - intros Hlarge. pose proof Hlarge as Hc. apply clears_spec in Hc.
    destruct (Hvalid (Hlarge_valid Hlarge)) as (_ & -> & -> & _). split; auto.
  - intros Hsmall.
    assert (Hc : clears h = false) by by apply not_large_latest.
    split_and!.
    + intros id r Hid. rewrite <- Hchats1 in Hid.
      destruct (Hkept_chats Hc id r Hid) as [Hget Hobj].
      assert (Hhas : JsMap.has id (chats s2) = true)
        by (unfold JsMap.has; by rewrite Hget).
      destruct (Hvalid (has_hasValidData_chats _ _ Hhas)) as (-> & -> & _).
      split; [done|]. rewrite <- Hheap1. exact Hobj.
    + intros jid Hjid. rewrite <- Hmsgs1 in Hjid.
      destruct (Hkept_msgs Hc jid) as [Hhas _]. specialize (Hhas Hjid).
      destruct (Hvalid (has_hasValidData_messages _ _ Hhas)) as (_ & _ & -> & _).
      done.
    + intros jid m Hget Hout. rewrite <- Hmsgs1 in Hget.
      destruct (Hkept_msgs Hc jid) as [Hhas Hsame].
      assert (Hjid : JsMap.has jid (messages s1) = true)
        by (unfold JsMap.has; by rewrite Hget).
      specialize (Hhas Hjid).
      destruct (Hvalid (has_hasValidData_messages _ _ Hhas)) as (_ & _ & -> & _).
      by rewrite Hsame.
  - intros l1 chat l2 Hbatch Hl1 Hnew.
    assert (Hin : chat ∈ newChats h).
    { rewrite Hbatch. apply elem_of_app. right. left. }
    pose proof (Hnew_chats chat Hin) as Hhas.
    destruct (Hvalid (has_hasValidData_chats _ _ Hhas)) as (-> & -> & _).
    destruct (merge_history_maps now h s1) as (Hc & Hh & _).
    fold s2 in Hc, Hh. rewrite Hc, Hh, Hbatch.
    apply processChats_first; [|done].
    unfold cleared. destruct Hnew as [Hlarge|Hnew].
    + apply large_latest_clears in Hlarge. by rewrite Hlarge.
    + case_match; [done | by rewrite Hchats1].
  - intros l1 contact l2 Hbatch Hl2.
    assert (Hin : contact ∈ newContacts h).
    { rewrite Hbatch. apply elem_of_app. right. left. }
    pose proof (Hnew_contacts contact Hin) as Hhas.
    destruct (Hvalid (has_hasValidData_contacts _ _ Hhas)) as (_ & _ & _ & ->).
    destruct (merge_history_maps now h s1) as (_ & _ & Hk).
    fold s2 in Hk. rewrite Hk, Hbatch.
    rewrite (processContactsOptimized_fold jidNormalizedUser), foldl_app.
    cbn [foldl]. rewrite (add_contacts_other jidNormalizedUser).
    + simpl. apply get_set_eq.
    + intros (c' & Hc' & Hin')%list_elem_of_fmap.
      rewrite Forall_forall in Hl2. by destruct (Hl2 c' Hin').
  - intros jid c Hget Hout.
    assert (Hjid : JsMap.has jid (contacts s1) = true)
      by (unfold JsMap.has; by rewrite Hcontacts1, Hget).
    pose proof (Hkept_contacts jid Hjid) as Hhas.
    destruct (Hvalid (has_hasValidData_contacts _ _ Hhas)) as (_ & _ & _ & ->).
    destruct (merge_history_maps now h s1) as (_ & _ & Hk).
    fold s2 in Hk. rewrite Hk.
    rewrite (processContactsOptimized_fold jidNormalizedUser),
      (add_contacts_other jidNormalizedUser) by done.
    by rewrite Hcontacts1.
  - intros [Hout Hin]. split_and!.
    + intros jid k msg Hfirst Hnew.
      pose proof (first_for_jids _ _ _ _ Hfirst) as Hjid.
      rewrite Hchat
        by (eapply has_hasValidData_messages, Hnew_msgs; exact Hjid).
      cbv zeta. rewrite decide_True by done.
      apply applyLimit_get.
      * apply (written_wf (ProcessChatMessages now jid _)).
        case_match; [constructor | apply Hin].
      * rewrite insert_new_get.
        apply first_for_head in Hfirst.
        assert (Hbase : JsMap.get k (if clears h then []
                                     else chat_messages jid s) = None).
        { destruct Hnew as [Hlarge|Hnew].
          - apply large_latest_clears in Hlarge. by rewrite Hlarge.
          - by case_match. }
        by rewrite Hbase, Hfirst.
    + intros Hsmall jid k v Hget.
      assert (Hc : clears h = false) by by apply not_large_latest.
      assert (Hjid : JsMap.has jid (messages s1) = true).
      { rewrite Hmsgs1. unfold JsMap.has, chat_messages in *.
        destruct (JsMap.get jid (messages s)); [done|]. done. }
      destruct (Hkept_msgs Hc jid) as [Hhas _]. specialize (Hhas Hjid).
      rewrite Hchat by (eapply has_hasValidData_messages; exact Hhas).
      cbv zeta. rewrite Hc. case_decide; [|by left].
      apply applyLimit_get.
      * apply (written_wf (ProcessChatMessages now jid _)), Hin.
      * by rewrite insert_new_get, Hget.
    + intros Hlarge jid k v Hget.
      rewrite Hchat in Hget by by apply Hlarge_valid.
      apply large_latest_clears in Hlarge. rewrite Hlarge in Hget.
      cbv zeta in Hget. case_decide; [|done].
      apply applyLimit_get_inv in Hget;
        [|apply (written_wf (ProcessChatMessages now jid _)); constructor].
      rewrite insert_new_get in Hget. simpl in Hget.
      destruct (head _) as [msg|] eqn:Ehead; [|done].
      injection Hget as <-. exists msg. split; [|done].
      by apply first_for_head.
    + intros Hsmall Hdata jid k v Hget.
      assert (Hc : clears h = false) by by apply not_large_latest.
      assert (Hv : hasValidData s2 = true).
      { assert (Hv1 : hasValidData s1 = true).
        { unfold hasValidData in *. by rewrite Hchats1, Hmsgs1, Hcontacts1. }
        unfold hasValidData in Hv1.
        apply orb_true_iff in Hv1 as [Hv1|Hv1];
          [apply orb_true_iff in Hv1 as [Hv1|Hv1]|];
          apply size_pos_has in Hv1 as [id Hid].
        - unfold JsMap.has in Hid.
          destruct (JsMap.get id (chats s1)) as [r|] eqn:E; [|done].
          destruct (Hkept_chats Hc id r E) as [Hg _].
          apply (has_hasValidData_chats _ id). unfold JsMap.has. by rewrite Hg.
        - destruct (Hkept_msgs Hc id) as [Hhas _].
          by eapply has_hasValidData_messages, Hhas.
        - by eapply has_hasValidData_contacts, Hkept_contacts. }
      rewrite Hchat in Hget by done. rewrite Hc in Hget. cbv zeta in Hget.
      case_decide; [|by left].
      apply applyLimit_get_inv in Hget;
        [|apply (written_wf (ProcessChatMessages now jid _)), Hin].
      rewrite insert_new_get in Hget.
      destruct (JsMap.get k (chat_messages jid s)) as [v0|]; [by left | right].
      split; [done|].
      destruct (head _) as [msg|] eqn:Ehead; [|done].
      injection Hget as <-. exists msg. split; [|done].
      by apply first_for_head.
Qed.
End history_merge.

(** ** Group metadata *)

Section group_facts.
Import JsMapFacts.

Lemma set_set {K V} `{EqDecision K} (k : K) (v v' : V) (m : jsmap K V) :
  JsMap.set k v (JsMap.set k v' m) = JsMap.set k v m.
Proof.
  induction m as [|[k0 v0] m IH]; simpl.
  - by rewrite decide_True.
  - destruct (decide (k = k0)) as [->|Hne]; simpl.
    + by rewrite decide_True.
    + by rewrite decide_False, IH.
Qed.

(** X14. [updateGroupMetadata] merges the update over what is stored under its
    [id], creating the record if there is none, and stamps [lastUpdated];
    the other groups are left as they were, and an update applied twice
    stores what it stores when applied once. *)
Theorem updateGroupMetadata_merges (now : Z) (update : obj) (s : store) :
  let s' := updateGroupMetadata now update s in
  let before := default (∅ : obj) (JsMap.get (update !! "id") (groupMetadata s)) in
  (∃ after,
      JsMap.get (update !! "id") (groupMetadata s') = Some after
      ∧ (∀ f, f ≠ "lastUpdated" →
           after !! f = match update !! f with
                        | Some v => Some v
                        | None => before !! f
                        end)
      ∧ after !! "lastUpdated" = Some (VNum now))
  ∧ (∀ id, id ≠ update !! "id" →
       JsMap.get id (groupMetadata s') = JsMap.get id (groupMetadata s))
  ∧ groupMetadata (updateGroupMetadata now update s') = groupMetadata s'.
Proof.
  intros s' before.
  assert (Hg : groupMetadata s'
               = JsMap.set (update !! "id")
                   (<["lastUpdated" := VNum now]> (spread before update))
                   (groupMetadata s)).
  { unfold s', updateGroupMetadata. by case_match. }
  split_and!.
  - eexists. rewrite Hg, get_set_eq. split_and!; [done | |].
    + intros f Hf. rewrite lookup_insert_ne by done. apply lookup_spread.
    + apply lookup_insert_eq.
  - intros id Hid. rewrite Hg. by rewrite get_set_ne.
  - assert (Hg' : groupMetadata (updateGroupMetadata now update s')
               = JsMap.set (update !! "id")
                   (<["lastUpdated" := VNum now]>
                      (spread (default ∅ (JsMap.get (update !! "id")
                                            (groupMetadata s'))) update))
                   (groupMetadata s')).
    { unfold updateGroupMetadata at 1. by case_match. }
    rewrite Hg', Hg, get_set_eq, set_set. f_equal.
    apply map_eq. intros f. cbn [default from_option id].
    destruct (decide (f = "lastUpdated")) as [->|Hf].
    + by rewrite !lookup_insert_eq.
    + rewrite !lookup_insert_ne by done. rewrite !lookup_spread.
      rewrite lookup_insert_ne by done. rewrite lookup_spread.
      by destruct (update !! f).
Qed.

End group_facts.

(** ** Upserting chats *)

Section upserts.
Import JsMapFacts.
Variable jidNormalizedUser : key → string.

Local Abbreviation addMessage := (addMessage jidNormalizedUser).
Local Abbreviation processBatch := (processBatch jidNormalizedUser).

Lemma heap_assign_eq l o s chat :
  heap s !! l = Some chat →
  heap (assign l o s) !! l = Some (spread chat o).
Proof.
  intros Hl. unfold assign, deref. rewrite Hl. simpl.
  apply list_lookup_insert_eq. by eapply lookup_lt_Some.
Qed.

Lemma heap_assign_ne l l' o s : l ≠ l' → heap (assign l o s) !! l' = heap s !! l'.
Proof. intros. unfold assign. simpl. by apply list_lookup_insert_ne. Qed.

(** X15. [upsertChat] on a chat that is not there stores it with [createdAt] and
    [lastUpdated] set to the time of the call, and counts it.  On a chat
    that is there it assigns the fields of the argument to the stored
    object, [unreadCount] included, which replaces the stored count,
    stamps [lastUpdated] and keeps every other field, [createdAt] among
    them. *)
Theorem upsertChat_creates_or_merges (now : Z) (chat : obj) (s : store) :
  let s' := upsertChat now chat s in
  match JsMap.get (chat !! "id") (chats s) with
  | None =>
      JsMap.get (chat !! "id") (chats s') = Some (length (heap s))
      ∧ heap s' !! length (heap s)
        = Some (<["lastUpdated" := VNum now]> (<["createdAt" := VNum now]> chat))
      ∧ JsMap.size (chats s') = S (JsMap.size (chats s))
      ∧ totalChats (stats s') = (totalChats (stats s) + 1)%Z
  | Some r =>
      chats s' = chats s
      ∧ stats s' = stats s
      ∧ ∀ existing, heap s !! r = Some existing →
          ∃ merged,
            heap s' !! r = Some merged
            ∧ merged !! "lastUpdated" = Some (VNum now)
            ∧ ∀ f, f ≠ "lastUpdated" →
                merged !! f = match chat !! f with
                              | Some v => Some v
                              | None => existing !! f
                              end
  end.
Proof.
  intros s'. unfold s', upsertChat.
  destruct (JsMap.get (chat !! "id") (chats s)) as [r|] eqn:E.
  - split_and!; [by case_match | by case_match |].
    intros existing Hr. eexists. split_and!.
    + case_match; simpl; by apply heap_assign_eq.
    + rewrite lookup_spread. by rewrite lookup_insert_eq.
    + intros f Hf. rewrite lookup_spread. by rewrite lookup_insert_ne.
  - split_and!.
    + case_match; simpl; apply get_set_eq.
    + case_match; simpl; by rewrite lookup_app_r, Nat.sub_diag.
    + case_match; simpl; rewrite size_set; apply has_false in E;
        by rewrite E.
    + by case_match.
Qed.

(** *** Incoming messages *)

Local Abbreviation notified now type := (λ (s : store) (e : string * WAMessage),
  if bool_decide (type = "notify")
     && negb (JsMap.has (Some (VStr e.1)) (chats s))
  then upsertChat now
         {[ "id" := VStr e.1;
            "conversationTimestamp" := VNum (toNumber (messageTimestamp e.2));
            "unreadCount" := VNum 1 ]} s
  else s).

Lemma addMessages_chats now (batch : list (string * WAMessage)) s :
  chats (foldl (λ s e, addMessage now e.1 e.2 s) s batch) = chats s
  ∧ heap (foldl (λ s e, addMessage now e.1 e.2 s) s batch) = heap s.
Proof.
  revert s. induction batch as [|e l IH]; intros s; simpl; [done|].
  destruct (IH (addMessage now e.1 e.2 s)) as [-> ->].
  unfold addMessage. case_match; [done|].
  case_match; simpl; unfold ensure_chat; by case_match.
Qed.

Lemma upsertChat_new now chat s :
  JsMap.get (chat !! "id") (chats s) = None →
  chats (upsertChat now chat s)
  = JsMap.set (chat !! "id") (length (heap s)) (chats s)
  ∧ heap (upsertChat now chat s)
    = heap s ++ [<["lastUpdated" := VNum now]> (<["createdAt" := VNum now]> chat)].
Proof. intros E. unfold upsertChat. rewrite E. by case_match. Qed.

Lemma notified_keeps now type s e id r chat :
  JsMap.get id (chats s) = Some r → heap s !! r = Some chat →
  JsMap.get id (chats (notified now type s e)) = Some r
  ∧ heap (notified now type s e) !! r = Some chat.
Proof.
  intros Hid Hr. cbn beta.
  destruct (bool_decide (type = "notify")); simpl; [|done].
  destruct (JsMap.has (Some (VStr e.1)) (chats s)) eqn:E; simpl; [done|].
  apply has_false in E.
  destruct (upsertChat_new now
    {[ "id" := VStr e.1;
       "conversationTimestamp" := VNum (toNumber (messageTimestamp e.2));
       "unreadCount" := VNum 1 ]} s) as [-> ->].
  { by rewrite lookup_insert_eq. }
  rewrite lookup_insert_eq. split.
  - rewrite get_set_ne; [done|]. intros <-. congruence.
  - by apply lookup_app_l_Some.
Qed.

Lemma all_notified_keep now type l s id r chat :
  JsMap.get id (chats s) = Some r → heap s !! r = Some chat →
  JsMap.get id (chats (foldl (notified now type) s l)) = Some r
  ∧ heap (foldl (notified now type) s l) !! r = Some chat.
Proof.
  revert s. induction l as [|e l IH]; intros s Hid Hr; [done|].
  cbn [foldl].
  destruct (notified_keeps now type s e id r chat Hid Hr) as [Hid' Hr'].
  by apply IH.
Qed.

Lemma all_notified_origin now type l s id :
  JsMap.has id (chats (foldl (notified now type) s l)) = true →
  JsMap.has id (chats s) = true
  ∨ id ∈ (λ e : string * WAMessage, Some (VStr e.1)) <$> l.
Proof.
  revert s. induction l as [|e l IH]; intros s Hid; [by left|].
  cbn [foldl] in Hid. apply IH in Hid as [Hid|Hid]; [|right; by right].
  cbn beta in Hid.
  destruct (bool_decide (type = "notify")); simpl in Hid; [|by left].
  destruct (JsMap.has (Some (VStr e.1)) (chats s)) eqn:E; simpl in Hid;
    [by left|].
  apply has_false in E.
  destruct (upsertChat_new now
    {[ "id" := VStr e.1;
       "conversationTimestamp" := VNum (toNumber (messageTimestamp e.2));
       "unreadCount" := VNum 1 ]} s) as [Hc _].
  { by rewrite lookup_insert_eq. }
  rewrite Hc, lookup_insert_eq in Hid. apply has_set in Hid as [<-|Hid].
  - right. left.
  - by left.
Qed.

(** X16. [processBatch] stores the messages and, for a batch of type "notify",
    creates a chat for every chat id of the batch that has none: with
    [unreadCount] 1 and the [messageTimestamp] of the first message of the
    batch for that id (0 if absent) as [conversationTimestamp].  A chat that
    is there is left untouched, its [unreadCount] included; a batch of
    another type touches no chat. *)
Theorem processBatch_notify (now : Z) (batch : list (string * WAMessage))
    (type : string) (s : store) :
  let s' := processBatch now batch type s in
  (∀ id r chat,
     JsMap.get id (chats s) = Some r → heap s !! r = Some chat →
     JsMap.get id (chats s') = Some r ∧ heap s' !! r = Some chat)
  ∧ (type ≠ "notify" → chats s' = chats s ∧ heap s' = heap s)
  ∧ (type = "notify" →
     ∀ l1 jid msg l2,
       batch = l1 ++ (jid, msg) :: l2 →
       JsMap.has (Some (VStr jid)) (chats s) = false →
       Forall (λ e : string * WAMessage, e.1 ≠ jid) l1 →
       ∃ r, JsMap.get (Some (VStr jid)) (chats s') = Some r
            ∧ heap s' !! r
              = Some {[ "id" := VStr jid;
                        "conversationTimestamp" :=
                          VNum (default 0%Z (messageTimestamp msg));
                        "unreadCount" := VNum 1;
                        "createdAt" := VNum now;
                        "lastUpdated" := VNum now ]}).
Proof.
  intros s'. unfold s', processBatch.
  destruct (addMessages_chats now batch s) as [Hc Hh].
  set (s1 := foldl _ s batch) in *. clearbody s1.
  split_and!.
  - intros id r chat Hid Hr. apply all_notified_keep; congruence.
  - intros Htype. rewrite <- Hc, <- Hh. clear Hc Hh.
    rewrite bool_decide_eq_false_2 by done. revert s1.
    induction batch as [|e l IH]; intros s1; [done|].
    cbn [foldl andb]. apply IH.
  - intros -> l1 jid msg l2 -> Hnew Hl1.
    rewrite foldl_app. cbn [foldl].
    set (s2 := foldl _ s1 l1).
    assert (Hnew2 : JsMap.has (Some (VStr jid)) (chats s2) = false).
    { destruct (JsMap.has (Some (VStr jid)) (chats s2)) eqn:E; [|done].
      apply (all_notified_origin now "notify") in E as [E|E]; [congruence|].
      apply list_elem_of_fmap in E as (e & [= He] & Hin).
      rewrite Forall_forall in Hl1. by destruct (Hl1 e Hin). }
    rewrite bool_decide_eq_true_2 by done. cbn [fst snd]. rewrite Hnew2.
    cbn [negb andb].
    apply has_false in Hnew2.
    destruct (upsertChat_new now
      {[ "id" := VStr jid;
         "conversationTimestamp" := VNum (toNumber (messageTimestamp msg));
         "unreadCount" := VNum 1 ]} s2) as [Hc2 Hh2].
    { by rewrite lookup_insert_eq. }
    exists (length (heap s2)).
    apply (all_notified_keep now "notify").
    + rewrite Hc2, lookup_insert_eq. apply get_set_eq.
    + rewrite Hh2, lookup_app_r, Nat.sub_diag by done. reflexivity.
Qed.

End upserts.


(** ** Counting chats *)

Section counting.
Import JsMapFacts.
Variable jidNormalizedUser : key → string.
Variable string_gt_zero : string → bool.
Variable number_to_string : Z → string.
Variable JSON_stringify : snapshot → string.

Local Abbreviation addMessage := (addMessage jidNormalizedUser).
Local Abbreviation updateChat := (updateChat string_gt_zero number_to_string).
Local Abbreviation processBatch := (processBatch jidNormalizedUser).
Local Abbreviation processContactsUpsert :=
  (processContactsUpsert jidNormalizedUser).
Local Abbreviation writeToFile := (writeToFile number_to_string JSON_stringify).
Local Abbreviation finalizeSyncProcess :=
  (finalizeSyncProcess number_to_string JSON_stringify).
Local Abbreviation mark_sync_start :=
  (mark_sync_start number_to_string JSON_stringify).
Local Abbreviation merge_history := (merge_history jidNormalizedUser).
Local Abbreviation processHistorySet :=
  (processHistorySet jidNormalizedUser number_to_string JSON_stringify).
Local Abbreviation handle :=
  (handle jidNormalizedUser string_gt_zero number_to_string JSON_stringify).

Lemma counted_same s s' :
  chats s' = chats s → totalChats (stats s') = totalChats (stats s) →
  chats_counted s → chats_counted s'.
Proof. unfold chats_counted. by intros -> ->. Qed.

Lemma counted_updateStats s : chats_counted (updateStats s).
Proof. done. Qed.

Lemma addMessage_chats now jid m s :
  chats (addMessage now jid m s) = chats s
  ∧ heap (addMessage now jid m s) = heap s
  ∧ totalChats (stats (addMessage now jid m s)) = totalChats (stats s).
Proof.
  unfold addMessage. case_match; [done|].
  case_match; simpl; unfold ensure_chat; by case_match.
Qed.

Lemma upsertChat_counted now chat s :
  chats_counted s → chats_counted (upsertChat now chat s).
Proof.
  unfold chats_counted, upsertChat. intros Hs.
  destruct (JsMap.get (chat !! "id") (chats s)) as [r|] eqn:E.
  - by case_match.
  - assert (Hsize : JsMap.size (JsMap.set (chat !! "id") (length (heap s)) (chats s))
                    = S (JsMap.size (chats s))).
    { rewrite size_set. apply has_false in E. by rewrite E. }
    case_match; simpl; rewrite Hsize; lia.
Qed.

Lemma updateChat_chats now update s :
  chats (updateChat now update s) = chats s
  ∧ stats (updateChat now update s) = stats s.
Proof. unfold updateChat. by case_match. Qed.

Lemma processBatch_counted now batch type s :
  chats_counted s → chats_counted (processBatch now batch type s).
Proof.
  intros Hs. unfold processBatch.
  set (s1 := foldl _ s batch).
  assert (H1 : chats_counted s1).
  { unfold s1. clear s1. revert s Hs.
    induction batch as [|e l IH]; intros s Hs; simpl; [done|].
    apply IH. destruct (addMessage_chats now e.1 e.2 s) as (Hc & _ & Ht).
    by apply (counted_same s). }
  clearbody s1. clear Hs.
  generalize batch. intros l. revert s1 H1.
  induction l as [|e l IH]; intros s1 H1; simpl; [done|].
  apply IH. case_match; [by apply upsertChat_counted | done].
Qed.

Lemma processContactsUpsert_chats now l s :
  chats (processContactsUpsert now l s) = chats s
  ∧ stats (processContactsUpsert now l s) = stats s.
Proof.
  unfold processContactsUpsert. revert s.
  induction l as [|c l IH]; intros s; simpl; [done|].
  by destruct (IH (with_contacts
    (JsMap.set (jidNormalizedUser (c !! "id"))
       (<["lastUpdated" := VNum now]>
          (spread (default ∅ (JsMap.get (jidNormalizedUser (c !! "id"))
                                (contacts s))) c))
       (contacts s)) s)) as [-> ->].
Qed.

Lemma updateGroupMetadata_chats now update s :
  chats (updateGroupMetadata now update s) = chats s
  ∧ stats (updateGroupMetadata now update s) = stats s.
Proof. unfold updateGroupMetadata. by case_match. Qed.

Lemma acquireWriteLock_got polls k s s' :
  acquireWriteLock polls k s = Some s' →
  s' = with_writeLocks (JsMap.set k true (writeLocks s)) s.
Proof.
  induction polls as [|polls IH]; simpl; case_match; try done; congruence.
Qed.

Lemma writeToFile_chats polls now file s n s' n' :
  writeToFile polls now file (s, n) = Some (s', n') →
  chats s' = chats s ∧ totalChats (stats s') = totalChats (stats s).
Proof.
  unfold writeToFile, writeToFile_enter.
  destruct (isWriting s); [by intros [= <- <-]|].
  destruct (hasValidData s); simpl; [|by intros [= <- <-]].
  unfold writeToFile_body.
  destruct (acquireWriteLock _ _ _) as [s2|] eqn:E; [|done].
  apply acquireWriteLock_got in E. subst s2.
  destruct (writeToFileInternal _ _ _ _ _ _) as [[e|[]] n2];
    unfold writeToFile_finally; simpl;
    destruct (pendingWrites s); by intros [= <- <-].
Qed.

Lemma restoreFromBackup_counted s :
  chats_counted s → chats_counted (restoreFromBackup s).
Proof.
  unfold restoreFromBackup. case_match; [done|]. intros _.
  apply counted_updateStats.
Qed.

Lemma finalizeSyncProcess_counted polls now s n s' n' :
  finalizeSyncProcess polls now (s, n) = Some (s', n') →
  chats_counted s → chats_counted s'.
Proof.
  unfold finalizeSyncProcess. intros Hfin Hs.
  destruct (hasValidData s).
  - destruct (writeToFile _ _ _ _) as [[s1 n1]|] eqn:E; [|done].
    injection Hfin as <- <-. apply writeToFile_chats in E as [Hc Ht].
    by apply (counted_same s).
  - destruct (hasBackupData s).
    + destruct (writeToFile _ _ _ _) as [[s1 n1]|] eqn:E; [|done].
      injection Hfin as <- <-. apply writeToFile_chats in E as [Hc Ht].
      apply (counted_same (restoreFromBackup s)); [done | done |].
      by apply restoreFromBackup_counted.
    + by injection Hfin as <- <-.
Qed.

Lemma processHistorySet_counted polls now finished failure h s n s' n' :
  processHistorySet polls now finished failure h (s, n) = Some (s', n') →
  chats_counted s → chats_counted s'.
Proof.
  unfold processHistorySet. case_bool_decide; [by intros [= <- <-]|].
  destruct (mark_sync_start _ _) as [s1 n1].
  intros Hrun _. revert Hrun.
  assert (H2 : chats_counted (merge_history now h s1)) by done.
  set (s2 := merge_history now h s1) in *. fold merge_history. fold s2.
  cbv zeta.
  match goal with
  | |- context [if ?b then writeToFile _ _ _ _ else _] =>
      destruct b
  end.
  - destruct (writeToFile _ _ _ _) as [[s3 n3]|] eqn:E; [|done].
    apply writeToFile_chats in E as [Hc Ht].
    assert (H3 : chats_counted s3) by by apply (counted_same s2).
    set (s4 := emit _ s3).
    assert (H4 : chats_counted s4) by done.
    set (s5 := match failure with Some _ => _ | None => s4 end).
    assert (H5 : chats_counted s5).
    { unfold s5. destruct failure; [|done].
      destruct (hasInitialData s4); [|done].
      apply (counted_same (restoreFromBackup s4)); [done | done |].
      by apply restoreFromBackup_counted. }
    destruct (_ || _); [|by intros [= <- <-]].
    intros Hfin. by eapply finalizeSyncProcess_counted.
  - set (s4 := emit _ s2).
    assert (H4 : chats_counted s4) by done.
    set (s5 := match failure with Some _ => _ | None => s4 end).
    assert (H5 : chats_counted s5).
    { unfold s5. destruct failure; [|done].
      destruct (hasInitialData s4); [|done].
      apply (counted_same (restoreFromBackup s4)); [done | done |].
      by apply restoreFromBackup_counted. }
    destruct (_ || _); [|by intros [= <- <-]].
    intros Hfin. by eapply finalizeSyncProcess_counted.
Qed.

(** X17. Through the events of the binder [stats.totalChats] stays the number
    of chats: whatever event is handled in a store where the two agree,
    they agree afterwards. *)
Theorem totalChats_tracks_chats (polls : nat) (now : Z) (ev : event)
    (s : store) (n : node) (s' : store) (n' : node) :
  chats_counted s →
  handle polls now ev (s, n) = Some (s', n') →
  chats_counted s'.
Proof.
  intros Hs. unfold handle.
  destruct ev as [batch type|h finished failure|cs|us|cs|ds|cs|us].
  - case_match; intros [= <- <-]; [done | by apply processBatch_counted].
  - intros Hrun. by eapply processHistorySet_counted.
  - destruct (isProcessingHistory s); intros [= <- <-]; [done|].
    revert s Hs. induction cs as [|c cs IH]; intros s Hs; simpl; [done|].
    by apply IH, upsertChat_counted.
  - intros [= <- <-].
    revert s Hs. induction us as [|u us IH]; intros s Hs; simpl; [done|].
    apply IH. destruct (updateChat_chats now u s) as [Hc Ht].
    apply (counted_same s); [done | by rewrite Ht | done].
  - intros [= <- <-].
    revert s Hs. induction cs as [|c cs IH]; intros s Hs; simpl; [done|].
    by apply IH, upsertChat_counted.
  - intros [= <- <-]. apply counted_updateStats.
  - intros [= <- <-]. destruct (processContactsUpsert_chats now cs s) as [Hc Ht].
    apply (counted_same s); [done | by rewrite Ht | done].
  - intros [= <- <-].
    revert s Hs. induction us as [|u us IH]; intros s Hs; simpl; [done|].
    apply IH. destruct (updateGroupMetadata_chats now u s) as [Hc Ht].
    apply (counted_same s); [done | by rewrite Ht | done].
Qed.

End counting.

(** ** Deleting chats *)

Section deleting.
Import JsMapFacts.
Variable jidNormalizedUser : key → string.
Variable string_gt_zero : string → bool.
Variable number_to_string : Z → string.
Variable JSON_stringify : snapshot → string.

Local Abbreviation handle :=
  (handle jidNormalizedUser string_gt_zero number_to_string JSON_stringify).

Local Abbreviation deleted s chatId :=
  (with_messages (delete_messages_of chatId (messages s))
                 (with_chats (JsMap.delete chatId (chats s)) s)).

Lemma delete_messages_of_get chatId
    (m : jsmap string (jsmap string stored_message)) jid :
  JsMap.get jid (delete_messages_of chatId m)
  = if decide (chatId = Some (VStr jid)) then None else JsMap.get jid m.
Proof.
  unfold delete_messages_of.
  destruct chatId as [[| | |j]|]; try (by rewrite decide_False).
  destruct (decide (j = jid)) as [->|Hne].
  - by rewrite decide_True, get_delete_eq.
  - rewrite decide_False by congruence. by apply get_delete_ne.
Qed.

Lemma deletions_get (ds : list key) s :
  let s' := foldl (λ s chatId, deleted s chatId) s ds in
  (∀ id, JsMap.get id (chats s')
         = if decide (id ∈ ds) then None else JsMap.get id (chats s))
  ∧ (∀ jid, JsMap.get jid (messages s')
            = if decide (Some (VStr jid) ∈ ds) then None
              else JsMap.get jid (messages s))
  ∧ heap s' = heap s ∧ contacts s' = contacts s
  ∧ groupMetadata s' = groupMetadata s ∧ emitted s' = emitted s.
Proof.
  revert s. induction ds as [|d ds IH]; intros s; cbn [foldl].
  - split_and!; try done; intros ?; by rewrite decide_False by apply not_elem_of_nil.
  - destruct (IH (deleted s d)) as (Hc & Hm & -> & -> & -> & ->).
    split_and!; try done.
    + intros id. rewrite Hc. cbn [chats with_chats with_messages].
      destruct (decide (id ∈ ds)) as [Hin|Hout].
      * rewrite decide_True; [done | by right].
      * destruct (decide (d = id)) as [->|Hne].
        -- rewrite decide_True by left. apply get_delete_eq.
        -- rewrite decide_False by (intros [?|?]%elem_of_cons; congruence).
           by apply get_delete_ne.
    + intros jid. rewrite Hm. cbn [messages with_messages].
      rewrite delete_messages_of_get.
      destruct (decide (Some (VStr jid) ∈ ds)) as [Hin|Hout].
      * rewrite decide_True; [done | by right].
      * destruct (decide (d = Some (VStr jid))) as [->|Hne].
        -- by rewrite decide_True by left.
        -- by rewrite decide_False by (intros [?|?]%elem_of_cons; congruence).
Qed.

(** X18. The [chats.delete] event removes the chats it names, together with
    the messages stored under the same ids, and nothing else: the other
    chats and messages, the contacts and the group metadata stay as they
    were.  Afterwards the counters of [stats] are those of the maps. *)
Theorem chats_delete_removes (polls : nat) (now : Z) (deletions : list key)
    (s : store) (n : node) :
  ∃ s',
    handle polls now (chats_delete deletions) (s, n) = Some (s', n)
    ∧ (∀ id, JsMap.get id (chats s')
             = if decide (id ∈ deletions) then None
               else JsMap.get id (chats s))
    ∧ (∀ jid, JsMap.get jid (messages s')
              = if decide (Some (VStr jid) ∈ deletions) then None
                else JsMap.get jid (messages s))
    ∧ contacts s' = contacts s ∧ groupMetadata s' = groupMetadata s
    ∧ emitted s' = emitted s
    ∧ totalChats (stats s') = Z.of_nat (JsMap.size (chats s'))
    ∧ totalContacts (stats s') = Z.of_nat (JsMap.size (contacts s'))
    ∧ totalMessages (stats s')
      = foldl (λ total chatMsgs, (total + Z.of_nat (JsMap.size chatMsgs))%Z)
              0%Z (JsMap.values (messages s')).
Proof.
  eexists. split; [reflexivity|].
  destruct (deletions_get deletions s) as (Hc & Hm & Hh & Hk & Hg & He).
  by split_and!.
Qed.

End deleting.

(** ** Saving *)

Section saving.
Import JsMapFacts.
Variable number_to_string : Z → string.
Variable JSON_stringify : snapshot → string.

Local Abbreviation tempFile := (tempFile number_to_string).
Local Abbreviation write_verify_rename :=
  (write_verify_rename number_to_string JSON_stringify).
Local Abbreviation writeToFileInternal :=
  (writeToFileInternal number_to_string JSON_stringify).
Local Abbreviation writeToFile := (writeToFile number_to_string JSON_stringify).
Local Abbreviation smartAutoSave := (smartAutoSave number_to_string JSON_stringify).
Local Abbreviation createBackup := (createBackup number_to_string JSON_stringify).

Lemma fs_rename_works src dst n bytes :
  faults n = [] → files n !! src = Some bytes →
  fs_rename src dst n
  = (inr (), with_files (<[dst := bytes]> (delete src (files n))) n).
Proof. intros Hf Hs. unfold fs_rename, next_fault. by rewrite Hf, Hs. Qed.

(** With no fault to come, a document of 10 bytes or more is installed. *)
Lemma writeToFileInternal_works now file data n :
  faults n = [] → 10 ≤ String.length (JSON_stringify data) →
  ∃ n', writeToFileInternal now file data n = (inr (), n')
        ∧ faults n' = [].
Proof.
  intros Hf Hsize.
  unfold writeToFileInternal, write_verify_rename.
  unfold fs_writeFile, next_fault at 1. rewrite Hf. simpl.
  rewrite (fs_stat_works _ _ (JSON_stringify data));
    [|done | apply lookup_insert_eq].
  assert ((String.length (JSON_stringify data) <? 10) = false) as ->
    by by apply Nat.ltb_ge.
  rewrite (fs_rename_works _ _ _ (JSON_stringify data));
    [|done | apply lookup_insert_eq].
  by eexists.
Qed.

Lemma writeToFileInternal_target now file data n :
  match writeToFileInternal now file data n with
  | (inr _, n') => files n' !! file = Some (JSON_stringify data)
  | (inl _, n') => files n' !! file = files n !! file
  end.
Proof.
  unfold writeToFileInternal.
  pose proof (write_verify_rename_spec number_to_string JSON_stringify
                now file data n) as Htry.
  destruct (write_verify_rename _ _ _ _) as [[e|[]] n1];
    [|by destruct Htry].
  pose proof (fs_unlink_other (tempFile now file) n1 file) as Hother.
  destruct (fs_unlink _ n1) as [r n2]. simpl in *.
  rewrite Hother; [done|]. intros Heq.
  by apply (tempFile_fresh number_to_string now file).
Qed.

(** X19. A call of [writeToFile] that is issued returns, whatever the file
    system does: it never throws, leaves the data alone, clears [isWriting]
    and frees the file lock.  Either the file holds the serialized store,
    the save is recorded and [store.saved] is emitted; or the file holds
    what it held, no save is recorded and the error is emitted as
    [store.error].  With no fault to come and a document of 10 bytes or
    more it is the former. *)
Theorem writeToFile_saves_or_reports (polls : nat) (now : Z) (file : string)
    (s : store) (n : node) :
  isWriting s = false → hasValidData s = true → lock_free s →
  let document := JSON_stringify (serializeStoreData now s) in
  ∃ s' n',
    writeToFile polls now file (s, n) = Some (s', n')
    ∧ data s' = data s ∧ isWriting s' = false ∧ lock_free s'
    ∧ ((files n' !! file = Some document
        ∧ lastSuccessfulSave s' = Some now
        ∧ lastSave (stats s') = Some now
        ∧ emitted s' = emitted s ++ [store_saved file])
       ∨ (∃ e, files n' !! file = files n !! file
               ∧ lastSuccessfulSave s' = lastSuccessfulSave s
               ∧ stats s' = stats s
               ∧ emitted s' = emitted s ++ [store_error e]))
    ∧ (faults n = [] → 10 ≤ String.length document →
       files n' !! file = Some document).
Proof.
  intros Hw Hvalid Hfree document.
  unfold writeToFile, writeToFile_enter. rewrite Hw, Hvalid. simpl.
  unfold writeToFile_body. rewrite acquireWriteLock_free by done.
  set (locked := with_writeLocks _ _).
  change (serializeStoreData now locked) with (serializeStoreData now s).
  pose proof (writeToFileInternal_target now file (serializeStoreData now s) n)
    as Htarget.
  pose proof (writeToFileInternal_works now file (serializeStoreData now s) n)
    as Hworks.
  fold document in Htarget, Hworks.
  destruct (writeToFileInternal _ _ _ _) as [[e|[]] n1].
  - unfold writeToFile_finally. simpl.
    destruct (pendingWrites s); eexists _, _; (split; [reflexivity|]);
      (split_and!; [done | done | apply released_free | | ]);
      try (right; exists e; by split_and!);
      intros Hplan Hsize; destruct (Hworks Hplan Hsize) as (? & [=] & _).
  - unfold writeToFile_finally. simpl.
    destruct (pendingWrites s); eexists _, _; (split; [reflexivity|]);
      (split_and!; [done | done | apply released_free | | ]);
      try (left; by split_and!); by intros _ _.
Qed.


(** X20. The auto-save timer never writes in the first 30 seconds of a history
    sync, nor when the store holds no chat, message or contact: the store
    and the files are then exactly as they were.  Whenever it runs it
    returns, with the data untouched and the file lock free. *)
Theorem smartAutoSave_guards (polls : nat) (now : Z) (s : store) (n : node) :
  lock_free s →
  ∃ s' n',
    smartAutoSave polls now (s, n) = Some (s', n')
    ∧ data s' = data s ∧ lock_free s'
    ∧ ((isProcessingHistory s = true
        ∧ ∃ start, syncStartTime s = Some start ∧ start ≠ 0%Z
                   ∧ (now - start < 30000)%Z)
       ∨ hasValidData s = false →
       s' = s ∧ n' = n).
Proof.
  intros Hfree. unfold smartAutoSave.
  destruct (isProcessingHistory s && _) eqn:Esync.
  { eexists _, _. by split_and!. }
  destruct (hasValidData s) eqn:Evalid.
  - destruct (writeToFile_returns number_to_string JSON_stringify polls now
                (storeFile (cfg s)) s n Hfree)
      as (s' & n' & -> & Hdata & _ & _ & _ & _ & _ & Hfree').
    eexists _, _. split_and!; try done.
    intros [(Hp & start & Hstart & Hnz & Hearly)|]; [|done].
    rewrite Hp, Hstart in Esync. simpl in Esync.
    apply andb_false_iff in Esync as [E|E].
    + apply negb_false_iff, Z.eqb_eq in E. done.
    + apply Z.ltb_ge in E. lia.
  - eexists _, _. by split_and!.
Qed.


(** *** The backup file *)

Lemma fs_rename_other src dst n q :
  q ≠ src → q ≠ dst → files (fs_rename src dst n).2 !! q = files n !! q.
Proof.
  intros Hs Hd. unfold fs_rename. pose proof (next_fault_files n) as Hf.
  destruct (next_fault n) as [[|p] n1]; simpl in *;
    destruct (files n1 !! src); simpl;
    rewrite ?lookup_insert_ne, ?lookup_delete_ne by done; by rewrite Hf.
Qed.

Lemma write_verify_rename_other now file data n q :
  q ≠ file → q ≠ tempFile now file →
  files (write_verify_rename now file data n).2 !! q = files n !! q.
Proof.
  intros Hfile Htemp. unfold write_verify_rename.
  fold (tempFile now file).
  pose proof (fs_writeFile_other (tempFile now file) (JSON_stringify data) n q
                Htemp) as Hw.
  destruct (fs_writeFile _ _ n) as [[e|[]] n1]; simpl in Hw; [done|].
  pose proof (fs_stat_files (tempFile now file) n1) as Hs.
  destruct (fs_stat _ n1) as [[e|size] n2]; simpl in Hs;
    [simpl; by rewrite Hs|].
  destruct (size <? 10); [simpl; by rewrite Hs|].
  rewrite (fs_rename_other (tempFile now file) file n2 q Htemp Hfile).
  by rewrite Hs.
Qed.

(** A write touches its target and its temporary file only. *)
Lemma writeToFileInternal_other now file data n q :
  q ≠ file → q ≠ tempFile now file →
  files (writeToFileInternal now file data n).2 !! q = files n !! q.
Proof.
  intros Hfile Htemp. unfold writeToFileInternal.
  pose proof (write_verify_rename_other now file data n q Hfile Htemp) as Htry.
  destruct (write_verify_rename _ _ _ _) as [[e|[]] n1];
    simpl in Htry; [|done].
  pose proof (fs_unlink_other (tempFile now file) n1 q Htemp) as Hu.
  destruct (fs_unlink _ n1) as [r n2]. simpl in *. congruence.
Qed.

Lemma backupFile_other file : file ≠ backupFile file.
Proof.
  unfold backupFile. intros Heq. apply (f_equal String.length) in Heq.
  rewrite length_append in Heq. simpl in Heq. lia.
Qed.

Lemma backup_tempFile_other now file : file ≠ tempFile now (backupFile file).
Proof.
  unfold tempFile, backupFile. intros Heq.
  apply (f_equal String.length) in Heq.
  rewrite !length_append in Heq. simpl in Heq. lia.
Qed.

(** X21. [createBackup] does nothing when [preserveDataDuringSync] is off.
    Otherwise it copies the maps into [backupData] and, unless
    [backupBeforeSync] is off, writes the serialized store to the
    [.backup] file.  It never touches the data or the store file itself,
    and a failure to write the backup file is not reported: the copy in
    memory is made all the same. *)
Theorem createBackup_backup_file (now : Z) (s : store) (n : node) :
  let result := createBackup now (s, n) in
  let document := JSON_stringify (serializeStoreData now s) in
  (preserveDataDuringSync (cfg s) = false → result = (s, n))
  ∧ data result.1 = data s
  ∧ emitted result.1 = emitted s
  ∧ files result.2 !! storeFile (cfg s) = files n !! storeFile (cfg s)
  ∧ (preserveDataDuringSync (cfg s) = true →
     result.1 = backup_in_memory s
     ∧ (maps_wf s →
        backupData result.1
        = Backup (chats s) (messages s) (contacts s) (groupMetadata s))
     ∧ (backupBeforeSync (cfg s) = false → result.2 = n)
     ∧ (backupBeforeSync (cfg s) = true →
        faults n = [] → 10 ≤ String.length document →
        files result.2 !! backupFile (storeFile (cfg s)) = Some document)).
Proof.
  intros result document. unfold result, createBackup.
  destruct (preserveDataDuringSync (cfg s)); simpl; [|by split_and!].
  change (serializeStoreData now (backup_in_memory s))
    with (serializeStoreData now s).
  pose proof (writeToFileInternal_other now (backupFile (storeFile (cfg s)))
                (serializeStoreData now s) n (storeFile (cfg s))
                (backupFile_other _) (backup_tempFile_other _ _)) as Hother.
  pose proof (writeToFileInternal_target now (backupFile (storeFile (cfg s)))
                (serializeStoreData now s) n) as Htarget.
  pose proof (writeToFileInternal_works now (backupFile (storeFile (cfg s)))
                (serializeStoreData now s) n) as Hworks.
  fold document in Htarget, Hworks.
  destruct (backupBeforeSync (cfg s)); simpl.
  - destruct (writeToFileInternal _ _ _ _) as [[e|[]] n1];
      simpl in *; (split_and!; [done | done | done | done | intros _]);
      (split_and!; [done | apply backup_in_memory_copy | done |]).
    + intros _ Hplan Hsize. by destruct (Hworks Hplan Hsize) as (? & [=] & _).
    + by intros _ _ _.
  - split_and!; try done. intros _.
    split_and!; [done | apply backup_in_memory_copy | done | done].
Qed.

End saving.

(** ** Reading the store file *)

Section reading.
Import JsMapFacts.
Variable JSON_parse : string → option json.
Variable blank : string → bool.
Variable loadStoreData : json → store → store * option error.

Local Abbreviation readFromFile :=
  (readFromFile JSON_parse blank loadStoreData).

Lemma fs_readFile_files path n : files (fs_readFile path n).2 = files n.
Proof.
  unfold fs_readFile. pose proof (next_fault_files n) as Hf.
  destruct (next_fault n) as [[|p] n1]; simpl in *;
    destruct (files n1 !! path); done.
Qed.

(** X22. [readFromFile] only reads: whenever it returns, the files are what
    they were, and the file lock is free. *)
Theorem readFromFile_read_only (calls polls : nat) (now : Z) (file : string)
    (s : store) (n : node) (s' : store) (n' : node) :
  readFromFile calls polls now file (s, n) = Some (s', n') →
  files n' = files n ∧ JsMap.has "file" (writeLocks s') = false.
Proof.
  revert file s n s' n'.
  induction calls as [|calls IH]; intros file s n s' n'; [done|].
  simpl.
  destruct (acquireWriteLock polls "file" s) as [locked|]; [|done].
  pose proof (fs_stat_files file n) as Hs.
  destruct (fs_stat file n) as [[e|size] n1]; simpl in Hs.
  { intros [= <- <-]. split; [done | apply released_free]. }
  destruct (size <? 10).
  - pose proof (fs_stat_files (backupFile file) n1) as Hb.
    destruct (fs_stat (backupFile file) n1) as [[e|backupSize] n2]; simpl in Hb.
    { intros [= <- <-]. split; [congruence | apply released_free]. }
    destruct (10 <? backupSize).
    + destruct (readFromFile calls polls now (backupFile file)
                  (locked, n2)) as [[s3 n3]|] eqn:E; [|done].
      apply IH in E as [Hfiles _].
      intros [= <- <-]. split; [congruence | apply released_free].
    + intros [= <- <-]. split; [congruence | apply released_free].
  - pose proof (fs_readFile_files file n1) as Hr.
    destruct (fs_readFile file n1) as [[e|raw] n2]; simpl in Hr.
    { intros [= <- <-]. split; [congruence | apply released_free]. }
    destruct (blank raw).
    { intros [= <- <-]. split; [congruence | apply released_free]. }
    destruct (JSON_parse raw) as [doc|].
    + destruct (negb (validateStoreData doc)).
      { intros [= <- <-]. split; [congruence | apply released_free]. }
      destruct (loadStoreData doc locked) as [s2 [e|]];
        intros [= <- <-]; (split; [congruence | apply released_free]).
    + intros [= <- <-]. split; [congruence | apply released_free].
Qed.

(** X23. A file of 10 bytes or more that reads and parses is loaded: a valid
    document goes to [loadStoreData], after which the load is recorded in
    [stats.lastSave] and [hasInitialData] and [store.loaded] is emitted
    with the size of the file.  Content that does not parse is reported as
    [store.error] and nothing is loaded; so is an error of [loadStoreData],
    but what that had loaded so far stays in the store. *)
Theorem readFromFile_loads_or_reports (calls polls : nat) (now : Z)
    (file : string) (s : store) (n : node) (bytes : string) :
  lock_free s → faults n = [] →
  files n !! file = Some bytes → 10 ≤ String.length bytes →
  blank bytes = false →
  let locked := with_writeLocks (JsMap.set "file" true (writeLocks s)) s in
  ∃ s',
    readFromFile (S calls) polls now file (s, n) = Some (s', n)
    ∧ lock_free s'
    ∧ match JSON_parse bytes with
      | None =>
          data s' = data s ∧ hasInitialData s' = hasInitialData s
          ∧ emitted s' = emitted s ++ [store_error SyntaxError]
      | Some doc =>
          validateStoreData doc = true →
          match loadStoreData doc locked with
          | (loaded, None) =>
              data s' = data loaded
              ∧ hasInitialData s' = true
              ∧ lastSave (stats s') = Some now
              ∧ emitted s' = emitted loaded ++ [store_loaded file (String.length bytes)]
          | (loaded, Some e) =>
              data s' = data loaded
              ∧ hasInitialData s' = hasInitialData loaded
              ∧ emitted s' = emitted loaded ++ [store_error e]
          end
      end.
Proof.
  intros Hfree Hplan Hfile Hsize Hblank locked.
  simpl.
  rewrite acquireWriteLock_free by done. fold locked.
  rewrite (fs_stat_works file n bytes) by done.
  assert ((String.length bytes <? 10) = false) as -> by by apply Nat.ltb_ge.
  rewrite (fs_readFile_works file n bytes) by done.
  rewrite Hblank.
  destruct (JSON_parse bytes) as [doc|].
  - destruct (validateStoreData doc) eqn:Evalid; simpl.
    + destruct (loadStoreData doc locked) as [loaded [e|]];
        eexists; (split; [reflexivity|]); (split; [apply released_free|]);
        intros _; by split_and!.
    + eexists. split; [reflexivity|]. split; [apply released_free | done].
  - eexists. split; [reflexivity|]. split; [apply released_free|].
    by split_and!.
Qed.

End reading.


(** ** The span of a history sync *)

Section sync_span.
Import JsMapFacts.
Variable jidNormalizedUser : key → string.
Variable number_to_string : Z → string.
Variable JSON_stringify : snapshot → string.

Local Abbreviation merge_history := (merge_history jidNormalizedUser).
Local Abbreviation processHistorySet :=
  (processHistorySet jidNormalizedUser number_to_string JSON_stringify).
Local Abbreviation finalizeSyncProcess :=
  (finalizeSyncProcess number_to_string JSON_stringify).
Local Abbreviation mark_sync_start :=
  (mark_sync_start number_to_string JSON_stringify).
Local Abbreviation writeToFile := (writeToFile number_to_string JSON_stringify).

Lemma merge_history_sync_state now h s :
  sync_state (merge_history now h s) = sync_state s.
Proof.
  rewrite merge_history_unfold.
  change (sync_state (updateStats ?x)) with (sync_state x).
  unfold processMessagesOptimized.
  generalize (group_by_chat jidNormalizedUser (newMessages h)). intros g.
  assert (Hm : ∀ s, sync_state
                      (foldl (λ s e, processChatMessages now e.1 e.2 s) s g)
                    = sync_state s).
  { induction g as [|[j ms] g IH]; intros s0; simpl; [done|].
    rewrite IH. unfold processChatMessages, ensure_chat. simpl. by case_match. }
  rewrite Hm, (processContactsOptimized_fold jidNormalizedUser).
  assert (Hc : ∀ l s, sync_state
    (foldl (λ s contact,
              with_contacts
                (JsMap.set (jidNormalizedUser (contact !! "id"))
                   (<["lastUpdated" := VNum now]> contact) (contacts s)) s) s l)
    = sync_state s).
  { induction l as [|c l IH]; intros s0; simpl; [done|]. by rewrite IH. }
  rewrite Hc, processChatsOptimized_fold.
  assert (Hch : ∀ l s, sync_state
    (foldl (λ s chat,
              if JsMap.has (chat !! "id") (chats s) then s
              else new_chat (chat !! "id") (<["syncedAt" := VNum now]> chat) s)
           s l) = sync_state s).
  { induction l as [|c l IH]; intros s0; simpl; [done|].
    rewrite IH. by case_match. }
  rewrite Hch. unfold cleared. by case_match.
Qed.

Lemma restoreFromBackup_sync_state s :
  sync_state (restoreFromBackup s) = sync_state s.
Proof.
  unfold restoreFromBackup. case_match; [done|]. simpl.
  generalize (backup_messages (backupData s)). intros b.
  set (s0 := with_messages [] _).
  change (sync_state s) with (sync_state s0).
  generalize s0. induction b as [|e b IH]; intros s1; simpl; [done|].
  by rewrite IH.
Qed.

Lemma writeToFile_sync_state polls now file s n :
  lock_free s →
  ∃ s' n',
    writeToFile polls now file (s, n) = Some (s', n')
    ∧ sync_state s' = sync_state s ∧ lock_free s' ∧ data s' = data s.
Proof.
  intros Hfree.
  destruct (writeToFile_returns number_to_string JSON_stringify polls now
              file s n Hfree)
    as (s' & n' & Hrun & Hdata & _ & Hb & Hp & Hi & Ht & Hfree').
  exists s', n'. split_and!; try done.
  unfold sync_state. by rewrite Hb, Hp, Hi, Ht.
Qed.

(** When [finalizeSyncProcess] runs the sync is over: the flag is
    cleared, the start time forgotten and the backup dropped.  Data that
    is there stays; a store left with no chat, message or contact gets back
    what the backup holds, if it holds any and [preserveDataDuringSync] is
    on. *)
Lemma finalizeSyncProcess_ends polls now s n :
  lock_free s →
  ∃ s' n',
    finalizeSyncProcess polls now (s, n) = Some (s', n')
    ∧ lock_free s'
    ∧ isProcessingHistory s' = false ∧ syncStartTime s' = None
    ∧ backupData s' = Backup [] [] [] []
    ∧ data s' = data (if hasValidData s then s else restoreFromBackup s).
Proof.
  intros Hfree. unfold finalizeSyncProcess.
  destruct (hasValidData s) eqn:Hvalid.
  - destruct (writeToFile_sync_state polls now (storeFile (cfg s)) s n Hfree)
      as (s' & n' & -> & _ & Hfree' & Hdata).
    eexists _, _. by split_and!.
  - destruct (hasBackupData s) eqn:Hbackup.
    + assert (Hfree' : lock_free (restoreFromBackup s)).
      { unfold lock_free. by rewrite restoreFromBackup_locks. }
      destruct (writeToFile_sync_state polls now
                  (storeFile (cfg (restoreFromBackup s)))
                  (restoreFromBackup s) n Hfree')
        as (s' & n' & -> & _ & Hfree'' & Hdata).
      eexists _, _. by split_and!.
    + eexists _, _. split_and!; try done.
      unfold restoreFromBackup. rewrite Hbackup.
      by destruct (negb _).
Qed.

(** X24. A history sync spans the batches from the first one to the first that
    is marked latest or reports a progress of 100.  A batch that is not of
    the on-demand kind is processed to the end, whether or not a
    subscriber fails, and
    - if it is the last of the sync, the flag is cleared afterwards, the
      start time forgotten and the backup dropped;
    - otherwise the flag is set afterwards, the start time is the time
      the first batch arrived, and the backup and [hasInitialData] are
      those the first batch made: a later batch does not replace them. *)
Theorem processHistorySet_sync_span (polls : nat) (now finished : Z)
    (failure : option error) (h : historyData) (s : store) (n : node) :
  syncType h ≠ 6%Z → lock_free s →
  ∃ s' n',
    processHistorySet polls now finished failure h (s, n) = Some (s', n')
    ∧ lock_free s'
    ∧ if isLatest h || (100 <=? progress h)%Z
      then isProcessingHistory s' = false ∧ syncStartTime s' = None
           ∧ backupData s' = Backup [] [] [] []
      else isProcessingHistory s' = true
           ∧ (isProcessingHistory s = false → syncStartTime s' = Some now)
           ∧ (isProcessingHistory s = true → sync_state s' = sync_state s).
Proof.
  intros Htype Hfree. unfold processHistorySet.
  rewrite bool_decide_eq_false_2 by done.
  destruct (mark_sync_start_data number_to_string JSON_stringify now s n)
    as (_ & _ & Hlocks).
  assert (Hmark : isProcessingHistory (mark_sync_start now (s, n)).1 = true
                  ∧ (isProcessingHistory s = false →
                     syncStartTime (mark_sync_start now (s, n)).1 = Some now)
                  ∧ (isProcessingHistory s = true →
                     sync_state (mark_sync_start now (s, n)).1 = sync_state s)).
  { unfold mark_sync_start, createBackup.
    destruct (isProcessingHistory s) eqn:Ep; [by split_and!|]. simpl.
    destruct (hasValidData _); [|by split_and!].
    destruct (preserveDataDuringSync (cfg s)); [|by split_and!]. simpl.
    destruct (backupBeforeSync (cfg s)); [|by split_and!].
    by destruct (writeToFileInternal _ _ _ _ _ _). }
  destruct (mark_sync_start _ _) as [s1 n1].
  simpl in Hlocks, Hmark. fold merge_history.
  set (s2 := merge_history now h s1).
  assert (Hsync2 : sync_state s2 = sync_state s1)
    by apply merge_history_sync_state.
  assert (Hfree2 : lock_free s2).
  { unfold lock_free, s2.
    by rewrite (merge_history_locks jidNormalizedUser), Hlocks. }
  cbv zeta.
  assert (Hsaved : ∀ b : bool, ∃ s3 n3,
    (if b then writeToFile polls
                finished (storeFile (cfg s2)) (s2, n1)
     else Some (s2, n1)) = Some (s3, n3)
    ∧ sync_state s3 = sync_state s2 ∧ lock_free s3).
  { intros [].
    - destruct (writeToFile_sync_state polls finished (storeFile (cfg s2))
                  s2 n1 Hfree2) as (s3 & n3 & -> & Hs & Hf & _).
      by eexists _, _.
    - by eexists _, _. }
  match goal with
  | |- context [if ?b then writeToFile _ _ _ _ else _] =>
      destruct (Hsaved b) as (s3 & n3 & -> & Hsync3 & Hfree3)
  end.
  set (s4 := emit _ s3).
  set (s5 := match failure with Some _ => _ | None => s4 end).
  assert (Hsync5 : sync_state s5 = sync_state s1).
  { unfold s5. destruct failure; [|by rewrite <- Hsync2, <- Hsync3].
    change (sync_state (emit ?x ?y)) with (sync_state y).
    destruct (hasInitialData s4); [rewrite restoreFromBackup_sync_state|];
      by rewrite <- Hsync2, <- Hsync3. }
  assert (Hfree5 : lock_free s5).
  { unfold s5, lock_free. destruct failure; [|done].
    change (writeLocks (emit ?a ?b)) with (writeLocks b).
    destruct (hasInitialData s4); [by rewrite restoreFromBackup_locks | done]. }
  destruct (isLatest h || (100 <=? progress h)%Z).
  - destruct (finalizeSyncProcess_ends polls finished s5 n3 Hfree5)
      as (s' & n' & Hfin & Hfree' & Hp & Ht & Hb & _).
    exists s', n'. by split_and!.
  - exists s5, n3. split_and!; [done | done | | |].
    + destruct Hmark as (Hp & _). unfold sync_state in Hsync5. congruence.
    + intros Hp. destruct Hmark as (_ & Ht & _).
      unfold sync_state in Hsync5. specialize (Ht Hp). congruence.
    + intros Hp. destruct Hmark as (_ & _ & Hs). rewrite Hsync5. by apply Hs.
Qed.

End sync_span.

Section sync_end.
Import JsMapFacts.
Variable number_to_string : Z → string.
Variable JSON_stringify : snapshot → string.

Local Abbreviation finalizeSyncProcess :=
  (finalizeSyncProcess number_to_string JSON_stringify).

(** X25. A sync that ends on a store without chats, messages and contacts
    gives the store back what the backup holds: when the backup was made
    in a state [s0], the maps after [finalizeSyncProcess] are those of
    [s0], and the sync is over. *)
Theorem finalizeSyncProcess_restores_backup (polls : nat) (now : Z)
    (s0 s : store) (n : node) :
  maps_wf s0 → hasValidData s0 = true →
  backupData s = backupData (backup_in_memory s0) →
  preserveDataDuringSync (cfg s) = true →
  hasValidData s = false → lock_free s →
  ∃ s' n',
    finalizeSyncProcess polls now (s, n) = Some (s', n')
    ∧ chats s' = chats s0 ∧ messages s' = messages s0
    ∧ contacts s' = contacts s0 ∧ groupMetadata s' = groupMetadata s0
    ∧ isProcessingHistory s' = false
    ∧ backupData s' = Backup [] [] [] [].
Proof.
  intros Hwf Hvalid0 Hbackup Hp Hvalid Hfree.
  destruct (finalizeSyncProcess_ends number_to_string JSON_stringify polls now
              s n Hfree)
    as (s' & n' & Hfin & _ & Hflag & _ & Hb & Hdata).
  rewrite Hvalid in Hdata.
  rewrite (backup_in_memory_copy s0 Hwf) in Hbackup.
  assert (Hhas : hasBackupData s = true).
  { unfold hasBackupData. rewrite Hbackup. exact Hvalid0. }
  destruct (restoreFromBackup_maps s Hp Hhas) as (Hc & Hm & Hk & Hg).
  rewrite Hbackup in Hc, Hm, Hk, Hg. simpl in Hc, Hm, Hk, Hg.
  destruct Hwf as (Hwc & Hwm & Hwin & Hwk & Hwg).
  rewrite of_entries_wf in Hc by done.
  rewrite of_entries_wf in Hk by done.
  rewrite of_entries_wf in Hg by done.
  rewrite (copy_messages [] (messages s0)) in Hm by done. simpl in Hm.
  unfold data in Hdata. injection Hdata as _ Hc' Hm' Hk' Hg'.
  exists s', n'. split_and!; try done; congruence.
Qed.

End sync_end.

(** ** The counters after a history batch *)

Section recount.
Import JsMapFacts.
Variable jidNormalizedUser : key → string.
Variable number_to_string : Z → string.
Variable JSON_stringify : snapshot → string.

Local Abbreviation merge_history := (merge_history jidNormalizedUser).
Local Abbreviation processHistorySet :=
  (processHistorySet jidNormalizedUser number_to_string JSON_stringify).
Local Abbreviation finalizeSyncProcess :=
  (finalizeSyncProcess number_to_string JSON_stringify).
Local Abbreviation mark_sync_start :=
  (mark_sync_start number_to_string JSON_stringify).
Local Abbreviation writeToFile := (writeToFile number_to_string JSON_stringify).

Lemma stats_counted_updateStats s : stats_counted (updateStats s).
Proof. by split_and!. Qed.

Lemma stats_counted_same s s' :
  data s' = data s →
  totalChats (stats s') = totalChats (stats s) →
  totalContacts (stats s') = totalContacts (stats s) →
  totalMessages (stats s') = totalMessages (stats s) →
  stats_counted s → stats_counted s'.
Proof.
  unfold stats_counted, data. intros [= _ -> -> -> _] -> -> ->. done.
Qed.

Lemma writeToFile_counters polls now file s n s' n' :
  writeToFile polls now file (s, n) = Some (s', n') →
  data s' = data s
  ∧ totalChats (stats s') = totalChats (stats s)
  ∧ totalContacts (stats s') = totalContacts (stats s)
  ∧ totalMessages (stats s') = totalMessages (stats s).
Proof.
  unfold writeToFile, writeToFile_enter.
  destruct (isWriting s); [by intros [= <- <-]|].
  destruct (hasValidData s); simpl; [|by intros [= <- <-]].
  unfold writeToFile_body.
  destruct (acquireWriteLock _ _ _) as [s2|] eqn:E; [|done].
  apply acquireWriteLock_got in E. subst s2.
  destruct (writeToFileInternal _ _ _ _) as [[e|[]] n2];
    unfold writeToFile_finally; simpl;
    destruct (pendingWrites s); by intros [= <- <-].
Qed.

Lemma restoreFromBackup_recounts s :
  stats_counted s → stats_counted (restoreFromBackup s).
Proof.
  unfold restoreFromBackup. case_match; [done|]. intros _.
  apply stats_counted_updateStats.
Qed.

Lemma finalizeSyncProcess_stats_counted polls now s n s' n' :
  finalizeSyncProcess polls now (s, n) = Some (s', n') →
  stats_counted s → stats_counted s'.
Proof.
  unfold finalizeSyncProcess. intros Hfin Hs.
  destruct (hasValidData s).
  - destruct (writeToFile _ _ _ _) as [[s1 n1]|] eqn:E; [|done].
    injection Hfin as <- <-.
    apply writeToFile_counters in E as (Hd & Hc & Hk & Hm).
    by apply (stats_counted_same s).
  - destruct (hasBackupData s).
    + destruct (writeToFile _ _ _ _) as [[s1 n1]|] eqn:E; [|done].
      injection Hfin as <- <-.
      apply writeToFile_counters in E as (Hd & Hc & Hk & Hm).
      apply (stats_counted_same (restoreFromBackup s)); try done.
      by apply restoreFromBackup_recounts.
    + by injection Hfin as <- <-.
Qed.

(** X28. A history batch that is not of the on-demand kind recounts: when
    [processHistorySet] is through with it, [totalChats], [totalContacts]
    and [totalMessages] are the numbers of chats, of contacts and of stored
    messages, whatever they were before and whether or not a subscriber
    failed.  The counts [addMessage] and [processContactsUpsert] let drift
    are set right here. *)
Theorem processHistorySet_recounts (polls : nat) (now finished : Z)
    (failure : option error) (h : historyData) (s : store) (n : node) :
  syncType h ≠ 6%Z → lock_free s →
  ∃ s' n',
    processHistorySet polls now finished failure h (s, n) = Some (s', n')
    ∧ stats_counted s'.
Proof.
  intros Htype Hfree. unfold processHistorySet.
  rewrite bool_decide_eq_false_2 by done.
  destruct (mark_sync_start_data number_to_string JSON_stringify now s n)
    as (_ & _ & Hlocks).
  destruct (mark_sync_start _ _) as [s1 n1].
  simpl in Hlocks. fold merge_history.
  set (s2 := merge_history now h s1).
  assert (H2 : stats_counted s2) by apply stats_counted_updateStats.
  assert (Hfree2 : lock_free s2).
  { unfold lock_free, s2.
    by rewrite (merge_history_locks jidNormalizedUser), Hlocks. }
  cbv zeta.
  assert (Hsaved : ∀ b : bool, ∃ s3 n3,
    (if b then writeToFile polls
                finished (storeFile (cfg s2)) (s2, n1)
     else Some (s2, n1)) = Some (s3, n3)
    ∧ stats_counted s3 ∧ lock_free s3).
  { intros [].
    - destruct (writeToFile_sync_state number_to_string JSON_stringify polls
                  finished (storeFile (cfg s2))
                  s2 n1 Hfree2) as (s3 & n3 & Hrun & _ & Hf & _).
      exists s3, n3. split; [exact Hrun|]. split; [|exact Hf].
      apply writeToFile_counters in Hrun as (Hd & Hc & Hk & Hm).
      by apply (stats_counted_same s2).
    - by eexists _, _. }
  match goal with
  | |- context [if ?b then writeToFile _ _ _ _ else _] =>
      destruct (Hsaved b) as (s3 & n3 & -> & H3 & Hfree3)
  end.
  set (s4 := emit _ s3).
  set (s5 := match failure with Some _ => _ | None => s4 end).
  assert (H5 : stats_counted s5).
  { unfold s5. destruct failure; [|done].
    destruct (hasInitialData s4); [|done].
    apply (stats_counted_same (restoreFromBackup s4)); try done.
    by apply restoreFromBackup_recounts. }
  assert (Hfree5 : lock_free s5).
  { unfold s5, lock_free. destruct failure; [|done].
    change (writeLocks (emit ?a ?b)) with (writeLocks b).
    destruct (hasInitialData s4); [by rewrite restoreFromBackup_locks | done]. }
  destruct (isLatest h || (100 <=? progress h)%Z).
  - destruct (finalizeSyncProcess_ends number_to_string JSON_stringify polls
                finished s5 n3 Hfree5)
      as (s' & n' & Hfin & _).
    exists s', n'. split; [exact Hfin|].
    by eapply finalizeSyncProcess_stats_counted.
  - by exists s5, n3.
Qed.
End recount.

(** ** The cap under every event *)

Section cap_invariant.
Import JsMapFacts.
Variable jidNormalizedUser : key → string.
Variable string_gt_zero : string → bool.
Variable number_to_string : Z → string.
Variable JSON_stringify : snapshot → string.

Local Abbreviation handle :=
  (handle jidNormalizedUser string_gt_zero number_to_string JSON_stringify).
Local Abbreviation insert := (insert jidNormalizedUser).
Local Abbreviation merge_history := (merge_history jidNormalizedUser).
Local Abbreviation processHistorySet :=
  (processHistorySet jidNormalizedUser number_to_string JSON_stringify).
Local Abbreviation finalizeSyncProcess :=
  (finalizeSyncProcess number_to_string JSON_stringify).
Local Abbreviation mark_sync_start :=
  (mark_sync_start number_to_string JSON_stringify).
Local Abbreviation writeToFile := (writeToFile number_to_string JSON_stringify).
Local Abbreviation updateChat := (updateChat string_gt_zero number_to_string).
Local Abbreviation processContactsUpsert :=
  (processContactsUpsert jidNormalizedUser).

Lemma within_cap_same s s' :
  cfg s' = cfg s → messages s' = messages s → backupData s' = backupData s →
  within_cap s → within_cap s'.
Proof.
  unfold within_cap, messages_wf, capped, chat_messages.
  by intros -> -> ->.
Qed.

Lemma insert_guards op s :
  backupData (insert op s) = backupData s
  ∧ writeLocks (insert op s) = writeLocks s.
Proof.
  destruct op as [now jid m|now jid ms]; simpl.
  - unfold addMessage, ensure_chat. repeat case_match; done.
  - unfold processChatMessages, ensure_chat. simpl. by case_match.
Qed.

Lemma insert_within_cap op s : within_cap s → within_cap (insert op s).
Proof.
  intros (Hcap & Hwf & Hc & Hbw & Hb).
  pose proof (insert_cfg jidNormalizedUser op s) as Hcfg.
  destruct (insert_guards op s) as [Hbk _].
  split_and!.
  - by rewrite Hcfg.
  - by apply insert_wf.
  - by apply insert_capped.
  - by rewrite Hbk.
  - rewrite Hbk, Hcfg. apply Hb.
Qed.

Lemma inserts_within_cap ops s :
  within_cap s →
  within_cap (foldl (λ s op, insert op s) s ops)
  ∧ writeLocks (foldl (λ s op, insert op s) s ops) = writeLocks s.
Proof.
  revert s. induction ops as [|op ops IH]; intros s Hs; simpl; [done|].
  destruct (IH (insert op s)) as [H1 H2]; [by apply insert_within_cap|].
  split; [done|]. rewrite H2. apply insert_guards.
Qed.

Lemma upsertChat_guards now chat s :
  cfg (upsertChat now chat s) = cfg s
  ∧ messages (upsertChat now chat s) = messages s
  ∧ backupData (upsertChat now chat s) = backupData s
  ∧ writeLocks (upsertChat now chat s) = writeLocks s.
Proof. unfold upsertChat. repeat case_match; done. Qed.

Lemma updateChat_guards now update s :
  cfg (updateChat now update s) = cfg s
  ∧ messages (updateChat now update s) = messages s
  ∧ backupData (updateChat now update s) = backupData s
  ∧ writeLocks (updateChat now update s) = writeLocks s.
Proof. unfold updateChat. by case_match. Qed.

Lemma updateGroupMetadata_guards now update s :
  cfg (updateGroupMetadata now update s) = cfg s
  ∧ messages (updateGroupMetadata now update s) = messages s
  ∧ backupData (updateGroupMetadata now update s) = backupData s
  ∧ writeLocks (updateGroupMetadata now update s) = writeLocks s.
Proof. unfold updateGroupMetadata. by case_match. Qed.

(** A loop whose body leaves the configuration, the messages, the backup
    and the locks alone leaves them alone. *)
Lemma foldl_guards {A} (f : store → A → store) l s :
  (∀ s a, cfg (f s a) = cfg s ∧ messages (f s a) = messages s
          ∧ backupData (f s a) = backupData s
          ∧ writeLocks (f s a) = writeLocks s) →
  cfg (foldl f s l) = cfg s ∧ messages (foldl f s l) = messages s
  ∧ backupData (foldl f s l) = backupData s
  ∧ writeLocks (foldl f s l) = writeLocks s.
Proof.
  intros Hf. revert s. induction l as [|a l IH]; intros s; simpl; [done|].
  destruct (IH (f s a)) as (-> & -> & -> & ->). apply Hf.
Qed.

Lemma guarded s s' :
  cfg s' = cfg s ∧ messages s' = messages s
  ∧ backupData s' = backupData s ∧ writeLocks s' = writeLocks s →
  within_cap s ∧ lock_free s → within_cap s' ∧ lock_free s'.
Proof.
  intros (Hc & Hm & Hb & Hl) [Hs Hfree]. split.
  - by apply (within_cap_same s).
  - unfold lock_free. by rewrite Hl.
Qed.

Lemma processBatch_within_cap now batch type s :
  within_cap s ∧ lock_free s →
  within_cap (processBatch jidNormalizedUser now batch type s)
  ∧ lock_free (processBatch jidNormalizedUser now batch type s).
Proof.
  intros [Hs Hfree]. unfold processBatch.
  set (s1 := foldl _ s batch).
  assert (H1 : within_cap s1 ∧ lock_free s1).
  { unfold s1.
    assert (Hfold : ∀ s, foldl (λ s e, addMessage jidNormalizedUser now e.1 e.2 s)
                           s batch
                         = foldl (λ s op, insert op s) s
                             ((λ e, AddMessage now e.1 e.2) <$> batch)).
    { induction batch as [|e l IH]; intros s0; simpl; [done|]. by rewrite IH. }
    rewrite Hfold.
    destruct (inserts_within_cap ((λ e, AddMessage now e.1 e.2) <$> batch) s Hs)
      as [H1 H2].
    split; [done|]. unfold lock_free. by rewrite H2. }
  revert H1. apply guarded. apply foldl_guards.
  intros s0 e. case_match; [apply upsertChat_guards | done].
Qed.

Lemma in_messages_chat s jid m :
  JsMap.wf (messages s) → (jid, m) ∈ messages s → chat_messages jid s = m.
Proof.
  intros Hwf Hin. unfold chat_messages. by rewrite (elem_get _ _ _ Hwf Hin).
Qed.

Lemma backup_in_memory_within_cap s :
  within_cap s → within_cap (backup_in_memory s).
Proof.
  intros (Hcap & [Hout Hin] & Hc & _ & _).
  assert (Hcopy : backup_messages (backupData (backup_in_memory s)) = messages s).
  { unfold backup_in_memory. simpl.
    apply (copy_messages [] (messages s)); [done|].
    intros jid m Hm. rewrite <- (in_messages_chat s jid m Hout Hm). apply Hin. }
  split_and!; try done.
  - by rewrite Hcopy.
  - rewrite Hcopy. intros jid m Hm.
    rewrite <- (in_messages_chat s jid m Hout Hm). split; [apply Hin | apply Hc].
Qed.

Lemma mark_sync_start_within_cap now s n :
  within_cap s → within_cap (mark_sync_start now (s, n)).1.
Proof.
  intros Hs. unfold mark_sync_start, createBackup.
  destruct (isProcessingHistory s); [done|]. simpl.
  destruct (hasValidData _); [|done].
  destruct (preserveDataDuringSync (cfg s)); [|done]. simpl.
  assert (H : within_cap
                (backup_in_memory
                   (with_hasInitialData true (with_sync true (Some now) s)))).
  { apply backup_in_memory_within_cap. revert Hs. by apply within_cap_same. }
  destruct (backupBeforeSync (cfg s)); [|done].
  by destruct (writeToFileInternal _ _ _ _ _ _).
Qed.

Lemma restore_guards b s :
  cfg (foldl (λ s e, with_messages
                       (JsMap.set e.1 (JsMap.of_entries e.2) (messages s)) s) s b)
  = cfg s
  ∧ backupData
      (foldl (λ s e, with_messages
                       (JsMap.set e.1 (JsMap.of_entries e.2) (messages s)) s) s b)
    = backupData s.
Proof.
  revert s. induction b as [|e b IH]; intros s; simpl; [done|].
  by destruct (IH (with_messages
                     (JsMap.set e.1 (JsMap.of_entries e.2) (messages s)) s))
    as [-> ->].
Qed.

Lemma restoreFromBackup_within_cap s :
  within_cap s → within_cap (restoreFromBackup s).
Proof.
  intros Hs. unfold restoreFromBackup. case_match; [done|].
  destruct Hs as (Hcap & Hwf & Hc & Hbw & Hb).
  set (s0 := with_messages [] _).
  destruct (restore_messages (backup_messages (backupData s)) s0)
    as (Hm & _).
  set (s1 := foldl _ s0 _) in *.
  assert (Hcfg : cfg s1 = cfg s ∧ backupData s1 = backupData s)
    by apply (restore_guards _ s0).
  destruct Hcfg as [Hcfg Hbk].
  assert (Hmsgs : messages s1 = backup_messages (backupData s)).
  { rewrite Hm. apply (copy_messages [] _); [done|].
    intros jid m Hin. by apply Hb in Hin as [? _]. }
  apply (within_cap_same s1); try done.
  split_and!.
  - by rewrite Hcfg.
  - split; [by rewrite Hmsgs|]. intros jid. unfold chat_messages. rewrite Hmsgs.
    destruct (JsMap.get jid _) as [m|] eqn:E; simpl; [|constructor].
    apply get_Some_elem in E. by apply Hb in E as [? _].
  - intros jid. unfold chat_messages. rewrite Hmsgs, Hcfg.
    destruct (JsMap.get jid _) as [m|] eqn:E; simpl; [|lia].
    apply get_Some_elem in E. by apply Hb in E as [_ ?].
  - by rewrite Hbk.
  - by rewrite Hbk, Hcfg.
Qed.

Lemma processMessagesOptimized_within_cap now l s :
  within_cap s →
  within_cap (processMessagesOptimized jidNormalizedUser now l s).
Proof.
  intros Hs. unfold processMessagesOptimized.
  generalize (group_by_chat jidNormalizedUser l). intros g.
  assert (Hfold : ∀ s, foldl (λ s e, processChatMessages now e.1 e.2 s) s g
                       = foldl (λ s op, insert op s) s
                           ((λ e, ProcessChatMessages now e.1 e.2) <$> g)).
  { induction g as [|e g IH]; intros s0; simpl; [done|]. by rewrite IH. }
  rewrite Hfold. by apply inserts_within_cap.
Qed.

Lemma cleared_within_cap h s : within_cap s → within_cap (cleared h s).
Proof.
  intros Hs. unfold cleared. case_match; [|done].
  destruct Hs as (Hcap & _ & _ & Hbw & Hb).
  split_and!; try done.
  - split; [constructor | intros jid; constructor].
  - intros jid. unfold chat_messages. simpl. lia.
Qed.

Lemma merge_history_within_cap now h s :
  within_cap s → within_cap (merge_history now h s).
Proof.
  intros Hs. rewrite merge_history_unfold.
  apply (within_cap_same
           (processMessagesOptimized jidNormalizedUser now (newMessages h)
              (processContactsOptimized jidNormalizedUser now (newContacts h)
                 (processChatsOptimized now (newChats h) (cleared h s)))));
    try done.
  apply processMessagesOptimized_within_cap.
  rewrite (processContactsOptimized_fold jidNormalizedUser),
    processChatsOptimized_fold.
  apply (cleared_within_cap h) in Hs. revert Hs.
  generalize (cleared h s). intros s0 Hs.
  destruct (foldl_guards (add_contact jidNormalizedUser now) (newContacts h)
              (foldl (add_chat now) s0 (newChats h))) as (Hc & Hm & Hb & _);
    [done|].
  destruct (foldl_guards (add_chat now) (newChats h) s0) as (Hc' & Hm' & Hb' & _).
  { intros s1 chat. unfold add_chat. by case_match. }
  apply (within_cap_same s0); [congruence | congruence | congruence | done].
Qed.

Lemma clearBackup_within_cap processing start s :
  within_cap s → within_cap (with_sync processing start (clearBackup s)).
Proof.
  intros (Hcap & Hwf & Hc & _). split_and!; try done.
  - constructor.
  - intros jid m Hin. by apply elem_of_nil in Hin.
Qed.

Lemma writeToFile_within_cap polls now file s n :
  within_cap s → lock_free s →
  ∃ s' n',
    writeToFile polls now file (s, n) = Some (s', n')
    ∧ within_cap s' ∧ lock_free s'.
Proof.
  intros Hs Hfree.
  destruct (writeToFile_returns number_to_string JSON_stringify polls now
              file s n Hfree)
    as (s' & n' & Hrun & Hdata & Hcfg & Hb & _ & _ & _ & Hfree').
  exists s', n'. split_and!; try done.
  unfold data in Hdata. injection Hdata as _ _ Hm _ _.
  by apply (within_cap_same s).
Qed.

Lemma finalizeSyncProcess_within_cap polls now s n :
  within_cap s → lock_free s →
  ∃ s' n',
    finalizeSyncProcess polls now (s, n) = Some (s', n')
    ∧ within_cap s' ∧ lock_free s'.
Proof.
  intros Hs Hfree. unfold finalizeSyncProcess.
  destruct (hasValidData s).
  - destruct (writeToFile_within_cap polls now (storeFile (cfg s)) s n Hs Hfree)
      as (s' & n' & -> & Hs' & Hfree').
    eexists _, _. split; [reflexivity|]. split; [|done].
    by apply clearBackup_within_cap.
  - destruct (hasBackupData s).
    + assert (Hfree1 : lock_free (restoreFromBackup s)).
      { unfold lock_free. by rewrite restoreFromBackup_locks. }
      destruct (writeToFile_within_cap polls now
                  (storeFile (cfg (restoreFromBackup s)))
                  (restoreFromBackup s) n
                  (restoreFromBackup_within_cap s Hs) Hfree1)
        as (s' & n' & -> & Hs' & Hfree').
      eexists _, _. split; [reflexivity|]. split; [|done].
      by apply clearBackup_within_cap.
    + eexists _, _. split; [reflexivity|]. split; [|done].
      by apply clearBackup_within_cap.
Qed.

Lemma processHistorySet_within_cap polls now finished failure h s n :
  within_cap s → lock_free s →
  ∃ s' n',
    processHistorySet polls now finished failure h (s, n) = Some (s', n')
    ∧ within_cap s' ∧ lock_free s'.
Proof.
  intros Hs Hfree. unfold processHistorySet.
  case_bool_decide; [by eexists _, _|].
  destruct (mark_sync_start_data number_to_string JSON_stringify now s n)
    as (_ & _ & Hlocks).
  pose proof (mark_sync_start_within_cap now s n Hs) as H1.
  destruct (mark_sync_start _ _) as [s1 n1].
  simpl in Hlocks, H1. fold merge_history.
  set (s2 := merge_history now h s1).
  assert (H2 : within_cap s2) by by apply merge_history_within_cap.
  assert (Hfree2 : lock_free s2).
  { unfold lock_free, s2.
    by rewrite (merge_history_locks jidNormalizedUser), Hlocks. }
  cbv zeta.
  assert (Hsaved : ∀ b : bool, ∃ s3 n3,
    (if b then writeToFile polls
                finished (storeFile (cfg s2)) (s2, n1)
     else Some (s2, n1)) = Some (s3, n3)
    ∧ within_cap s3 ∧ lock_free s3).
  { intros []; [by apply writeToFile_within_cap | by eexists _, _]. }
  match goal with
  | |- context [if ?b then writeToFile _ _ _ _ else _] =>
      destruct (Hsaved b) as (s3 & n3 & -> & H3 & Hfree3)
  end.
  set (s4 := emit _ s3).
  set (s5 := match failure with Some _ => _ | None => s4 end).
  assert (H5 : within_cap s5 ∧ lock_free s5).
  { unfold s5. destruct failure; [|done].
    destruct (hasInitialData s4); [|done]. split.
    - apply (within_cap_same (restoreFromBackup s4)); try done.
      by apply restoreFromBackup_within_cap.
    - unfold lock_free.
      change (writeLocks (emit ?a ?b)) with (writeLocks b).
      by rewrite restoreFromBackup_locks. }
  destruct H5 as [H5 Hfree5].
  destruct (isLatest h || (100 <=? progress h)%Z).
  - by apply finalizeSyncProcess_within_cap.
  - by exists s5, n3.
Qed.

Lemma delete_within_cap chatId s :
  within_cap s →
  within_cap (with_messages (delete_messages_of chatId (messages s))
                (with_chats (JsMap.delete chatId (chats s)) s)).
Proof.
  intros (Hcap & [Hout Hin] & Hc & Hbw & Hb).
  assert (Hchat : ∀ jid,
    chat_messages jid
      (with_messages (delete_messages_of chatId (messages s))
         (with_chats (JsMap.delete chatId (chats s)) s))
    = if decide (chatId = Some (VStr jid)) then [] else chat_messages jid s).
  { intros jid. unfold chat_messages. simpl.
    rewrite delete_messages_of_get. by case_decide. }
  split_and!; try done.
  - split.
    + simpl. unfold delete_messages_of. repeat case_match; try done.
      by apply wf_delete.
    + intros jid. rewrite Hchat. case_decide; [constructor | apply Hin].
  - intros jid. rewrite Hchat. case_decide; [simpl; lia | apply Hc].
Qed.

(** X30. No event of the binder lets a chat grow past [maxMessagesPerChat]: when
    the cap is not negative and no chat holds more messages than it allows,
    this is so again once the event is handled, and the handler returns
    when nobody holds the file lock.  The backup a history sync takes,
    which may be restored, stays within the cap as well. *)
Theorem handle_within_cap (polls : nat) (now : Z) (ev : event)
    (s : store) (n : node) :
  within_cap s → lock_free s →
  ∃ s' n',
    handle polls now ev (s, n) = Some (s', n')
    ∧ within_cap s' ∧ lock_free s'.
Proof.
  intros Hs Hfree. unfold handle.
  destruct ev as [batch type|h finished failure|cs|us|cs|ds|cs|us].
  - case_match; [by eexists _, _|].
    eexists _, _. split; [reflexivity|]. by apply processBatch_within_cap.
  - by apply processHistorySet_within_cap.
  - case_match; eexists _, _; (split; [reflexivity|]); [done|].
    apply (guarded s); [|done]. apply foldl_guards.
    intros s0 c. apply upsertChat_guards.
  - eexists _, _. split; [reflexivity|].
    apply (guarded s); [|done]. apply foldl_guards.
    intros s0 u. apply updateChat_guards.
  - eexists _, _. split; [reflexivity|].
    apply (guarded s); [|done]. apply foldl_guards.
    intros s0 c. apply upsertChat_guards.
  - eexists _, _. split; [reflexivity|].
    set (s1 := foldl _ s ds).
    assert (H1 : within_cap s1 ∧ lock_free s1).
    { unfold s1. clear s1. revert s Hs Hfree.
      induction ds as [|d ds IH]; intros s Hs Hfree; simpl; [done|].
      apply IH; [by apply delete_within_cap | done]. }
    revert H1. by apply guarded.
  - eexists _, _. split; [reflexivity|].
    apply (guarded s); [|done]. unfold processContactsUpsert.
    apply foldl_guards. done.
  - eexists _, _. split; [reflexivity|].
    apply (guarded s); [|done]. apply foldl_guards.
    intros s0 u. apply updateGroupMetadata_guards.
Qed.
End cap_invariant.

(** ** Loading a document *)

Section object_facts.
Context {V : Type}.
Implicit Types (fields : list (string * V)).

Lemma indexed_fields fields :
  (omap (λ e : string * V, (λ i, (i, e)) <$> array_index e.1) fields).*2
  = filter (λ e, array_index e.1 ≠ None) fields.
Proof.
  induction fields as [|e l IH]; [done|].
  cbn [omap list_omap]. destruct (array_index e.1) eqn:E.
  - rewrite filter_cons_True by (by rewrite E).
    cbn [fmap option_fmap option_map list_fmap snd]. by rewrite <- IH.
  - rewrite filter_cons_False by (rewrite E; intros H; by apply H).
    cbn [fmap option_fmap option_map]. done.
Qed.

Lemma filter_split (P : string * V → Prop) `{!∀ e, Decision (P e)} fields :
  filter (λ e, ¬ P e) fields ++ filter P fields ≡ₚ fields.
Proof.
  induction fields as [|e l IH]; [done|].
  rewrite !filter_cons. destruct (decide (P e)).
  - rewrite decide_False by tauto.
    rewrite <- Permutation_middle. by rewrite IH.
  - rewrite decide_True by done. simpl. by rewrite IH.
Qed.

(** [Object.entries] lists every property once. *)
Lemma Object_entries_perm fields : Object_entries fields ≡ₚ fields.
Proof.
  unfold Object_entries.
  rewrite (fmap_Permutation snd _ _ (js_sort_perm _ _)), indexed_fields.
  apply (filter_split (λ e, array_index e.1 = None)).
Qed.

(** When no name is an array index it lists them in the order of
    creation. *)
Lemma Object_entries_names fields :
  Forall (λ e, array_index e.1 = None) fields → Object_entries fields = fields.
Proof.
  intros Hnames. unfold Object_entries.
  assert (omap (λ e : string * V, (λ i, (i, e)) <$> array_index e.1) fields = [])
    as ->.
  { induction Hnames as [|e l He _ IH]; [done|].
    cbn [omap list_omap]. rewrite He. exact IH. }
  simpl. apply filter_all. by apply Forall_forall.
Qed.
End object_facts.

Section loader_facts.
Import JsMapFacts.

(** Setting pairs one after the other: the last pair with a key wins. *)
Lemma set_pairs_get {K A B} `{EqDecision K} (g : A → B)
    (m : jsmap K B) (l : list (K * A)) (k : K) :
  JsMap.get k (foldl (λ m e, JsMap.set e.1 (g e.2) m) m l)
  = match JsMap.get k (reverse l) with
    | Some v => Some (g v)
    | None => JsMap.get k m
    end.
Proof.
  induction l as [|[k' v] l IH] using rev_ind; [done|].
  rewrite foldl_app, reverse_app. cbn [foldl reverse rev_append app JsMap.get fst snd].
  destruct (decide (k = k')) as [->|Hne].
  - by rewrite get_set_eq.
  - by rewrite get_set_ne.
Qed.

Lemma set_pairs_get_plain {K A} `{EqDecision K}
    (m : jsmap K A) (l : list (K * A)) (k : K) :
  JsMap.get k (foldl (λ m e, JsMap.set e.1 e.2 m) m l)
  = match JsMap.get k (reverse l) with
    | Some v => Some v
    | None => JsMap.get k m
    end.
Proof. exact (set_pairs_get id m l k). Qed.

Lemma perm_get {K A} `{EqDecision K} (l l' : jsmap K A) (k : K) :
  wf l → l ≡ₚ l' → JsMap.get k l' = JsMap.get k l.
Proof.
  intros Hwf Hp.
  assert (Hwf' : wf l').
  { unfold wf, JsMap.keys in *. by rewrite <- Hp. }
  destruct (JsMap.get k l) as [v|] eqn:E.
  - apply get_Some_elem in E. rewrite Hp in E. by apply elem_get.
  - apply get_None in E. apply get_None. unfold JsMap.keys in *.
    by rewrite <- Hp.
Qed.

Lemma load_messages_frame (l : list (string * list (string * stored_message))) s :
  let s' := foldl (λ s e, with_messages
                            (JsMap.set e.1 (JsMap.of_entries e.2) (messages s)) s)
                  s l in
  messages s' = foldl (λ m e, JsMap.set e.1 (JsMap.of_entries e.2) m) (messages s) l
  ∧ heap s' = heap s ∧ chats s' = chats s ∧ contacts s' = contacts s
  ∧ groupMetadata s' = groupMetadata s.
Proof.
  revert s. induction l as [|e l IH]; intros s; simpl; [done|].
  by destruct (IH (with_messages
                     (JsMap.set e.1 (JsMap.of_entries e.2) (messages s)) s))
    as (-> & -> & -> & -> & ->).
Qed.

Lemma load_contacts_frame (l : list (string * obj)) s :
  let s' := foldl (λ s e, with_contacts (JsMap.set e.1 e.2 (contacts s)) s) s l in
  contacts s' = foldl (λ m e, JsMap.set e.1 e.2 m) (contacts s) l
  ∧ heap s' = heap s ∧ chats s' = chats s ∧ messages s' = messages s
  ∧ groupMetadata s' = groupMetadata s.
Proof.
  revert s. induction l as [|e l IH]; intros s; simpl; [done|].
  by destruct (IH (with_contacts (JsMap.set e.1 e.2 (contacts s)) s))
    as (-> & -> & -> & -> & ->).
Qed.

Lemma load_groups_frame (l : list (key * obj)) s :
  let s' := foldl (λ s e, with_groupMetadata
                            (JsMap.set e.1 e.2 (groupMetadata s)) s) s l in
  groupMetadata s' = foldl (λ m e, JsMap.set e.1 e.2 m) (groupMetadata s) l
  ∧ heap s' = heap s ∧ chats s' = chats s ∧ messages s' = messages s
  ∧ contacts s' = contacts s.
Proof.
  revert s. induction l as [|e l IH]; intros s; simpl; [done|].
  by destruct (IH (with_groupMetadata (JsMap.set e.1 e.2 (groupMetadata s)) s))
    as (-> & -> & -> & -> & ->).
Qed.

Lemma load_chats_frame (l : list (key * obj)) s :
  let s' := foldl (λ s e, new_chat e.1 e.2 s) s l in
  messages s' = messages s ∧ contacts s' = contacts s
  ∧ groupMetadata s' = groupMetadata s
  ∧ heap s' = heap s ++ l.*2.
Proof.
  revert s. induction l as [|e l IH]; intros s; simpl.
  - by rewrite app_nil_r.
  - destruct (IH (new_chat e.1 e.2 s)) as (-> & -> & -> & ->). simpl.
    by rewrite <- app_assoc.
Qed.


(** A chat that is there and that the pairs do not name keeps its
    object. *)
Lemma load_chats_keeps (l : list (key * obj)) s id r o :
  JsMap.get id (chats s) = Some r → heap s !! r = Some o →
  JsMap.get id (reverse l) = None →
  JsMap.get id (chats (foldl (λ s e, new_chat e.1 e.2 s) s l)) = Some r
  ∧ heap (foldl (λ s e, new_chat e.1 e.2 s) s l) !! r = Some o.
Proof.
  intros Hid Hr Hl.
  destruct (load_chats_frame l s) as (_ & _ & _ & ->).
  split; [|by apply lookup_app_l_Some].
  clear Hr. induction l as [|[k v] l IH] using rev_ind; [done|].
  rewrite reverse_app in Hl. cbn [reverse rev_append app JsMap.get fst snd] in Hl.
  rewrite foldl_app. cbn [foldl fst snd].
  destruct (decide (id = k)) as [->|Hne]; [done|].
  simpl. rewrite get_set_ne by done. by apply IH.
Qed.

(** A chat that the pairs name is stored as the last pair has it. *)
Lemma load_chats_stores (l : list (key * obj)) s id o :
  JsMap.get id (reverse l) = Some o →
  ∃ r, JsMap.get id (chats (foldl (λ s e, new_chat e.1 e.2 s) s l)) = Some r
       ∧ heap (foldl (λ s e, new_chat e.1 e.2 s) s l) !! r = Some o.
Proof.
  revert s. induction l as [|[k v] l IH] using rev_ind; intros s Hl; [done|].
  rewrite reverse_app in Hl. cbn [reverse rev_append app JsMap.get fst snd] in Hl.
  rewrite foldl_app. cbn [foldl fst snd].
  set (s1 := foldl _ s l) in *.
  destruct (decide (id = k)) as [->|Hne].
  - injection Hl as ->. exists (length (heap s1)). split.
    + simpl. apply get_set_eq.
    + simpl. by rewrite lookup_app_r, Nat.sub_diag.
  - destruct (IH s Hl) as (r & Hr & Ho). fold s1 in Hr, Ho.
    exists r. split.
    + simpl. by rewrite get_set_ne.
    + simpl. by apply lookup_app_l_Some.
Qed.
End loader_facts.

Section loading_documents.
Import JsMapFacts.

(** X26. [loadStoreData] adds to what the store holds and removes nothing.
    Under every key the document names, the value of the last pair with
    that key is stored, a chat as a fresh object and a chat's messages as
    a fresh map; what is stored under the other keys stays as it was.
    The counters of [stats] are computed anew from the maps. *)
Theorem loadStoreData_merges (data : document) (s : store) :
  let s' := loadStoreData data s in
  let chat_pairs := default [] (doc_chats data) in
  let contact_pairs :=
    match doc_contacts data with
    | inl pairs => pairs
    | inr fields => Object_entries fields
    end in
  let group_pairs := default [] (doc_groupMetadata data) in
  (∀ id r o,
     JsMap.get id (chats s) = Some r → heap s !! r = Some o →
     JsMap.get id (reverse chat_pairs) = None →
     JsMap.get id (chats s') = Some r ∧ heap s' !! r = Some o)
  ∧ (∀ id o,
       JsMap.get id (reverse chat_pairs) = Some o →
       ∃ r, JsMap.get id (chats s') = Some r ∧ heap s' !! r = Some o)
  ∧ (∀ jid,
       JsMap.get jid (messages s')
       = match JsMap.get jid (reverse (Object_entries (doc_messages data))) with
         | Some msgs => Some (JsMap.of_entries msgs)
         | None => JsMap.get jid (messages s)
         end)
  ∧ (∀ jid,
       JsMap.get jid (contacts s')
       = match JsMap.get jid (reverse contact_pairs) with
         | Some contact => Some contact
         | None => JsMap.get jid (contacts s)
         end)
  ∧ (∀ id,
       JsMap.get id (groupMetadata s')
       = match JsMap.get id (reverse group_pairs) with
         | Some meta => Some meta
         | None => JsMap.get id (groupMetadata s)
         end)
  ∧ totalChats (stats s') = Z.of_nat (JsMap.size (chats s'))
  ∧ totalContacts (stats s') = Z.of_nat (JsMap.size (contacts s')).
Proof.
  intros s' chat_pairs contact_pairs group_pairs.
  unfold s', loadStoreData. cbv zeta.
  set (s1 := match doc_chats data with
             | Some pairs => foldl (λ s e, new_chat e.1 e.2 s) s pairs
             | None => s
             end).
  assert (H1 : s1 = foldl (λ s e, new_chat e.1 e.2 s) s chat_pairs).
  { unfold s1, chat_pairs. by destruct (doc_chats data). }
  set (s2 := foldl _ s1 (Object_entries (doc_messages data))).
  destruct (load_messages_frame (Object_entries (doc_messages data)) s1)
    as (Hm2 & Hh2 & Hc2 & Hk2 & Hg2). fold s2 in Hm2, Hh2, Hc2, Hk2, Hg2.
  set (s3 := match doc_contacts data with
             | inl pairs => _
             | inr fields => _
             end).
  assert (H3 : s3 = foldl (λ s e, with_contacts
                                    (JsMap.set e.1 e.2 (contacts s)) s)
                      s2 contact_pairs).
  { unfold s3, contact_pairs. by destruct (doc_contacts data). }
  destruct (load_contacts_frame contact_pairs s2) as (Hk3 & Hh3 & Hc3 & Hm3 & Hg3).
  rewrite <- H3 in Hk3, Hh3, Hc3, Hm3, Hg3.
  set (s4 := match doc_groupMetadata data with
             | Some pairs => _
             | None => s3
             end).
  assert (H4 : s4 = foldl (λ s e, with_groupMetadata
                                    (JsMap.set e.1 e.2 (groupMetadata s)) s)
                      s3 group_pairs).
  { unfold s4, group_pairs. by destruct (doc_groupMetadata data). }
  destruct (load_groups_frame group_pairs s3) as (Hg4 & Hh4 & Hc4 & Hm4 & Hk4).
  rewrite <- H4 in Hg4, Hh4, Hc4, Hm4, Hk4.
  destruct (load_chats_frame chat_pairs s) as (Hm1 & Hk1 & Hg1 & _).
  rewrite <- H1 in Hm1, Hk1, Hg1.
  split_and!.
  - intros id r o.
    change (chats (updateStats s4)) with (chats s4).
    change (heap (updateStats s4)) with (heap s4).
    rewrite Hc4, Hc3, Hc2, Hh4, Hh3, Hh2, H1. apply load_chats_keeps.
  - intros id o.
    change (chats (updateStats s4)) with (chats s4).
    change (heap (updateStats s4)) with (heap s4).
    rewrite Hc4, Hc3, Hc2, Hh4, Hh3, Hh2, H1. apply load_chats_stores.
  - intros jid. change (messages (updateStats s4)) with (messages s4).
    rewrite Hm4, Hm3, Hm2, Hm1. apply (set_pairs_get JsMap.of_entries).
  - intros jid. change (contacts (updateStats s4)) with (contacts s4).
    rewrite Hk4, Hk3, Hk2, Hk1. apply set_pairs_get_plain.
  - intros id. change (groupMetadata (updateStats s4)) with (groupMetadata s4).
    rewrite Hg4, Hg3, Hg2, Hg1. apply set_pairs_get_plain.
  - done.
  - done.
Qed.

Lemma load_chats_entries (pairs : list (key * obj)) s :
  Forall (λ e, e.2 < length (heap s)) (chats s) →
  NoDup (JsMap.keys (chats s) ++ JsMap.keys pairs) →
  chat_entries (foldl (λ s e, new_chat e.1 e.2 s) s pairs)
  = chat_entries s ++ pairs.
Proof.
  revert s. induction pairs as [|[k v] l IH]; intros s Hvalid Hwf.
  - simpl. by rewrite app_nil_r.
  - cbn [foldl fst snd].
    assert (Hk : JsMap.get k (chats s) = None).
    { apply get_None. apply NoDup_app in Hwf as (_ & Hdisj & _).
      intros Hin. apply (Hdisj _ Hin). left. }
    assert (Hc : chats (new_chat k v s) = chats s ++ [(k, length (heap s))]).
    { simpl. by apply set_absent. }
    assert (He : chat_entries (new_chat k v s) = chat_entries s ++ [(k, v)]).
    { unfold chat_entries. rewrite Hc, fmap_app. f_equal.
      - apply Forall_fmap_ext_1. eapply Forall_impl; [exact Hvalid|].
        intros [k' r] Hr. simpl in *. f_equal. unfold deref.
        by rewrite lookup_app_l.
      - simpl. f_equal. f_equal. unfold deref.
        by rewrite lookup_app_r, Nat.sub_diag. }
    rewrite IH.
    + by rewrite He, <- app_assoc.
    + rewrite Hc. apply Forall_app. split.
      * eapply Forall_impl; [exact Hvalid|]. intros e He'. simpl in *.
        rewrite length_app. simpl. lia.
      * constructor; [|constructor]. simpl. rewrite length_app. simpl. lia.
    + rewrite Hc. unfold JsMap.keys in *. rewrite fmap_app, <- app_assoc.
      exact Hwf.
Qed.

Lemma total_perm (l l' : list (jsmap string stored_message)) (a : Z) :
  l ≡ₚ l' →
  foldl (λ total chatMsgs, (total + Z.of_nat (JsMap.size chatMsgs))%Z) a l
  = foldl (λ total chatMsgs, (total + Z.of_nat (JsMap.size chatMsgs))%Z) a l'.
Proof.
  intros Hp. revert a.
  induction Hp as [|x l l' _ IH|x y l|l l' l'' _ IH1 _ IH2]; intros a; simpl.
  - done.
  - apply IH.
  - f_equal. lia.
  - by rewrite IH1.
Qed.

(** X27. A store written out with [serializeStoreData] and read into a new
    store with [loadStoreData] comes back: the same chats with the same
    fields in the same order, the same messages for every chat, the same
    contacts and group metadata.  The chats of the messages map come back
    in the same order too unless a chat id is an array index.  The
    counters of [stats] are those of the maps, not those written out. *)
Theorem loadStoreData_round_trip (now : Z) (s : store) (c : config) :
  maps_wf s →
  let s' := loadStoreData (document_of (serializeStoreData now s))
              (new_store c) in
  chat_entries s' = chat_entries s
  ∧ (∀ jid, chat_messages jid s' = chat_messages jid s)
  ∧ messages s' ≡ₚ messages s
  ∧ (Forall (λ e, array_index e.1 = None) (messages s) →
     messages s' = messages s)
  ∧ contacts s' = contacts s
  ∧ groupMetadata s' = groupMetadata s
  ∧ totalChats (stats s') = Z.of_nat (JsMap.size (chats s))
  ∧ totalContacts (stats s') = Z.of_nat (JsMap.size (contacts s))
  ∧ totalMessages (stats s') = totalMessages (stats (updateStats s)).
Proof.
  intros (Hwc & Hwm & Hwin & Hwk & Hwg) s'.
  unfold s', loadStoreData, document_of, serializeStoreData. cbv zeta.
  cbn [doc_chats doc_messages doc_contacts doc_groupMetadata snapshot_chats
       snapshot_messages snapshot_contacts snapshot_groupMetadata].
  set (s1 := foldl (λ s e, new_chat e.1 e.2 s) (new_store c) (chat_entries s)).
  assert (He1 : chat_entries s1 = chat_entries s).
  { unfold s1. rewrite load_chats_entries; [done | constructor |].
    simpl. unfold wf, JsMap.keys, chat_entries in *.
    by rewrite <- list_fmap_compose. }
  destruct (load_chats_frame (chat_entries s) (new_store c))
    as (Hm1 & Hk1 & Hg1 & Hh1). fold s1 in Hm1, Hk1, Hg1, Hh1.
  set (s2 := foldl _ s1 (Object_entries (messages s))).
  destruct (load_messages_frame (Object_entries (messages s)) s1)
    as (Hm2 & Hh2 & Hc2 & Hk2 & Hg2). fold s2 in Hm2, Hh2, Hc2, Hk2, Hg2.
  set (s3 := foldl _ s2 (contacts s)).
  destruct (load_contacts_frame (contacts s) s2) as (Hk3 & Hh3 & Hc3 & Hm3 & Hg3).
  fold s3 in Hk3, Hh3, Hc3, Hm3, Hg3.
  set (s4 := foldl _ s3 (groupMetadata s)).
  destruct (load_groups_frame (groupMetadata s) s3) as (Hg4 & Hh4 & Hc4 & Hm4 & Hk4).
  fold s4 in Hg4, Hh4, Hc4, Hm4, Hk4.
  pose proof (Object_entries_perm (messages s)) as Hperm.
  assert (Hmsgs : messages s4 = Object_entries (messages s)).
  { rewrite Hm4, Hm3, Hm2, Hm1. simpl.
    apply (copy_messages [] (Object_entries (messages s))).
    - simpl. unfold wf, JsMap.keys in *. by rewrite Hperm.
    - intros jid m Hin. apply (Hwin jid). by rewrite <- Hperm. }
  assert (Hcontacts : contacts s4 = contacts s).
  { rewrite Hk4, Hk3, Hk2, Hk1. simpl. by apply (of_entries_app [] (contacts s)). }
  assert (Hgroups : groupMetadata s4 = groupMetadata s).
  { rewrite Hg4, Hg3, Hg2, Hg1. simpl.
    by apply (of_entries_app [] (groupMetadata s)). }
  assert (Hentries : chat_entries s4 = chat_entries s).
  { unfold chat_entries in *. by rewrite Hc4, Hc3, Hc2, Hh4, Hh3, Hh2. }
  assert (Hsize : JsMap.size (chats s4) = JsMap.size (chats s)).
  { apply (f_equal length) in Hentries. unfold chat_entries in Hentries.
    by rewrite !length_fmap in Hentries. }
  split_and!.
  - exact Hentries.
  - intros jid. unfold chat_messages.
    change (messages (updateStats s4)) with (messages s4).
    by rewrite Hmsgs, (perm_get (messages s) _ jid Hwm).
  - change (messages (updateStats s4)) with (messages s4). by rewrite Hmsgs.
  - intros Hnames. change (messages (updateStats s4)) with (messages s4).
    by rewrite Hmsgs, Object_entries_names.
  - exact Hcontacts.
  - exact Hgroups.
  - simpl. by rewrite Hsize.
  - simpl. by rewrite Hcontacts.
  - simpl. rewrite Hmsgs. apply total_perm. unfold JsMap.values.
    by rewrite Hperm.
Qed.

End loading_documents.

(** * Instances of the theorems *)

Lemma eviction_invariant_witness :
  (0 ≤ maxMessagesPerChat (cfg fresh))%Z
  ∧ messages_wf fresh
  ∧ (Z.of_nat
       (JsMap.size
          (chat_messages "a@s.whatsapp.net"
             (foldl (λ s op, insert jid_unchanged op s) fresh
                [AddMessage 10 "a@s.whatsapp.net" (message_at "m1" 1);
                 ProcessChatMessages 11 "a@s.whatsapp.net"
                   [message_at "m2" 2; message_at "m3" 3]])))
     ≤ maxMessagesPerChat (cfg fresh))%Z.
Proof.
  split; [simpl; lia|]. split; [apply messages_wf_new|].
  apply (eviction_invariant jid_unchanged fresh
           [AddMessage 10 "a@s.whatsapp.net" (message_at "m1" 1);
            ProcessChatMessages 11 "a@s.whatsapp.net"
              [message_at "m2" 2; message_at "m3" 3]]).
  - simpl; lia.
  - apply messages_wf_new.
  - intros jid. simpl. lia.
Defined.

Lemma updateChat_merges_witness :
  JsMap.get (two_more_unread !! "id") (chats one_chat) = Some 0
  ∧ heap one_chat !! 0 = Some one_chat_object
  ∧ deref (heap (updateChat decimal_gt_zero decimal 9 two_more_unread one_chat)) 0
      !! "unreadCount"
    = Some (VNum (1 + 2)).
Proof.
  split; [by vm_compute|]. split; [by vm_compute|].
  refine (proj1 (updateChat_merges decimal_gt_zero decimal 9 two_more_unread
                   one_chat 0 one_chat_object _ _) 2%Z 1%Z _ _ _).
  - by vm_compute.
  - by vm_compute.
  - by vm_compute.
  - lia.
  - left. by vm_compute.
Defined.

(** The claim that every field the update does not name is preserved fails
    for [lastUpdated]: the update below does not name it, the chat had it at
    1, and after the update at time 9 it is 9. *)
Lemma updateChat_restamps_unnamed_lastUpdated :
  JsMap.get (two_more_unread !! "id") (chats one_chat) = Some 0
  ∧ two_more_unread !! "lastUpdated" = None
  ∧ deref (heap one_chat) 0 !! "lastUpdated" = Some (VNum 1)
  ∧ deref (heap (updateChat decimal_gt_zero decimal 9 two_more_unread one_chat)) 0
      !! "lastUpdated" = Some (VNum 9)
  ∧ deref (heap (updateChat decimal_gt_zero decimal 9 two_more_unread one_chat)) 0
      !! "lastUpdated" ≠ deref (heap one_chat) 0 !! "lastUpdated".
Proof. by vm_compute. Qed.

(** The claim that [hasBackupData] is true when only the backed-up group
    metadata is non-empty fails: in the state below that map has an entry
    and [hasBackupData] is false. *)
Lemma hasBackupData_ignores_group_metadata :
  backup_groupMetadata (backupData only_group_backed_up) ≠ []
  ∧ hasBackupData only_group_backed_up = false
  ∧ ¬ (hasBackupData only_group_backed_up = true
       ↔ backup_chats (backupData only_group_backed_up) ≠ []
         ∨ backup_messages (backupData only_group_backed_up) ≠ []
         ∨ backup_contacts (backupData only_group_backed_up) ≠ []
         ∨ backup_groupMetadata (backupData only_group_backed_up) ≠ []).
Proof.
  split_and!; [by vm_compute | by vm_compute |].
  intros [_ Hfalse].
  assert (hasBackupData only_group_backed_up = true) as Htrue.
  { apply Hfalse. do 3 right. by vm_compute. }
  by vm_compute in Htrue.
Qed.

Lemma messages_wf_one_message : messages_wf one_message.
Proof.
  apply (insert_wf jid_unchanged (AddMessage 10 "A" (message_at "k1" 1))).
  apply messages_wf_new.
Qed.

Lemma history_clears_only_large_latest_witness :
  syncType latest_delta ≠ 6%Z
  ∧ lock_free one_message
  ∧ ∃ s' n',
      processHistorySet jid_unchanged decimal print_sizes 5 20 21 None
        latest_delta (one_message, empty_disk) = Some (s', n')
      ∧ JsMap.get "k1" (chat_messages "A" s')
        = Some (Stored (message_at "k1" 1) 10 true)
      ∧ JsMap.get "k2" (chat_messages "A" s')
        = Some (Stored (message_at "k2" 2) 20 true).
Proof.
  split; [done|]. split; [done|].
  destruct (history_clears_only_large_latest jid_unchanged decimal print_sizes
              5 20 21 latest_delta one_message empty_disk)
    as (s' & n' & Hrun & _ & _ & _ & _ & _ & _ & _ & _ & _ & Hmsgs);
    [done | done |].
  destruct (Hmsgs messages_wf_one_message) as (Hnew & Hkept & _).
  assert (Hsize : JsMap.size (chat_messages "A" s') = 2).
  { vm_compute in Hrun. injection Hrun as <- _. reflexivity. }
  assert (Hsmall : ¬ large_latest latest_delta).
  { intros [_ [Hlen|Hlen]]; simpl in Hlen; lia. }
  exists s', n'. split; [exact Hrun|]. split.
  - destruct (Hkept Hsmall "A" "k1" (Stored (message_at "k1" 1) 10 true))
      as [Hget|[Hfull _]]; [done | exact Hget |].
    rewrite Hsize in Hfull. vm_compute in Hfull. discriminate.
  - destruct (Hnew "A" "k2" (message_at "k2" 2)) as [Hget|[Hfull _]].
    + exists [], []. by split_and!.
    + by right.
    + exact Hget.
    + rewrite Hsize in Hfull. vm_compute in Hfull. discriminate.
Defined.

Lemma busy_reachable : reachable busy.
Proof.
  apply (reachable_step
           (System (with_isWriting true one_chat) empty_disk ["baileys_store.json"])).
  - apply (reachable_step (System one_chat empty_disk [])).
    + apply (reachable_step (System fresh empty_disk [])).
      * apply reachable_new.
      * by apply step_other.
    + by apply (step_call "baileys_store.json" one_chat empty_disk [] Issued).
  - by apply (step_call "baileys_store.json" (with_isWriting true one_chat)
                empty_disk ["baileys_store.json"] Queued).
Qed.


Lemma readFromFile_backup_never_returns_witness :
  lock_free fresh
  ∧ faults truncated_snapshot = []
  ∧ files truncated_snapshot !! "baileys_store.json" = Some "12345"
  ∧ String.length "12345" < 10
  ∧ files truncated_snapshot !! backupFile "baileys_store.json"
    = Some "{ valid backup }"
  ∧ 10 < String.length "{ valid backup }"
  ∧ readFromFile parse_nothing is_empty load_nothing 3 50 0 "baileys_store.json"
      (fresh, truncated_snapshot) = None.
Proof.
  split_and!; [done | done | by vm_compute | simpl; lia | by vm_compute
              | simpl; lia |].
  apply (readFromFile_backup_never_returns parse_nothing is_empty load_nothing
           3 50 0 "baileys_store.json" fresh truncated_snapshot
           "12345" "{ valid backup }").
  - done.
  - done.
  - by vm_compute.
  - simpl; lia.
  - by vm_compute.
  - simpl; lia.
Defined.

Lemma chats_upsert_dropped_during_sync_witness :
  isProcessingHistory syncing = true
  ∧ handle jid_unchanged decimal_gt_zero decimal print_sizes 5 30
      (chats_upsert [ {[ "id" := VStr "b@s.whatsapp.net" ]} ])
      (syncing, empty_disk)
    = Some (syncing, empty_disk).
Proof.
  split; [done|].
  apply (chats_upsert_dropped_during_sync jid_unchanged decimal_gt_zero decimal
           print_sizes 5 30 syncing empty_disk).
  done.
Defined.

Lemma maps_wf_one_chat : maps_wf one_chat.
Proof.
  split_and!; try (by constructor).
  - apply NoDup_singleton.
  - intros jid m Hin. by apply elem_of_nil in Hin.
Qed.

Lemma loadMessages_pages_witness :
  (0 ≤ 0)%Z ∧ (0 ≤ 1)%Z ∧ (0 ≤ 2)%Z
  ∧ loadMessages jid_unchanged "a@s.whatsapp.net" None
      (LoadOptions (Some 1%Z) (Some 0%Z) None None None) three_messages
    ++ loadMessages jid_unchanged "a@s.whatsapp.net" None
         (LoadOptions (Some 2%Z) (Some (0 + 1)%Z) None None None) three_messages
    = loadMessages jid_unchanged "a@s.whatsapp.net" None
        (LoadOptions (Some (1 + 2)%Z) (Some 0%Z) None None None) three_messages.
Proof.
  split_and!; [lia | lia | lia |].
  apply (loadMessages_pages jid_unchanged "a@s.whatsapp.net" None None None
           three_messages 0 1 2); lia.
Defined.

Lemma first_listed_is_last_message_witness :
  (∀ n : Z, Some 10%Z = Some n → 1 ≤ n)%Z
  ∧ head (loadMessages jid_unchanged "a@s.whatsapp.net" None
            (LoadOptions (Some 10%Z) None None None None) three_messages)
    = getLastMessage jid_unchanged "a@s.whatsapp.net" three_messages.
Proof.
  split; [intros n [= <-]; lia|].
  apply (first_listed_is_last_message jid_unchanged "a@s.whatsapp.net"
           (Some 10%Z) three_messages).
  intros n [= <-]. lia.
Defined.

Lemma addMessage_then_loadMessages_witness :
  messages_wf fresh
  ∧ fromMe (message_at "m1" 1) && historySyncNotification (message_at "m1" 1)
    = false
  ∧ key_id (msg_key (message_at "m1" 1)) ≠ ""
  ∧ loadMessages jid_unchanged "a@s.whatsapp.net" (Some "m1")
      (LoadOptions None None None None None)
      (addMessage jid_unchanged 10 "a@s.whatsapp.net" (message_at "m1" 1) fresh)
    = [Stored (message_at "m1" 1) 10 true].
Proof.
  split; [apply messages_wf_new|]. split; [done|]. split; [done|].
  apply (addMessage_then_loadMessages jid_unchanged 10 "a@s.whatsapp.net"
           (message_at "m1" 1) (LoadOptions None None None None None) fresh).
  - apply messages_wf_new.
  - done.
  - done.
  - left. simpl. lia.
Defined.

Lemma nonpositive_cap_retains_nothing_witness :
  (maxMessagesPerChat (cfg keeps_nothing) ≤ 0)%Z
  ∧ fromMe (message_at "m1" 1) && historySyncNotification (message_at "m1" 1)
    = false
  ∧ chat_messages (jid_of jid_unchanged "a@s.whatsapp.net")
      (addMessage jid_unchanged 10 "a@s.whatsapp.net" (message_at "m1" 1)
         keeps_nothing) = []
  ∧ totalMessages
      (stats (addMessage jid_unchanged 10 "a@s.whatsapp.net"
                (message_at "m1" 1) keeps_nothing)) = 1%Z.
Proof.
  split; [simpl; lia|]. split; [done|].
  destruct (nonpositive_cap_retains_nothing jid_unchanged 10 "a@s.whatsapp.net"
              (message_at "m1" 1) [] keeps_nothing) as (Hnone & Hcount & _).
  - simpl. lia.
  - done.
  - split; [exact Hnone | exact Hcount].
Defined.

Lemma messages_wf_keeps_one : messages_wf keeps_one.
Proof.
  apply (insert_wf jid_unchanged
           (AddMessage 10 "a@s.whatsapp.net" (message_at "m5" 5))).
  apply messages_wf_new.
Qed.

Lemma addMessage_stale_dropped_witness :
  messages_wf keeps_one
  ∧ JsMap.has "m1" (chat_messages (jid_of jid_unchanged "a@s.whatsapp.net")
                      keeps_one) = false
  ∧ chat_messages (jid_of jid_unchanged "a@s.whatsapp.net")
      (addMessage jid_unchanged 11 "a@s.whatsapp.net" (message_at "m1" 1)
         keeps_one)
    = chat_messages (jid_of jid_unchanged "a@s.whatsapp.net") keeps_one
  ∧ totalMessages
      (stats (addMessage jid_unchanged 11 "a@s.whatsapp.net"
                (message_at "m1" 1) keeps_one)) = 2%Z.
Proof.
  split; [apply messages_wf_keeps_one|]. split; [done|].
  apply (addMessage_stale_dropped jid_unchanged 11 "a@s.whatsapp.net"
           (message_at "m1" 1) keeps_one).
  - apply messages_wf_keeps_one.
  - done.
  - done.
  - done.
  - intros e He. vm_compute in He.
    apply elem_of_cons in He as [->|He]; [by vm_compute|].
    by apply elem_of_nil in He.
Defined.

Lemma processChatMessages_first_wins_witness :
  messages_wf keeps_one
  ∧ JsMap.get "m5"
      (chat_messages "a@s.whatsapp.net"
         (processChatMessages 11 "a@s.whatsapp.net" [message_at "m5" 9]
            keeps_one))
    = Some (Stored (message_at "m5" 5) 10 true)
  ∧ (JsMap.get "m5" (chat_messages "a@s.whatsapp.net" keeps_one)
     = Some (Stored (message_at "m5" 5) 10 true)
     ∨ JsMap.get "m5" (chat_messages "a@s.whatsapp.net" keeps_one) = None
       ∧ ∃ l1 msg l2,
           [message_at "m5" 9] = l1 ++ msg :: l2
           ∧ key_id (msg_key msg) = "m5"
           ∧ Forall (λ other, key_id (msg_key other) ≠ "m5") l1
           ∧ Stored (message_at "m5" 5) 10 true = Stored msg 11 true).
Proof.
  split; [apply messages_wf_keeps_one|]. split; [done|].
  apply (processChatMessages_first_wins jid_unchanged 11 "a@s.whatsapp.net"
           [message_at "m5" 9] keeps_one "m5"
           (Stored (message_at "m5" 5) 10 true)).
  - apply messages_wf_keeps_one.
  - done.
Defined.

Lemma processContactsUpsert_merges_witness :
  "name" ≠ "lastUpdated"
  ∧ default (∅ : obj)
      (JsMap.get "c@s.whatsapp.net"
         (contacts (processContactsUpsert jid_unchanged 10 [a_contact] fresh)))
      !! "name" = Some (VStr "Carol").
Proof.
  split; [done|].
  refine (proj1 (processContactsUpsert_merges jid_unchanged 10 [a_contact]
                   fresh "c@s.whatsapp.net" "name" _)
            [] a_contact [] (VStr "Carol") _ _ _ _); done.
Defined.

Lemma totalChats_tracks_chats_witness :
  chats_counted fresh
  ∧ handle jid_unchanged decimal_gt_zero decimal print_sizes 5 1
      (chats_upsert
         [ ({[ "id" := VStr "a@s.whatsapp.net"; "unreadCount" := VNum 1 ]} : obj) ])
      (fresh, empty_disk)
    = Some (one_chat, empty_disk)
  ∧ chats_counted one_chat.
Proof.
  split; [done|]. split; [done|].
  apply (totalChats_tracks_chats jid_unchanged decimal_gt_zero decimal
           print_sizes 5 1
           (chats_upsert
              [ ({[ "id" := VStr "a@s.whatsapp.net";
                    "unreadCount" := VNum 1 ]} : obj) ])
           fresh empty_disk one_chat empty_disk); done.
Defined.

Lemma writeToFile_saves_or_reports_witness :
  isWriting one_chat = false ∧ hasValidData one_chat = true
  ∧ lock_free one_chat
  ∧ ∃ s' n',
      writeToFile decimal print_sizes 5 20 "baileys_store.json"
        (one_chat, empty_disk) = Some (s', n')
      ∧ files n' !! "baileys_store.json"
        = Some (print_sizes (serializeStoreData 20 one_chat)).
Proof.
  split; [done|]. split; [done|]. split; [done|].
  destruct (writeToFile_saves_or_reports decimal print_sizes 5 20
              "baileys_store.json" one_chat empty_disk)
    as (s' & n' & Hrun & _ & _ & _ & _ & Hsaved); [done | done | done |].
  exists s', n'. split; [exact Hrun|].
  apply Hsaved; [done | vm_compute; lia].
Defined.

Lemma smartAutoSave_guards_witness :
  lock_free just_syncing
  ∧ smartAutoSave decimal print_sizes 5 20 (just_syncing, empty_disk)
    = Some (just_syncing, empty_disk).
Proof.
  split; [done|].
  destruct (smartAutoSave_guards decimal print_sizes 5 20 just_syncing
              empty_disk)
    as (s' & n' & Hrun & _ & _ & Hsame); [done|].
  destruct Hsame as [-> ->]; [|exact Hrun].
  left. split; [done|]. exists 5%Z. split_and!; [done | lia | lia].
Defined.

Lemma readFromFile_read_only_witness :
  readFromFile parse_nothing is_empty load_nothing 1 0 0 "baileys_store.json"
    (fresh, empty_disk) = Some (fresh, empty_disk)
  ∧ files empty_disk = files empty_disk
  ∧ JsMap.has "file" (writeLocks fresh) = false.
Proof.
  split; [done|].
  apply (readFromFile_read_only parse_nothing is_empty load_nothing 1 0 0
           "baileys_store.json" fresh empty_disk fresh empty_disk).
  done.
Defined.

Lemma readFromFile_loads_or_reports_witness :
  lock_free fresh ∧ faults truncated_snapshot = []
  ∧ files truncated_snapshot !! "baileys_store.json.backup"
    = Some "{ valid backup }"
  ∧ 10 ≤ String.length "{ valid backup }"
  ∧ is_empty "{ valid backup }" = false
  ∧ ∃ s',
      readFromFile parse_nothing is_empty load_nothing 1 0 0
        "baileys_store.json.backup" (fresh, truncated_snapshot)
      = Some (s', truncated_snapshot)
      ∧ emitted s' = [store_error SyntaxError].
Proof.
  split_and!; [done | done | by vm_compute | simpl; lia | done |].
  destruct (readFromFile_loads_or_reports parse_nothing is_empty load_nothing
              0 0 0 "baileys_store.json.backup" fresh truncated_snapshot
              "{ valid backup }")
    as (s' & Hrun & _ & Hparse); [done | done | by vm_compute | simpl; lia | done |].
  exists s'. split; [exact Hrun|]. by destruct Hparse as (_ & _ & ->).
Defined.

Lemma processHistorySet_sync_span_witness :
  syncType small_latest_batch ≠ 6%Z
  ∧ lock_free one_chat
  ∧ ∃ s' n',
      processHistorySet jid_unchanged decimal print_sizes 5 20 21 None
        small_latest_batch (one_chat, empty_disk) = Some (s', n')
      ∧ isProcessingHistory s' = false.
Proof.
  split; [done|]. split; [done|].
  destruct (processHistorySet_sync_span jid_unchanged decimal print_sizes
              5 20 21 None small_latest_batch one_chat empty_disk)
    as (s' & n' & Hrun & _ & Hend); [done | done |].
  exists s', n'. split; [exact Hrun|]. by destruct Hend as (-> & _).
Defined.

Lemma finalizeSyncProcess_restores_backup_witness :
  maps_wf one_chat ∧ hasValidData one_chat = true
  ∧ backupData emptied = backupData (backup_in_memory one_chat)
  ∧ preserveDataDuringSync (cfg emptied) = true
  ∧ hasValidData emptied = false ∧ lock_free emptied
  ∧ ∃ s' n',
      finalizeSyncProcess decimal print_sizes 5 20 (emptied, empty_disk)
      = Some (s', n')
      ∧ chats s' = chats one_chat.
Proof.
  split_and!; [apply maps_wf_one_chat | done | done | done | done | done |].
  destruct (finalizeSyncProcess_restores_backup decimal print_sizes 5 20
              one_chat emptied empty_disk)
    as (s' & n' & Hrun & Hchats & _);
    [apply maps_wf_one_chat | done | done | done | done | done |].
  by exists s', n'.
Defined.

Lemma loadStoreData_round_trip_witness :
  maps_wf one_chat
  ∧ chat_entries
      (loadStoreData (document_of (serializeStoreData 20 one_chat))
         (new_store (cfg fresh)))
    = chat_entries one_chat.
Proof.
  split; [apply maps_wf_one_chat|].
  apply (loadStoreData_round_trip 20 one_chat (cfg fresh)).
  apply maps_wf_one_chat.
Defined.


Lemma processHistorySet_recounts_witness :
  syncType small_latest_batch ≠ 6%Z
  ∧ lock_free one_chat
  ∧ ∃ s' n',
      processHistorySet jid_unchanged decimal print_sizes 5 20 21 None
        small_latest_batch (one_chat, empty_disk) = Some (s', n')
      ∧ stats_counted s'.
Proof.
  split; [done|]. split; [done|].
  apply (processHistorySet_recounts jid_unchanged decimal print_sizes
           5 20 21 None small_latest_batch one_chat empty_disk); done.
Defined.

Lemma addMessage_keeps_newest_witness :
  messages_wf keeps_one
  ∧ fromMe (message_at "m1" 1) && historySyncNotification (message_at "m1" 1)
    = false
  ∧ (1 ≤ maxMessagesPerChat (cfg keeps_one))%Z
  ∧ ∃ last,
      getLastMessage jid_unchanged "a@s.whatsapp.net"
        (addMessage jid_unchanged 11 "a@s.whatsapp.net" (message_at "m1" 1)
           keeps_one) = Some last
      ∧ (1 ≤ timestamp_or_zero last)%Z.
Proof.
  split; [apply messages_wf_keeps_one|]. split; [done|].
  split; [simpl; lia|].
  destruct (addMessage_keeps_newest jid_unchanged 11 "a@s.whatsapp.net"
              (message_at "m1" 1) keeps_one)
    as (last & Hget & Hle & _);
    [apply messages_wf_keeps_one | done | simpl; lia |].
  exists last. split; [exact Hget | exact Hle].
Defined.

Lemma within_cap_fresh : within_cap fresh.
Proof.
  split_and!.
  - simpl. lia.
  - apply messages_wf_new.
  - intros jid. simpl. lia.
  - constructor.
  - intros jid m Hin. by apply elem_of_nil in Hin.
Qed.

Lemma handle_within_cap_witness :
  within_cap fresh ∧ lock_free fresh
  ∧ ∃ s' n',
      handle jid_unchanged decimal_gt_zero decimal print_sizes 5 1
        (messages_upsert [message_at "m1" 1] "notify") (fresh, empty_disk)
      = Some (s', n')
      ∧ within_cap s'.
Proof.
  split; [apply within_cap_fresh|]. split; [done|].
  destruct (handle_within_cap jid_unchanged decimal_gt_zero decimal
              print_sizes 5 1 (messages_upsert [message_at "m1" 1] "notify")
              fresh empty_disk)
    as (s' & n' & Hrun & Hs' & _); [apply within_cap_fresh | done |].
  by exists s', n'.
Defined.
